(** * Session and OAuth-state storage of headshotai-server

    A shallow embedding of
    - [server/auth/session_manager.py]  (class [SessionManager]),
    - [server/auth/state_manager.py]    (class [StateManager]),
    - [crons/session_cleanup/session_cleanup.py] (class [SessionCleanup]),
    - [server/auth/session_routes.py] and [select_cookie_domain] of
      [server/auth/session_settings.py],
    together with the part of Redis these modules talk to.

    Conventions.
    - [time.time()] returns a float; times are modelled as exact rationals
      ([Q]) and every function that reads the clock takes the reading [now]
      as an argument.  A call is taken as instantaneous: every clock read and
      every expiry check inside one call sees the same [now].
    - A session dict is a record of optional fields, one per key the
      application writes; [None] stands for an absent key.
    - The module-level globals ([_redis], [_session_store], ...) are the
      fields of one explicit [store] that every operation threads through.
    - A Python [str] is a [string] of bytes.  [lower] and [strip] are
      Python's on ASCII text ([is_ascii]); [KEYS] matches keys against its
      pattern as the Redis server does ([keys_match]). *)

From Stdlib Require Import ZArith QArith Qround Lqa Lia String Ascii List.
From stdpp Require Import gmap strings list fin_maps.

Local Open Scope string_scope.
Local Open Scope Z_scope.

(** ** Python helpers *)

(** [int(x)] on a float: truncation toward zero. *)
Definition py_int (q : Q) : Z :=
  if Qle_bool 0 q then Qfloor q else Qceiling q.

Definition Qlt_bool (x y : Q) : bool := negb (Qle_bool y x).

(** Truthiness of an optional string: [None] and [''] are falsy. *)
Definition str_truthy (o : option string) : bool :=
  match o with
  | Some s => negb (String.eqb s "")
  | None => false
  end.

(** [str.lower()] and [str.strip()] on ASCII text.  A [string] is a sequence
    of bytes; on a string all of whose characters are ASCII ([is_ascii]) the
    two functions below are Python's: [str.lower] folds [A-Z] only and
    [str.strip] removes the characters 9 to 13 and 28 to 32.  Python also
    folds capitals and strips white space outside ASCII, which these
    functions do not; statements that depend on what [lower] and [strip]
    return carry [is_ascii] on their input. *)
Definition is_ascii (s : string) : bool :=
  forallb (λ c, (nat_of_ascii c <? 128)%nat) (list_ascii_of_string s).

Definition ascii_lower (c : ascii) : ascii :=
  let n := nat_of_ascii c in
  if ((65 <=? n) && (n <=? 90))%nat then ascii_of_nat (n + 32) else c.

Definition ascii_isspace (c : ascii) : bool :=
  let n := nat_of_ascii c in
  (((9 <=? n) && (n <=? 13)) || ((28 <=? n) && (n <=? 32)))%nat.

Fixpoint lower (s : string) : string :=
  match s with
  | EmptyString => EmptyString
  | String c s' => String (ascii_lower c) (lower s')
  end.

Fixpoint lstrip_chars (l : list ascii) : list ascii :=
  match l with
  | c :: l' => if ascii_isspace c then lstrip_chars l' else l
  | [] => []
  end.

Definition strip (s : string) : string :=
  string_of_list_ascii
    (rev (lstrip_chars (rev (lstrip_chars (list_ascii_of_string s))))).

(** [s.replace(pat, '')]: every non-overlapping occurrence of [pat], scanned
    from the left, is removed.  [skip] counts the characters of the current
    occurrence that are still to be dropped. *)
Fixpoint replace_drop (pat : string) (skip : nat) (s : string) : string :=
  match s with
  | EmptyString => EmptyString
  | String c s' =>
      match skip with
      | S k => replace_drop pat k s'
      | O =>
          if String.prefix pat s && negb (String.eqb pat "")
          then replace_drop pat (String.length pat - 1) s'
          else String c (replace_drop pat 0 s')
      end
  end.

Definition str_remove (pat s : string) : string := replace_drop pat 0 s.

(** [l[i:]] for a Python list. *)
Definition py_slice_from {A} (i : Z) (l : list A) : list A :=
  let n := Z.of_nat (length l) in
  drop (Z.to_nat (if i <? 0 then Z.max 0 (n + i) else Z.min i n)) l.

(** ** Configuration (module-level constants read from the environment) *)

Record config := {
  REDIS_PREFIX : string;
  MAX_USER_SESSIONS : Z;
  SESSION_LIST_RETURN_LIMIT : Z;
  SESSION_SLIDING_ENABLED : bool;
  SESSION_SLIDING_SECONDS : Z;
  SESSION_ABSOLUTE_SECONDS : Z
}.

(** The values the modules take when no environment variable is set. *)
Definition default_config : config := {|
  REDIS_PREFIX := "appauth";
  MAX_USER_SESSIONS := 0;
  SESSION_LIST_RETURN_LIMIT := 20;
  SESSION_SLIDING_ENABLED := true;
  SESSION_SLIDING_SECONDS := 3600;
  SESSION_ABSOLUTE_SECONDS := 0
|}.

Definition SESSION_TTL_DEFAULT : Z := 3600.
Definition STATE_TTL : Z := 600.

(** ** Records *)

(** The session dict built by the login callbacks. *)
Record session := {
  s_sub : option string;
  s_email : option string;
  s_name : option string;
  s_picture : option string;
  s_provider : option string;
  s_ts : option Q;
  s_exp : option Z;
  s_ua : option string;
  s_ip : option string;
  s_is_new_user : option bool
}.

(** [data['exp'] = e] *)
Definition set_exp (data : session) (e : Z) : session := {|
  s_sub := s_sub data; s_email := s_email data; s_name := s_name data;
  s_picture := s_picture data; s_provider := s_provider data;
  s_ts := s_ts data; s_exp := Some e; s_ua := s_ua data; s_ip := s_ip data;
  s_is_new_user := s_is_new_user data
|}.

Definition present {A} (o : option A) : bool :=
  match o with Some _ => true | None => false end.

(** Truthiness of a dict: only the empty dict is falsy. *)
Definition dict_truthy (d : session) : bool :=
  present (s_sub d) || present (s_email d) || present (s_name d)
  || present (s_picture d) || present (s_provider d)
  || present (s_ts d) || present (s_exp d) || present (s_ua d)
  || present (s_ip d) || present (s_is_new_user d).

(** The dict [save_state] stores under a state token. *)
Record state_data := {
  sd_redirect_uri : string;
  sd_exp : Z;
  sd_provider : string
}.

(** One element of the list returned by [list_user_sessions]. *)
Record session_info := {
  si_session_id : string;
  si_created_at : option Q;
  si_expires_at : option Z;
  si_expired : bool;
  si_ua : option string;
  si_ip : option string;
  si_provider : string
}.

(** ** The Redis server

    Keys are the strings built by [_rkey].  The keyspace is kept as one finite
    map per kind of value the application stores: JSON session dicts
    ([<prefix>:sess:<id>]), sorted sets ([<prefix>:usess:<index>]), JSON state
    dicts ([<prefix>:state:<token>]) and plain text ([<prefix>:codev:<token>]).
    A string value carries the instant its TTL runs out; [json.dumps] followed
    by [json.loads] is the identity on the dicts stored. *)

(** The four maps of the server.  A sorted set is the list of its members
    with their scores, ascending by score, members of equal score in
    lexicographic order. *)
Record redis := {
  r_sess : gmap string (session * Q);
  r_zsets : gmap string (list (string * Q));
  r_state : gmap string (state_data * Q);
  r_text : gmap string (string * Q)
}.

Definition redis_empty : redis :=
  {| r_sess := ∅; r_zsets := ∅; r_state := ∅; r_text := ∅ |}.

Definition with_sess (f : gmap string (session * Q) → gmap string (session * Q))
    (db : redis) : redis :=
  {| r_sess := f (r_sess db); r_zsets := r_zsets db;
     r_state := r_state db; r_text := r_text db |}.

Definition with_zsets
    (f : gmap string (list (string * Q)) → gmap string (list (string * Q)))
    (db : redis) : redis :=
  {| r_sess := r_sess db; r_zsets := f (r_zsets db);
     r_state := r_state db; r_text := r_text db |}.

Definition with_state (f : gmap string (state_data * Q) → gmap string (state_data * Q))
    (db : redis) : redis :=
  {| r_sess := r_sess db; r_zsets := r_zsets db;
     r_state := f (r_state db); r_text := r_text db |}.

Definition with_text (f : gmap string (string * Q) → gmap string (string * Q))
    (db : redis) : redis :=
  {| r_sess := r_sess db; r_zsets := r_zsets db;
     r_state := r_state db; r_text := f (r_text db) |}.

(** *** String commands.  A key whose deadline has passed is gone for every
    reader, whether or not the server has reclaimed it yet. *)

Definition redis_get {A} (now : Q) (m : gmap string (A * Q)) (key : string)
    : option A :=
  match m !! key with
  | Some (v, deadline) => if Qle_bool now deadline then Some v else None
  | None => None
  end.

Definition redis_exists {A} (now : Q) (m : gmap string (A * Q)) (key : string)
    : bool :=
  present (redis_get now m key).

(** [SET key value EX ttl] *)
Definition redis_setex {A} (now : Q) (key : string) (v : A) (ttl : Z)
    (m : gmap string (A * Q)) : gmap string (A * Q) :=
  <[key := (v, (now + inject_Z ttl)%Q)]> m.

(** *** [KEYS pattern]

    The server matches every key against the glob pattern with
    [stringmatchlen] (util.c): [*] stands for any run of characters, [?] for
    one character, [[...]] for a class of characters (ranges [a-z], negation
    with a leading [^]), and a backslash takes the next character
    literally. *)

(** The value of a C [char] read into an [int]: [char] is signed. *)
Definition char_code (c : ascii) : Z :=
  let n := Z.of_nat (nat_of_ascii c) in
  if 128 <=? n then n - 256 else n.

(** The loop over a bracket class, entered after ['['] and an optional ['^']:
    whether [c] is in the class, and the pattern after the closing [']'].
    A class that is not closed runs to the end of the pattern. *)
Fixpoint glob_class (p : string) (c : ascii) (matched : bool) : bool * string :=
  match p with
  | EmptyString => (matched, EmptyString)
  | String a p1 =>
      match p1 with
      | EmptyString =>
          if Ascii.eqb a "]" then (matched, p1)
          else (matched || Ascii.eqb a c, EmptyString)
      | String b p2 =>
          if Ascii.eqb a "\" then glob_class p2 c (matched || Ascii.eqb b c)
          else if Ascii.eqb a "]" then (matched, p1)
          else
            match p2 with
            | String e p3 =>
                if Ascii.eqb b "-" then
                  let lo := Z.min (char_code a) (char_code e) in
                  let hi := Z.max (char_code a) (char_code e) in
                  glob_class p3 c
                    (matched || ((lo <=? char_code c) && (char_code c <=? hi)))
                else glob_class p1 c (matched || Ascii.eqb a c)
            | EmptyString => glob_class p1 c (matched || Ascii.eqb a c)
            end
      end
  end.

(** The main loop of [stringmatchlen] on a string that is not yet exhausted
    when the loop is entered; [n] bounds the number of pattern positions
    still to visit. *)
Fixpoint glob_loop (n : nat) (p s : string) : bool :=
  match n with
  | O => false
  | S n =>
      match p with
      | EmptyString => match s with EmptyString => true | _ => false end
      | String a p1 =>
          if Ascii.eqb a "*" then
            match p1 with
            | EmptyString => true
            | _ =>
                (fix star (s : string) : bool :=
                   glob_loop n p1 s
                   || match s with
                      | EmptyString => false
                      | String _ s1 => star s1
                      end) s
            end
          else
            match s with
            | EmptyString => false
            | String c s1 =>
                if Ascii.eqb a "?" then glob_loop n p1 s1
                else if Ascii.eqb a "[" then
                  let negated :=
                    match p1 with String x _ => Ascii.eqb x "^" | _ => false end in
                  let p2 :=
                    if negated then match p1 with String _ q => q | _ => p1 end
                    else p1 in
                  let '(matched, rest) := glob_class p2 c false in
                  if xorb matched negated then glob_loop n rest s1 else false
                else
                  match p1 with
                  | String b p2 =>
                      if Ascii.eqb a "\" then Ascii.eqb b c && glob_loop n p2 s1
                      else Ascii.eqb a c && glob_loop n p1 s1
                  | EmptyString => Ascii.eqb a c && glob_loop n p1 s1
                  end
            end
      end
  end.

(** [stringmatchlen(pattern, string, nocase = 0)] of Redis (util.c): the loop
    is not entered on an empty string, which only the empty pattern matches. *)
Definition stringmatchlen (pattern s : string) : bool :=
  match s with
  | EmptyString => String.eqb pattern ""
  | _ => glob_loop (S (String.length pattern)) pattern s
  end.

(** The test of [KEYS pattern] on one key; the pattern ["*"] takes every
    key. *)
Definition keys_match (pattern key : string) : bool :=
  String.eqb pattern "*" || stringmatchlen pattern key.

(** No character with a meaning in a glob pattern. *)
Definition glob_free (s : string) : bool :=
  forallb (λ c, negb (Ascii.eqb c "*" || Ascii.eqb c "?" || Ascii.eqb c "["
                      || Ascii.eqb c "\"))
          (list_ascii_of_string s).

(** [KEYS pattern] on string keys: the live keys the pattern matches. *)
Definition redis_keys {A} (now : Q) (pattern : string) (m : gmap string (A * Q))
    : list string :=
  List.filter (λ k, keys_match pattern k && redis_exists now m k)
              (map fst (map_to_list m)).

(** *** Sorted-set commands *)

Definition zless (a b : string * Q) : bool :=
  Qlt_bool a.2 b.2 || (Qeq_bool a.2 b.2 && String.ltb a.1 b.1).

Fixpoint zinsert (x : string * Q) (z : list (string * Q)) : list (string * Q) :=
  match z with
  | [] => [x]
  | y :: z' => if zless x y then x :: y :: z' else y :: zinsert x z'
  end.

Definition zset_of (key : string) (zs : gmap string (list (string * Q)))
    : list (string * Q) :=
  default [] (zs !! key).

(** [ZADD key score member]: a member already present is moved to its new
    score. *)
Definition zadd (key member : string) (score : Q)
    (zs : gmap string (list (string * Q))) : gmap string (list (string * Q)) :=
  <[key := zinsert (member, score)
                   (filter (λ p, p.1 ≠ member) (zset_of key zs))]> zs.

Definition zcard (key : string) (zs : gmap string (list (string * Q))) : Z :=
  Z.of_nat (length (zset_of key zs)).

(** [ZRANGE key start stop]: both ends inclusive, negative indices count from
    the end. *)
Definition zrange (key : string) (start stop : Z)
    (zs : gmap string (list (string * Q))) : list string :=
  let l := map fst (zset_of key zs) in
  let n := Z.of_nat (length l) in
  let a := if start <? 0 then Z.max 0 (n + start) else start in
  let b := if stop <? 0 then n + stop else Z.min stop (n - 1) in
  if b <? a then [] else take (Z.to_nat (b - a + 1)) (drop (Z.to_nat a) l).

(** [ZREM key m1 m2 ...]: a sorted set left without members is deleted. *)
Definition zrem (key : string) (members : list string)
    (zs : gmap string (list (string * Q))) : gmap string (list (string * Q)) :=
  match zs !! key with
  | None => zs
  | Some z =>
      match filter (λ p, p.1 ∉ members) z with
      | [] => delete key zs
      | z' => <[key := z']> zs
      end
  end.

(** [KEYS pattern] on sorted-set keys. *)
Definition zset_keys (pattern : string) (zs : gmap string (list (string * Q)))
    : list string :=
  List.filter (keys_match pattern) (map fst (map_to_list zs)).

(** ** The process state: the Redis connection ([None] when [REDIS_URL] is
    unset or the server did not answer) and the in-memory fallback dicts. *)

Record store := {
  _redis : option redis;
  _session_store : gmap string session;
  _user_sessions : gmap string (list string);
  _state_store : gmap string state_data;
  _code_verifiers : gmap string string
}.

Definition set_redis (db : redis) (st : store) : store :=
  {| _redis := Some db; _session_store := _session_store st;
     _user_sessions := _user_sessions st; _state_store := _state_store st;
     _code_verifiers := _code_verifiers st |}.

Definition set_session_store (m : gmap string session) (st : store) : store :=
  {| _redis := _redis st; _session_store := m;
     _user_sessions := _user_sessions st; _state_store := _state_store st;
     _code_verifiers := _code_verifiers st |}.

Definition set_user_sessions (m : gmap string (list string)) (st : store) : store :=
  {| _redis := _redis st; _session_store := _session_store st;
     _user_sessions := m; _state_store := _state_store st;
     _code_verifiers := _code_verifiers st |}.

Definition set_states (m : gmap string state_data) (v : gmap string string)
    (st : store) : store :=
  {| _redis := _redis st; _session_store := _session_store st;
     _user_sessions := _user_sessions st; _state_store := m;
     _code_verifiers := v |}.

Definition memory_store : store :=
  {| _redis := None; _session_store := ∅; _user_sessions := ∅;
     _state_store := ∅; _code_verifiers := ∅ |}.

Definition redis_store (db : redis) : store := set_redis db memory_store.

Section SessionManager.
Context (cfg : config).

(** [f"{REDIS_PREFIX}:{kind}:{ident}"] *)
Definition _rkey (kind ident : string) : string :=
  REDIS_PREFIX cfg ++ ":" ++ kind ++ ":" ++ ident.

(** The [while len(lst) > MAX_USER_SESSIONS] loop of
    [_enforce_max_sessions_memory]: pops the head of the list and drops its
    record. *)
Fixpoint enforce_loop (lst : list string) (ss : gmap string session)
    : list string * gmap string session :=
  match lst with
  | [] => ([], ss)
  | remove_id :: rest =>
      if MAX_USER_SESSIONS cfg <? Z.of_nat (length lst)
      then enforce_loop rest (delete remove_id ss)
      else (lst, ss)
  end.

(** The list is popped in place, so an index that exists sees the shortened
    list; [_user_sessions.get(idx, [])] on a missing index gives a fresh empty
    list and the loop does not run.  This is the function called with [_lock]
    free, as [add_session_to_user] does. *)
Definition _enforce_max_sessions_memory (idx : string) (st : store) : store :=
  if 0 <? MAX_USER_SESSIONS cfg then
    match _user_sessions st !! idx with
    | Some lst =>
        let '(lst', ss') := enforce_loop lst (_session_store st) in
        set_user_sessions (<[idx := lst']> (_user_sessions st))
          (set_session_store ss' st)
    | None => st
    end
  else st.

(** [None] stands for a call that never returns.  The in-memory branch calls
    [_enforce_max_sessions_memory] while it holds [_lock]; [_lock] is a plain
    [threading.Lock], not reentrant, and [_enforce_max_sessions_memory] takes
    it as soon as [MAX_USER_SESSIONS > 0]. *)
Definition save_session (now : Q) (session_id : string) (data : session)
    (exp : Z) (st : store) : option store :=
  let ttl := if exp =? 0 then SESSION_TTL_DEFAULT
             else Z.max 60 (exp - py_int now) in
  match _redis st with
  | Some db =>
      Some (set_redis
              (with_sess (redis_setex now (_rkey "sess" session_id) data ttl) db) st)
  | None =>
      let st1 := set_session_store (<[session_id := data]> (_session_store st)) st in
      if str_truthy (s_sub data) then
        let sub := default "" (s_sub data) in
        let lst := default [] (_user_sessions st1 !! sub) in
        let st2 :=
          set_user_sessions
            (<[sub := (lst ++ [session_id])%list]> (_user_sessions st1)) st1 in
        if 0 <? MAX_USER_SESSIONS cfg then None
        else Some (_enforce_max_sessions_memory sub st2)
      else Some st1
  end.

Definition get_session (now : Q) (session_id : string) (st : store)
    : option session :=
  match _redis st with
  | Some db => redis_get now (r_sess db) (_rkey "sess" session_id)
  | None => _session_store st !! session_id
  end.

Definition delete_session (session_id : string) (st : store) : store :=
  match _redis st with
  | Some db => set_redis (with_sess (delete (_rkey "sess" session_id)) db) st
  | None =>
      let st1 := set_session_store (delete session_id (_session_store st)) st in
      match _session_store st !! session_id with
      | Some sess =>
          if dict_truthy sess && str_truthy (s_sub sess) then
            let sub := default "" (s_sub sess) in
            match _user_sessions st1 !! sub with
            | Some lst =>
                match filter (λ s, s ≠ session_id) lst with
                | [] => set_user_sessions (delete sub (_user_sessions st1)) st1
                | lst' => set_user_sessions (<[sub := lst']> (_user_sessions st1)) st1
                end
            | None => st1
            end
          else st1
      | None => st1
      end
  end.

(** Returns the value returned, the caller's [data] dict after the call (it
    is updated in place) and the store; [None] when [save_session] never
    returns. *)
Definition refresh_session_if_needed (now : Q) (session_id : string)
    (data : session) (st : store) : option (option Z * session * store) :=
  if negb (SESSION_SLIDING_ENABLED cfg) then Some (None, data, st) else
  let cur_exp :=
    match s_exp data with
    | Some e => if e =? 0 then py_int (now + inject_Z SESSION_TTL_DEFAULT) else e
    | None => py_int (now + inject_Z SESSION_TTL_DEFAULT)
    end in
  if Qle_bool (inject_Z cur_exp) now then Some (None, data, st) else
  let remaining := (inject_Z cur_exp - now)%Q in
  let new_exp_candidate := py_int (now + inject_Z (SESSION_SLIDING_SECONDS cfg)) in
  let new_exp_candidate :=
    if 0 <? SESSION_ABSOLUTE_SECONDS cfg then
      let absolute_deadline :=
        py_int (default now (s_ts data) + inject_Z (SESSION_ABSOLUTE_SECONDS cfg)) in
      if absolute_deadline <? new_exp_candidate then absolute_deadline
      else new_exp_candidate
    else new_exp_candidate in
  if Qlt_bool (inject_Z (SESSION_SLIDING_SECONDS cfg) / 2) remaining
     && (new_exp_candidate <=? cur_exp)
  then Some (None, data, st)
  else
    let data' := set_exp data new_exp_candidate in
    match save_session now session_id data' new_exp_candidate st with
    | Some st' => Some (Some new_exp_candidate, data', st')
    | None => None
    end.

(** Normalised email when there is one, else the provider subject. *)
Definition _user_index_id (email sub : option string) : option string :=
  let eid := strip (lower (default "" email)) in
  if negb (String.eqb eid "") then Some eid else sub.

Definition add_session_to_user (email sub : option string)
    (session_id : string) (ts : Q) (st : store) : store :=
  let idx_opt := _user_index_id email sub in
  if negb (str_truthy idx_opt) then st else
  let idx := default "" idx_opt in
  match _redis st with
  | Some db =>
      let db1 := with_zsets (zadd (_rkey "usess" idx) session_id ts) db in
      let st1 := set_redis db1 st in
      if 0 <? MAX_USER_SESSIONS cfg then
        let over := zcard (_rkey "usess" idx) (r_zsets db1) - MAX_USER_SESSIONS cfg in
        if 0 <? over then
          match zrange (_rkey "usess" idx) 0 (over - 1) (r_zsets db1) with
          | [] => st1
          | old =>
              let st2 := foldl (λ s sid, delete_session sid s) st1 old in
              match _redis st2 with
              | Some db2 => set_redis (with_zsets (zrem (_rkey "usess" idx) old) db2) st2
              | None => st2
              end
          end
        else st1
      else st1
  | None =>
      let lst := default [] (_user_sessions st !! idx) in
      _enforce_max_sessions_memory idx
        (set_user_sessions (<[idx := (lst ++ [session_id])%list]> (_user_sessions st)) st)
  end.

(** [bool(exp and exp < now)] *)
Definition exp_passed (now : Q) (exp : option Z) : bool :=
  match exp with
  | Some e => negb (e =? 0) && Qlt_bool (inject_Z e) now
  | None => false
  end.

Definition session_entry (now : Q) (sid : string) (sess : session) : session_info :=
  {| si_session_id := sid;
     si_created_at := s_ts sess;
     si_expires_at := s_exp sess;
     si_expired := exp_passed now (s_exp sess);
     si_ua := s_ua sess;
     si_ip := s_ip sess;
     si_provider := default "unknown" (s_provider sess) |}.

(** A session id resolves when [get_session] returns a non-empty dict. *)
Definition resolves (now : Q) (st : store) (sid : string) : option session :=
  match get_session now sid st with
  | Some sess => if dict_truthy sess then Some sess else None
  | None => None
  end.

(** The [for sid in sids] loop of [list_user_sessions]: the entries of the
    ids that resolve, and the ids that do not ([stale]), both in the order
    met. *)
Fixpoint scan_sessions (now : Q) (st : store) (sids : list string)
    : list session_info * list string :=
  match sids with
  | [] => ([], [])
  | sid :: rest =>
      let '(result, stale) := scan_sessions now st rest in
      match resolves now st sid with
      | Some sess => (session_entry now sid sess :: result, stale)
      | None => (result, sid :: stale)
      end
  end.

(** The inner [fetch_idx]: the last [SESSION_LIST_RETURN_LIMIT] members of an
    index, newest first. *)
Definition fetch_idx (zs : gmap string (list (string * Q))) (i : string)
    : list string :=
  let total := zcard (_rkey "usess" i) zs in
  if total =? 0 then [] else
  let start := Z.max 0 (total - SESSION_LIST_RETURN_LIMIT cfg) in
  rev (zrange (_rkey "usess" i) start (-1) zs).

Definition list_user_sessions (now : Q) (email sub : option string)
    (st : store) : list session_info * store :=
  let idx_opt := _user_index_id email sub in
  if negb (str_truthy idx_opt) then ([], st) else
  let idx := default "" idx_opt in
  match _redis st with
  | Some db =>
      let sids := fetch_idx (r_zsets db) idx in
      let sids :=
        match sids with
        | [] =>
            if str_truthy sub && negb (String.eqb (default "" sub) idx) then
              match fetch_idx (r_zsets db) (default "" sub) with
              | [] => sids
              | legacy => legacy
              end
            else sids
        | _ => sids
        end in
      let '(result, stale) := scan_sessions now st sids in
      match stale with
      | [] => (result, st)
      | _ =>
          let zs1 := zrem (_rkey "usess" idx) stale (r_zsets db) in
          let zs2 := if zcard (_rkey "usess" idx) zs1 =? 0
                     then delete (_rkey "usess" idx) zs1 else zs1 in
          (result, set_redis (with_zsets (λ _, zs2) db) st)
      end
  | None =>
      let sids := py_slice_from (- SESSION_LIST_RETURN_LIMIT cfg)
                    (default [] (_user_sessions st !! idx)) in
      (fst (scan_sessions now st (rev sids)), st)
  end.

(** Drops [sid] from every per-user list that holds it; a list left empty is
    removed with its key. *)
Definition purge_member (sid : string) (us : gmap string (list string))
    : gmap string (list string) :=
  omap (λ lst : list string,
          if decide (sid ∈ lst) then
            match filter (λ x, x ≠ sid) lst with
            | [] => None
            | lst' => Some lst'
            end
          else Some lst) us.

(** The periodic sweep of the in-memory fallback. *)
Definition clean_sessions (now : Q) (st : store) : store :=
  match _redis st with
  | Some _ => st
  | None =>
      let expired :=
        map fst (List.filter (λ p, exp_passed now (s_exp p.2))
                             (map_to_list (_session_store st))) in
      foldl (λ s sid,
               set_user_sessions (purge_member sid (_user_sessions s))
                 (set_session_store (delete sid (_session_store s)) s))
            st expired
  end.

End SessionManager.

(** ** [StateManager] *)

Section StateManager.
Context (cfg : config).

Definition save_state (now : Q) (state redirect_uri code_verifier provider : string)
    (st : store) : store :=
  let exp_ts := py_int (now + inject_Z STATE_TTL) in
  let state_data :=
    {| sd_redirect_uri := redirect_uri; sd_exp := exp_ts; sd_provider := provider |} in
  match _redis st with
  | Some db =>
      set_redis
        (with_text (redis_setex now (_rkey cfg "codev" state) code_verifier STATE_TTL)
           (with_state (redis_setex now (_rkey cfg "state" state) state_data STATE_TTL) db))
        st
  | None =>
      set_states (<[state := state_data]> (_state_store st))
                 (<[state := code_verifier]> (_code_verifiers st)) st
  end.

(** Get and delete.  With Redis the four commands go through one pipeline. *)
Definition pop_state (now : Q) (state : string) (st : store)
    : (option state_data * option string) * store :=
  match _redis st with
  | Some db =>
      let meta := redis_get now (r_state db) (_rkey cfg "state" state) in
      let verifier := redis_get now (r_text db) (_rkey cfg "codev" state) in
      ((meta, verifier),
       set_redis
         (with_text (delete (_rkey cfg "codev" state))
            (with_state (delete (_rkey cfg "state" state)) db))
         st)
  | None =>
      ((_state_store st !! state, _code_verifiers st !! state),
       set_states (delete state (_state_store st))
                  (delete state (_code_verifiers st)) st)
  end.

(** [_state_store.pop(s, None); _code_verifiers.pop(s, None)] *)
Definition drop_state (st : store) (state : string) : store :=
  set_states (delete state (_state_store st))
             (delete state (_code_verifiers st)) st.

(** The periodic sweep of the in-memory fallback. *)
Definition clean_expired (now : Q) (st : store) : store :=
  match _redis st with
  | Some _ => st
  | None =>
      let obsolete :=
        map fst (List.filter (λ p, Qlt_bool (inject_Z (sd_exp p.2)) now)
                             (map_to_list (_state_store st))) in
      foldl drop_state st obsolete
  end.

End StateManager.

(** ** [SessionCleanup] *)

Record stats_t := {
  user_sessions_checked : nat;
  user_sessions_cleaned : nat;
  orphaned_sessions_found : nat;
  orphaned_sessions_removed : nat;
  empty_user_sessions_removed : nat;
  total_sessions_checked : nat;
  valid_sessions_found : nat
}.

Record SessionCleanup := {
  dry_run : bool;
  stats : stats_t
}.

(** [SessionCleanup(dry_run)] *)
Definition SessionCleanup_init (dry : bool) : SessionCleanup :=
  {| dry_run := dry;
     stats := {| user_sessions_checked := 0; user_sessions_cleaned := 0;
                 orphaned_sessions_found := 0; orphaned_sessions_removed := 0;
                 empty_user_sessions_removed := 0; total_sessions_checked := 0;
                 valid_sessions_found := 0 |} |}.

Section SessionCleanup.
Context (cfg : config).

(** [_redis.exists(_rkey('sess', session_id))] *)
Definition session_exists (now : Q) (db : redis) (session_id : string) : bool :=
  redis_exists now (r_sess db) (_rkey cfg "sess" session_id).

(** One round of the [for user_key in user_session_keys] loop. *)
Definition check_user_key (dry : bool) (now : Q) (acc : stats_t * redis)
    (user_key : string) : stats_t * redis :=
  let '(s, db) := acc in
  let session_ids := zrange user_key 0 (-1) (r_zsets db) in
  match session_ids with
  | [] =>
      ({| user_sessions_checked := S (user_sessions_checked s);
          user_sessions_cleaned := user_sessions_cleaned s;
          orphaned_sessions_found := orphaned_sessions_found s;
          orphaned_sessions_removed := orphaned_sessions_removed s;
          empty_user_sessions_removed := empty_user_sessions_removed s;
          total_sessions_checked := total_sessions_checked s;
          valid_sessions_found := valid_sessions_found s |}, db)
  | _ =>
      let '(valid_sessions, orphaned_sessions) :=
        partition (session_exists now db) session_ids in
      let has_orphans := negb (Nat.eqb (length orphaned_sessions) 0) in
      let none_valid := Nat.eqb (length valid_sessions) 0 in
      let db1 := if has_orphans && negb dry
                 then with_zsets (zrem user_key orphaned_sessions) db else db in
      let db2 := if none_valid && negb dry
                 then with_zsets (delete user_key) db1 else db1 in
      ({| user_sessions_checked := S (user_sessions_checked s);
          user_sessions_cleaned :=
            (if none_valid || has_orphans then 1 else 0) + user_sessions_cleaned s;
          orphaned_sessions_found :=
            length orphaned_sessions + orphaned_sessions_found s;
          orphaned_sessions_removed :=
            (if has_orphans && negb dry then length orphaned_sessions else 0)
            + orphaned_sessions_removed s;
          empty_user_sessions_removed :=
            (if none_valid && negb dry then 1 else 0) + empty_user_sessions_removed s;
          total_sessions_checked := length session_ids + total_sessions_checked s;
          valid_sessions_found := length valid_sessions + valid_sessions_found s |},
       db2)
  end%nat.

Definition cleanup_orphaned_user_sessions (self : SessionCleanup) (now : Q)
    (st : store) : SessionCleanup * store :=
  match _redis st with
  | None => (self, st)
  | Some db =>
      let user_session_pattern := _rkey cfg "usess" "*" in
      let user_session_keys := zset_keys user_session_pattern (r_zsets db) in
      let '(s, db') :=
        foldl (check_user_key (dry_run self) now) (stats self, db) user_session_keys in
      ({| dry_run := dry_run self; stats := s |}, set_redis db' st)
  end.

Definition cleanup_expired_sessions (self : SessionCleanup) (now : Q)
    (max_age_days : Z) (st : store) : SessionCleanup * store :=
  match _redis st with
  | None => (self, st)
  | Some db =>
      let cutoff_timestamp := (now - inject_Z (max_age_days * 24 * 3600))%Q in
      let session_pattern := _rkey cfg "sess" "*" in
      let session_keys := redis_keys now session_pattern (r_sess db) in
      let expired_sessions :=
        map (str_remove (_rkey cfg "sess" ""))
          (List.filter
             (λ session_key,
                match redis_get now (r_sess db) session_key with
                | Some session_json =>
                    Qlt_bool (default 0%Q (s_ts session_json)) cutoff_timestamp
                | None => false
                end)
             session_keys) in
      match expired_sessions with
      | [] => (self, st)
      | _ =>
          if dry_run self then (self, st)
          else
            let db1 :=
              foldl (λ d session_id,
                       with_sess (delete (_rkey cfg "sess" session_id)) d)
                    db expired_sessions in
            cleanup_orphaned_user_sessions self now (set_redis db1 st)
      end
  end.

End SessionCleanup.

(** ** Vocabulary of the statements *)

(** The members of the index of identity [idx], oldest first, whichever
    backend is in use. *)
Definition index_members (cfg : config) (st : store) (idx : string) : list string :=
  match _redis st with
  | Some db => map fst (zset_of (_rkey cfg "usess" idx) (r_zsets db))
  | None => default [] (_user_sessions st !! idx)
  end.

(** A sorted set as Redis keeps it: no member twice, scores ascending. *)
Fixpoint scores_ascending (z : list (string * Q)) : Prop :=
  match z with
  | [] => True
  | x :: z' => (∀ y, y ∈ z' → (x.2 <= y.2)%Q) ∧ scores_ascending z'
  end.

Definition zset_wf (z : list (string * Q)) : Prop :=
  NoDup (map fst z) ∧ scores_ascending z.

(** The same, as a check that runs. *)
Fixpoint scores_sorted (z : list (string * Q)) : bool :=
  match z with
  | [] => true
  | x :: z' => forallb (λ y : string * Q, Qle_bool x.2 y.2) z' && scores_sorted z'
  end.

Definition zset_ok (z : list (string * Q)) : bool :=
  bool_decide (NoDup (map fst z)) && scores_sorted z.

(** The index of [idx] is a well-formed sorted set (nothing to check for the
    in-memory list). *)
Definition index_ok (cfg : config) (st : store) (idx : string) : bool :=
  match _redis st with
  | Some db => zset_ok (zset_of (_rkey cfg "usess" idx) (r_zsets db))
  | None => true
  end.

(** The index of [idx] right after the new member went in and before the cap
    is enforced: [ZADD] files it under its score, the in-memory list takes it
    at the end. *)
Definition index_after_add (cfg : config) (st : store) (idx session_id : string)
    (ts : Q) : list string :=
  match _redis st with
  | Some db =>
      map fst (zset_of (_rkey cfg "usess" idx)
                 (zadd (_rkey cfg "usess" idx) session_id ts (r_zsets db)))
  | None => (index_members cfg st idx ++ [session_id])%list
  end.

(** An index member whose session record exists. *)
Definition live_member (cfg : config) (now : Q) (db : redis) (p : string * Q)
    : bool :=
  session_exists cfg now db p.1.

(** No session record that is alive at [now1] has run out by [now2]. *)
Definition no_expiry_between (now1 now2 : Q) (st : store) : bool :=
  match _redis st with
  | Some db =>
      forallb (λ e : string * (session * Q),
                 implb (Qle_bool now1 e.2.2) (Qle_bool now2 e.2.2))
              (map_to_list (r_sess db))
  | None => true
  end.

(** One call of [add_session_to_user], and a run of such calls. *)
Record registration := {
  reg_email : option string;
  reg_sub : option string;
  reg_session_id : string;
  reg_ts : Q
}.

Definition register_all (cfg : config) (calls : list registration) (st : store)
    : store :=
  foldl (λ s c, add_session_to_user cfg (reg_email c) (reg_sub c)
                  (reg_session_id c) (reg_ts c) s)
        st calls.

(** The candidate expiry [refresh_session_if_needed] computes: the end of a
    fresh sliding window, cut at the absolute deadline when one is set. *)
Definition slid_candidate (cfg : config) (now : Q) (data : session) : Z :=
  let c := py_int (now + inject_Z (SESSION_SLIDING_SECONDS cfg)) in
  if 0 <? SESSION_ABSOLUTE_SECONDS cfg then
    Z.min c (py_int (default now (s_ts data)
                     + inject_Z (SESSION_ABSOLUTE_SECONDS cfg)))
  else c.

(** A state token nobody saved (or that was already consumed). *)
Definition state_unknown (cfg : config) (st : store) (state : string) : bool :=
  match _redis st with
  | Some db =>
      negb (present (r_state db !! _rkey cfg "state" state))
      && negb (present (r_text db !! _rkey cfg "codev" state))
  | None =>
      negb (present (_state_store st !! state))
      && negb (present (_code_verifiers st !! state))
  end.

Definition deadline_passed {A} (now : Q) (m : gmap string (A * Q)) (key : string)
    : bool :=
  match m !! key with
  | Some (_, deadline) => Qlt_bool deadline now
  | None => false
  end.

(** A saved state token past its expiry: with Redis the TTL of both keys has
    run out, in memory the [exp] field of the record is in the past. *)
Definition state_expired (cfg : config) (now : Q) (st : store) (state : string)
    : bool :=
  match _redis st with
  | Some db =>
      deadline_passed now (r_state db) (_rkey cfg "state" state)
      && deadline_passed now (r_text db) (_rkey cfg "codev" state)
  | None =>
      match _state_store st !! state with
      | Some meta => Qlt_bool (inject_Z (sd_exp meta)) now
      | None => false
      end
  end.

(** *** Sample data *)

Definition sample_session (exp : Z) : session :=
  {| s_sub := Some "sub-1"; s_email := Some "user@example.com";
     s_name := Some "User"; s_picture := None; s_provider := Some "google";
     s_ts := Some 100%Q; s_exp := Some exp; s_ua := Some "ua";
     s_ip := Some "10.0.0.1"; s_is_new_user := Some false |}.

Definition user_email : option string := Some "user@example.com".
Definition user_sub : option string := Some "sub-1".

Definition config_with_window (w : Z) : config :=
  {| REDIS_PREFIX := "appauth"; MAX_USER_SESSIONS := 0;
     SESSION_LIST_RETURN_LIMIT := 20; SESSION_SLIDING_ENABLED := true;
     SESSION_SLIDING_SECONDS := w; SESSION_ABSOLUTE_SECONDS := 0 |}.

Definition config_with_cap (n : Z) : config :=
  {| REDIS_PREFIX := "appauth"; MAX_USER_SESSIONS := n;
     SESSION_LIST_RETURN_LIMIT := 20; SESSION_SLIDING_ENABLED := true;
     SESSION_SLIDING_SECONDS := 3600; SESSION_ABSOLUTE_SECONDS := 0 |}.

Definition config_with_list_limit (n : Z) : config :=
  {| REDIS_PREFIX := "appauth"; MAX_USER_SESSIONS := 0;
     SESSION_LIST_RETURN_LIMIT := n; SESSION_SLIDING_ENABLED := true;
     SESSION_SLIDING_SECONDS := 3600; SESSION_ABSOLUTE_SECONDS := 0 |}.

Definition three_logins : list registration :=
  [ {| reg_email := user_email; reg_sub := user_sub;
       reg_session_id := "sid1"; reg_ts := 0 |};
    {| reg_email := user_email; reg_sub := user_sub;
       reg_session_id := "sid2"; reg_ts := 10 |};
    {| reg_email := user_email; reg_sub := user_sub;
       reg_session_id := "sid3"; reg_ts := 20 |} ].

(** Two sessions registered and saved, at 0 and at 10. *)
Definition two_sessions_db : redis :=
  {| r_sess := {[ "appauth:sess:sid1" := (sample_session 3600, 3600%Q);
                  "appauth:sess:sid2" := (sample_session 3610, 3610%Q) ]};
     r_zsets := {[ "appauth:usess:user@example.com"
                   := [("sid1", 0%Q); ("sid2", 10%Q)] ]};
     r_state := ∅; r_text := ∅ |}.

Definition two_sessions_cap2 : store := redis_store two_sessions_db.

(** An index that has drifted: [sidOld] is still a member but its record is
    gone, [sidNew] is alive until 3700. *)
Definition drifted_db : redis :=
  {| r_sess := {[ "appauth:sess:sidNew" := (sample_session 3700, 3700%Q) ]};
     r_zsets := {[ "appauth:usess:user@example.com"
                   := [("sidOld", 1%Q); ("sidNew", 2%Q)] ]};
     r_state := ∅; r_text := ∅ |}.

(** * The callers: cookie domain, session routes, status line

    [server/auth/session_settings.py], [server/auth/session_routes.py] and
    the status line of the repair job.  A route takes what it reads from the
    request (the session cookie, query parameters, the JSON body, the host)
    as arguments and returns its answer with the store. *)

(** ** Cookie domain (session_settings.py) *)

(** [s.endswith(suffix)] *)
Definition endswith (s suffix : string) : bool :=
  (String.length suffix <=? String.length s)%nat
  && String.eqb (substring (String.length s - String.length suffix)
                           (String.length suffix) s) suffix.

(** [host_l == d.lower() or host_l.endswith('.' + d.lower())] *)
Definition host_matches (host_l d : string) : bool :=
  String.eqb host_l (lower d) || endswith host_l ("." ++ lower d).

(** [list.sort(key=len, reverse=True)]: stable, so domains of equal length
    keep their order. *)
Fixpoint insert_by_len (d : string) (l : list string) : list string :=
  match l with
  | [] => [d]
  | x :: l' =>
      if (String.length x <=? String.length d)%nat then d :: l
      else x :: insert_by_len d l'
  end.

Definition sort_by_len_desc (l : list string) : list string :=
  foldr insert_by_len [] l.

Section SessionSettings.
Context (SESSION_COOKIE_DOMAINS : list string).

Definition select_cookie_domain (host : option string) : string :=
  match SESSION_COOKIE_DOMAINS with
  | [] => ""
  | [d] => d
  | _ =>
      if negb (str_truthy host) then "" else
      let host_l := lower (default "" host) in
      let matches := List.filter (host_matches host_l) SESSION_COOKIE_DOMAINS in
      match sort_by_len_desc matches with
      | [] => ""
      | d :: _ => d
      end
  end.

End SessionSettings.

(** ** Session routes (session_routes.py) *)

(** The keyword arguments of [resp.set_cookie]. *)
Record cookie_kwargs := {
  ck_httponly : bool;
  ck_secure : bool;
  ck_samesite : string;
  ck_max_age : Z;
  ck_path : string;
  ck_domain : option string
}.

(** The body of an authenticated answer of [session_info]; [faces_all] is
    present only when it was asked for. *)
Record session_info_body {faces face : Type} := {
  sb_user : session;
  sb_recent_faces : faces;
  sb_faces_all : option face
}.
Arguments session_info_body : clear implicits.

Inductive session_info_response {faces face : Type} :=
| Unauthenticated
| Authenticated (body : session_info_body faces face)
                (set_cookie : option (string * cookie_kwargs)).
Arguments session_info_response : clear implicits.

(** The answers of [logout_session]: 401, 400, 404 and success. *)
Inductive logout_session_response :=
| LsNotAuthenticated
| LsMissingSessionId
| LsNotFound
| LsDeleted (deleted : string) (current : bool).

Module session_routes.
Section Routes.
Context (cfg : config).
Context (SESSION_COOKIE_SECURE : bool) (SESSION_COOKIE_DOMAINS : list string).
(** [api.upload]: both read the upload directory of the user. *)
Context {faces face : Type}
        (list_recent_faces_for_user : option string → faces)
        (list_all_faces_for_user : option string → face).

(** [GET /api/auth/sessions]; [None] is the 401 answer. *)
Definition sessions_list (now : Q) (sid : option string) (st : store)
    : option (string * list session_info) * store :=
  if negb (str_truthy sid) then (None, st) else
  match get_session cfg now (default "" sid) st with
  | None => (None, st)
  | Some current =>
      if negb (dict_truthy current) then (None, st) else
      if negb (str_truthy (s_sub current)) then (None, st) else
      let '(sessions, st') :=
        list_user_sessions cfg now (s_email current) (s_sub current) st in
      (Some (default "" sid, sessions), st')
  end.

(** [POST /api/auth/logout_session] with [target = body.get('session_id')]. *)
Definition logout_session (now : Q) (sid target : option string) (st : store)
    : logout_session_response * store :=
  if negb (str_truthy sid) then (LsNotAuthenticated, st) else
  match get_session cfg now (default "" sid) st with
  | None => (LsNotAuthenticated, st)
  | Some cur =>
      if negb (dict_truthy cur) then (LsNotAuthenticated, st) else
      let sub := s_sub cur in
      if negb (str_truthy target) then (LsMissingSessionId, st) else
      match get_session cfg now (default "" target) st with
      | None => (LsNotFound, st)
      | Some tdata =>
          if negb (dict_truthy tdata) || negb (bool_decide (s_sub tdata = sub))
          then (LsNotFound, st)
          else (LsDeleted (default "" target)
                  (String.eqb (default "" target) (default "" sid)),
                delete_session cfg (default "" target) st)
      end
  end.

(** [POST /api/auth/logout_all]; [Some n] is the answer [cleared: n], [None]
    the 401 answer. *)
Definition logout_all (now : Q) (sid : option string) (st : store)
    : option nat * store :=
  if negb (str_truthy sid) then (None, st) else
  match get_session cfg now (default "" sid) st with
  | None => (None, st)
  | Some cur =>
      if negb (dict_truthy cur) then (None, st) else
      let '(sessions, st1) :=
        list_user_sessions cfg now (s_email cur) (s_sub cur) st in
      (Some (length sessions),
       foldl (λ s item, delete_session cfg (si_session_id item) s) st1 sessions)
  end.

(** [POST /api/auth/logout] *)
Definition logout (sid : option string) (st : store) : store :=
  if str_truthy sid then delete_session cfg (default "" sid) st else st.

(** [GET /api/auth/session]; [faces_arg] and [include_arg] are the query
    parameters, [host] is [request.host].  [None] when
    [refresh_session_if_needed] never returns. *)
Definition session_info (now : Q) (sid faces_arg include_arg host : option string)
    (st : store) : option (session_info_response faces face * store) :=
  if negb (str_truthy sid) then Some (Unauthenticated, st) else
  match get_session cfg now (default "" sid) st with
  | None => Some (Unauthenticated, st)
  | Some data =>
      if negb (dict_truthy data) then Some (Unauthenticated, st) else
      if exp_passed now (s_exp data)
      then Some (Unauthenticated, delete_session cfg (default "" sid) st)
      else
        match refresh_session_if_needed cfg now (default "" sid) data st with
        | None => None
        | Some (new_exp, data, st') =>
            let user_ident :=
              if str_truthy (s_sub data) then s_sub data else s_email data in
            let recent_faces := list_recent_faces_for_user user_ident in
            let include_faces :=
              if str_truthy faces_arg then faces_arg else include_arg in
            let faces_all :=
              if bool_decide (include_faces = Some "all")
              then Some (list_all_faces_for_user user_ident) else None in
            let set_cookie :=
              match new_exp with
              | Some e =>
                  if e =? 0 then None else
                  let chosen_domain :=
                    select_cookie_domain SESSION_COOKIE_DOMAINS host in
                  Some (default "" sid,
                        {| ck_httponly := true;
                           ck_secure := SESSION_COOKIE_SECURE;
                           ck_samesite :=
                             if SESSION_COOKIE_SECURE then "None" else "Lax";
                           ck_max_age := Z.max 0 (e - py_int now);
                           ck_path := "/";
                           ck_domain :=
                             if str_truthy (Some chosen_domain)
                             then Some chosen_domain else None |})
              | None => None
              end in
            Some (Authenticated {| sb_user := data;
                                   sb_recent_faces := recent_faces;
                                   sb_faces_all := faces_all |} set_cookie,
                  st')
        end
  end.

End Routes.
End session_routes.

(** ** The status line of the repair job *)

(** [SessionCleanup.get_consistency_status] *)
Definition get_consistency_status (self : SessionCleanup) : string :=
  if Nat.eqb (orphaned_sessions_found (stats self)) 0 then "✅ 良好"
  else if Nat.leb (orphaned_sessions_found (stats self))
                  (orphaned_sessions_removed (stats self))
  then "✅ 已修复"
  else "⚠️ 需要修复".

(** * More vocabulary *)

(** ** Parts of the code above, named *)

(** The test of [clean_sessions] on the record stored under [sid]:
    [data.get('exp') and data['exp'] < now]. *)
Definition session_expired (now : Q) (st : store) (sid : string) : bool :=
  match _session_store st !! sid with
  | Some data => exp_passed now (s_exp data)
  | None => false
  end.

(** The test of [clean_expired] on the state stored under [state]:
    [v['exp'] < now]. *)
Definition state_obsolete (now : Q) (st : store) (state : string) : bool :=
  match _state_store st !! state with
  | Some meta => Qlt_bool (inject_Z (sd_exp meta)) now
  | None => false
  end.

(** One round of the [for sid in expired] loop of [clean_sessions]. *)
Definition sweep_session (s : store) (sid : string) : store :=
  set_user_sessions (purge_member sid (_user_sessions s))
    (set_session_store (delete sid (_session_store s)) s).

(** [str.strip()] on the list of characters. *)
Definition strip_chars (l : list ascii) : list ascii :=
  rev (lstrip_chars (rev (lstrip_chars l))).

(** [_redis.delete(_rkey('sess', sid))] *)
Definition drop_session_key (cfg : config) (db : redis) (sid : string) : redis :=
  with_sess (delete (_rkey cfg "sess" sid)) db.

(** The test of [cleanup_expired_sessions] on a record:
    [session_ts < cutoff_timestamp]. *)
Definition outdated (now : Q) (max_age_days : Z) (data : session) : bool :=
  Qlt_bool (default 0%Q (s_ts data)) (now - inject_Z (max_age_days * 24 * 3600))%Q.

(** ** Properties of a store *)

(** The keys a pass of [cleanup_orphaned_user_sessions] goes through:
    [_redis.keys(_rkey('usess', '*'))]. *)
Definition user_session_keys (cfg : config) (st : store) : list string :=
  match _redis st with
  | Some db => zset_keys (_rkey cfg "usess" "*") (r_zsets db)
  | None => []
  end.

(** [_redis.zrange(user_key, 0, -1)]: the members kept under a key. *)
Definition key_members (st : store) (user_key : string) : list string :=
  match _redis st with
  | Some db => map fst (zset_of user_key (r_zsets db))
  | None => []
  end.

(** The members of a key whose session record does not exist at [now]. *)
Definition orphans_at (cfg : config) (now : Q) (st : store) (user_key : string)
    : list string :=
  List.filter (λ sid, negb (present (get_session cfg now sid st)))
              (key_members st user_key).

(** Every live session key is [_rkey('sess', id)] of the id that
    [session_key.replace(prefix, "")] extracts from it. *)
Definition session_keys_canonical (cfg : config) (now : Q) (db : redis) : bool :=
  forallb (λ key, String.eqb (_rkey cfg "sess" (str_remove (_rkey cfg "sess" "") key)) key)
          (redis_keys now (_rkey cfg "sess" "*") (r_sess db)).

(** ** Counters of the repair job *)

(** How the counters of a cleaner relate after any number of rounds. *)
Definition counters_balanced (dry : bool) (s : stats_t) : Prop :=
  (total_sessions_checked s
   = valid_sessions_found s + orphaned_sessions_found s
   ∧ orphaned_sessions_removed s
     = (if dry then 0 else orphaned_sessions_found s)
   ∧ user_sessions_cleaned s ≤ user_sessions_checked s
   ∧ empty_user_sessions_removed s ≤ user_sessions_cleaned s)%nat.

(** What a pass reports about the state it found. *)
Definition findings (s : stats_t) : nat * nat * nat * nat * nat :=
  (user_sessions_checked s, user_sessions_cleaned s, orphaned_sessions_found s,
   total_sessions_checked s, valid_sessions_found s).

(** ** More sample data *)

(** One in-memory login, indexed under its subject and under its email. *)
Definition one_login_memory : store :=
  {| _redis := None;
     _session_store := {[ "sidA" := sample_session 3700 ]};
     _user_sessions := {[ "sub-1" := ["sidA"];
                          "user@example.com" := ["sidA"] ]};
     _state_store := ∅; _code_verifiers := ∅ |}.

(** Two in-memory logins; [sidA] runs out at 3700, [sidB] at 9000. *)
Definition stale_login_memory : store :=
  {| _redis := None;
     _session_store := {[ "sidA" := sample_session 3700;
                          "sidB" := sample_session 9000 ]};
     _user_sessions := {[ "sub-1" := ["sidA"; "sidB"] ]};
     _state_store := ∅; _code_verifiers := ∅ |}.

(** An index kept under the subject, as older versions wrote it; [sidOld] has
    no record any more. *)
Definition legacy_db : redis :=
  {| r_sess := {[ "appauth:sess:sidNew" := (sample_session 3700, 3700%Q) ]};
     r_zsets := {[ "appauth:usess:sub-1"
                   := [("sidOld", 1%Q); ("sidNew", 2%Q)] ]};
     r_state := ∅; r_text := ∅ |}.

(** One login from long ago whose record has not run out, and a recent one. *)
Definition aged_db : redis :=
  {| r_sess :=
       {[ "appauth:sess:sidOld" := (sample_session 9000000, 9000000%Q);
          "appauth:sess:sidNew" :=
            ({| s_sub := Some "sub-1"; s_email := Some "user@example.com";
                s_name := Some "User"; s_picture := None;
                s_provider := Some "google"; s_ts := Some 5000000%Q;
                s_exp := Some 9000000; s_ua := Some "ua";
                s_ip := Some "10.0.0.1"; s_is_new_user := Some false |},
             9000000%Q) ]};
     r_zsets := {[ "appauth:usess:user@example.com"
                   := [("sidOld", 100%Q); ("sidNew", 5000000%Q)] ]};
     r_state := ∅; r_text := ∅ |}.

Definition config_with_absolute (a : Z) : config :=
  {| REDIS_PREFIX := "appauth"; MAX_USER_SESSIONS := 0;
     SESSION_LIST_RETURN_LIMIT := 20; SESSION_SLIDING_ENABLED := true;
     SESSION_SLIDING_SECONDS := 3600; SESSION_ABSOLUTE_SECONDS := a |}.

(** A user without uploads. *)
Definition no_faces (user_ident : option string) : list string := [].

(** * Proofs *)

(** ** The store and the Redis model *)

Lemma set_redis_same (st : store) (db : redis) :
  _redis st = Some db → set_redis db st = st.
Proof. destruct st; simpl; intros ->; reflexivity. Qed.

Lemma r_zsets_with_zsets f (db : redis) :
  r_zsets (with_zsets f db) = f (r_zsets db).
Proof. reflexivity. Qed.

Lemma redis_get_setex_alive {A} (t0 t : Q) (key : string) (v : A) (ttl : Z)
    (m : gmap string (A * Q)) :
  (t <= t0 + inject_Z ttl)%Q →
  redis_get t (redis_setex t0 key v ttl m) key = Some v.
Proof.
  intros Ht. unfold redis_get, redis_setex. rewrite lookup_insert_eq.
  apply Qle_bool_iff in Ht. by rewrite Ht.
Qed.

Lemma redis_get_setex_expired {A} (t0 t : Q) (key : string) (v : A) (ttl : Z)
    (m : gmap string (A * Q)) :
  (t0 + inject_Z ttl < t)%Q →
  redis_get t (redis_setex t0 key v ttl m) key = None.
Proof.
  intros Ht. unfold redis_get, redis_setex. rewrite lookup_insert_eq.
  destruct (Qle_bool t (t0 + inject_Z ttl)) eqn:E; [|done].
  apply Qle_bool_iff in E. lra.
Qed.

Lemma redis_get_delete {A} (t : Q) (key : string) (m : gmap string (A * Q)) :
  redis_get t (delete key m) key = None.
Proof. unfold redis_get. by rewrite lookup_delete_eq. Qed.

Lemma redis_exists_later {A} (now1 now2 : Q) (m : gmap string (A * Q))
    (key : string) :
  forallb (λ e : string * (A * Q),
             implb (Qle_bool now1 e.2.2) (Qle_bool now2 e.2.2))
          (map_to_list m) = true →
  redis_exists now1 m key = true → redis_exists now2 m key = true.
Proof.
  intros Hall. unfold redis_exists, redis_get.
  destruct (m !! key) as [[v d]|] eqn:E; [|done].
  rewrite forallb_forall in Hall.
  specialize (Hall (key, (v, d))). simpl in Hall.
  destruct (Qle_bool now1 d); [|done]. intros _.
  assert (Qle_bool now2 d = true) as ->; [|done].
  apply Hall. by apply list_elem_of_In, elem_of_map_to_list.
Qed.

(** ** Lists *)

Lemma partition_as_filters {A} (f : A → bool) (l : list A) :
  partition f l = (List.filter f l, List.filter (λ x, negb (f x)) l).
Proof.
  induction l as [|x l IH]; [done|]. simpl. rewrite IH. by destruct (f x).
Qed.

Lemma filter_as_bool_filter {A} (P : A → Prop) `{!∀ x, Decision (P x)}
    (f : A → bool) (l : list A) :
  (∀ x, x ∈ l → (P x ↔ f x = true)) → filter P l = List.filter f l.
Proof.
  induction l as [|x l IH]; intros Hl; [done|].
  rewrite filter_cons. simpl.
  rewrite IH by (intros y Hy; apply Hl; by right).
  destruct (decide (P x)) as [HP|HP], (f x) eqn:Hf; try done.
  - apply Hl in HP; [congruence|by left].
  - exfalso. apply HP, Hl; [by left|done].
Qed.

Lemma bool_filter_all {A} (f : A → bool) (l : list A) :
  List.filter (λ x, negb (f x)) l = [] → List.filter f l = l.
Proof.
  induction l as [|x l IH]; [done|]. simpl.
  destruct (f x); simpl; [|done]. intros H. by rewrite IH.
Qed.

Lemma bool_filter_none {A} (f : A → bool) (l : list A) :
  (∀ x, In x l → f x = true) → List.filter (λ x, negb (f x)) l = [].
Proof.
  induction l as [|x l IH]; intros H; [done|]. simpl.
  rewrite (H x) by (by left). simpl. apply IH. intros y Hy. apply H. by right.
Qed.

Lemma bool_filter_map {A B} (g : A → B) (f : B → bool) (l : list A) :
  List.filter f (map g l) = map g (List.filter (λ x, f (g x)) l).
Proof.
  induction l as [|x l IH]; [done|]. simpl.
  destruct (f (g x)); simpl; by rewrite IH.
Qed.

Lemma bool_filter_idem {A} (f : A → bool) (l : list A) :
  List.filter f (List.filter f l) = List.filter f l.
Proof.
  induction l as [|x l IH]; [done|]. simpl.
  destruct (f x) eqn:E; simpl; by rewrite ?E, IH.
Qed.

Lemma filter_members {B} (P : string → Prop) `{!∀ x, Decision (P x)}
    (z : list (string * B)) :
  map fst (filter (λ p : string * B, P p.1) z) = filter P (map fst z).
Proof.
  induction z as [|p z IH]; [done|]. cbn [map]. rewrite !filter_cons.
  case_decide; simpl; by rewrite IH.
Qed.

Lemma filter_all {A} (P : A → Prop) `{!∀ x, Decision (P x)} (l : list A) :
  (∀ x, x ∈ l → P x) → filter P l = l.
Proof.
  induction l as [|x l IH]; intros Hl; [done|].
  rewrite filter_cons, decide_True by (apply Hl; by left).
  rewrite IH; [done|]. intros y Hy. apply Hl. by right.
Qed.

(** ** Sorted sets *)

Lemma elem_of_zinsert (x y : string * Q) (z : list (string * Q)) :
  y ∈ zinsert x z ↔ y = x ∨ y ∈ z.
Proof.
  induction z as [|a z IH]; simpl.
  - rewrite list_elem_of_singleton. split; [by left|].
    intros [->|H]; [done|]. by apply elem_of_nil in H.
  - destruct (zless x a).
    + rewrite elem_of_cons. tauto.
    + rewrite !elem_of_cons, IH. tauto.
Qed.

Lemma length_zinsert (x : string * Q) (z : list (string * Q)) :
  length (zinsert x z) = S (length z).
Proof.
  induction z as [|a z IH]; simpl; [done|].
  destruct (zless x a); simpl; by rewrite ?IH.
Qed.

Lemma zinsert_perm (x : string * Q) (z : list (string * Q)) :
  zinsert x z ≡ₚ x :: z.
Proof.
  induction z as [|y z IH]; simpl; [done|].
  destruct (zless x y); [done|]. rewrite IH. apply Permutation_swap.
Qed.

Lemma zless_false_le (x y : string * Q) : zless x y = false → (y.2 <= x.2)%Q.
Proof.
  unfold zless, Qlt_bool. intros H. apply orb_false_iff in H as [H _].
  apply negb_false_iff in H. by apply Qle_bool_iff.
Qed.

Lemma zless_true_le (x y : string * Q) : zless x y = true → (x.2 <= y.2)%Q.
Proof.
  unfold zless, Qlt_bool. intros H. apply orb_true_iff in H as [H|H].
  - apply negb_true_iff in H. destruct (Qlt_le_dec x.2 y.2) as [Hl|Hl].
    + by apply Qlt_le_weak.
    + apply Qle_bool_iff in Hl. congruence.
  - apply andb_true_iff in H as [H _]. apply Qeq_bool_iff in H.
    rewrite H. apply Qle_refl.
Qed.

Lemma zinsert_ascending (x : string * Q) (z : list (string * Q)) :
  scores_ascending z → scores_ascending (zinsert x z).
Proof.
  induction z as [|y z IH]; simpl.
  - intros _. split; [|done]. intros y Hy. by apply elem_of_nil in Hy.
  - intros [Hy Hz]. destruct (zless x y) eqn:E; simpl.
    + apply zless_true_le in E. split; [|done].
      intros w [->|Hw]%elem_of_cons; [done|].
      eapply Qle_trans; [exact E|by apply Hy].
    + apply zless_false_le in E. split; [|by apply IH].
      intros w [->|Hw]%elem_of_zinsert; [done|by apply Hy].
Qed.

Lemma ascending_head_min (x : string * Q) (z : list (string * Q)) :
  scores_ascending (x :: z) → ∀ y, y ∈ x :: z → (x.2 <= y.2)%Q.
Proof.
  intros [H _] y [->|Hy]%elem_of_cons; [apply Qle_refl|by apply H].
Qed.

Lemma scores_sorted_ascending (z : list (string * Q)) :
  scores_sorted z = true → scores_ascending z.
Proof.
  induction z as [|x z IH]; [done|]. simpl.
  intros [Hx Hz]%andb_true_iff. split; [|by apply IH].
  intros y Hy. rewrite forallb_forall in Hx.
  apply Qle_bool_iff, Hx, list_elem_of_In, Hy.
Qed.

Lemma zset_ok_wf (z : list (string * Q)) : zset_ok z = true → zset_wf z.
Proof.
  unfold zset_ok, zset_wf. intros [Hn Hs]%andb_true_iff. split.
  - by apply bool_decide_eq_true in Hn.
  - by apply scores_sorted_ascending.
Qed.

Lemma filter_absent_member (member : string) (z : list (string * Q)) :
  member ∉ map fst z → filter (λ p : string * Q, p.1 ≠ member) z = z.
Proof.
  intros H. induction z as [|p z IH]; [done|].
  rewrite filter_cons. simpl in H. apply not_elem_of_cons in H as [Hp Hz].
  rewrite decide_True by done. by rewrite IH.
Qed.

Lemma zrem_head (x : string * Q) (z : list (string * Q)) :
  NoDup (map fst (x :: z)) →
  filter (λ p : string * Q, p.1 ∉ [x.1]) (x :: z) = z.
Proof.
  intros [Hx Hz]%NoDup_cons. rewrite filter_cons.
  rewrite decide_False by (intros H; apply H; by left).
  induction z as [|p z IH]; [done|].
  simpl in Hx, Hz. apply not_elem_of_cons in Hx as [Hne Hx].
  apply NoDup_cons in Hz as [_ Hz].
  rewrite filter_cons. destruct (decide (p.1 ∉ [x.1])) as [_|Hd]; [by rewrite IH|].
  exfalso. apply Hd. intros Hp%list_elem_of_singleton. by apply Hne.
Qed.

Lemma zrange_all (key : string) (zs : gmap string (list (string * Q))) :
  zrange key 0 (-1) zs = map fst (zset_of key zs).
Proof.
  unfold zrange. simpl.
  set (l := map fst (zset_of key zs)).
  destruct (Z.ltb_spec (Z.of_nat (length l) + -1) 0) as [H|H].
  - destruct l; [done|]. simpl in H. lia.
  - rewrite drop_0. apply firstn_all2. lia.
Qed.

Lemma zrange_prefix (key : string) (over : Z)
    (zs : gmap string (list (string * Q))) :
  0 < over →
  zrange key 0 (over - 1) zs = take (Z.to_nat over) (map fst (zset_of key zs)).
Proof.
  intros Hover. unfold zrange. set (l := map fst (zset_of key zs)).
  replace (0 <? 0) with false by done.
  destruct (Z.ltb_spec (over - 1) 0) as [?|_]; [lia|].
  rewrite drop_0.
  destruct (Z.ltb_spec (Z.min (over - 1) (Z.of_nat (length l) - 1)) 0) as [H|H].
  - assert (length l = 0%nat) as Hl by lia.
    apply length_zero_iff_nil in Hl. rewrite Hl. by rewrite take_nil.
  - destruct (Z.le_ge_cases (over - 1) (Z.of_nat (length l) - 1)).
    + rewrite Z.min_l by lia. f_equal. lia.
    + rewrite Z.min_r by lia.
      rewrite !firstn_all2; [done|lia|lia].
Qed.

Lemma zrem_zset_of (key : string) (members : list string)
    (zs : gmap string (list (string * Q))) (key' : string) :
  zset_of key' (zrem key members zs)
  = if decide (key = key') then filter (λ p, p.1 ∉ members) (zset_of key zs)
    else zset_of key' zs.
Proof.
  unfold zrem, zset_of.
  destruct (zs !! key) as [z|] eqn:E; simpl.
  - destruct (filter _ z) as [|p z'] eqn:F; case_decide as Hk; subst.
    + by rewrite lookup_delete_eq.
    + by rewrite lookup_delete_ne.
    + by rewrite lookup_insert_eq.
    + by rewrite lookup_insert_ne.
  - case_decide; subst; by rewrite ?E.
Qed.

Lemma delete_zset_of (key : string) (zs : gmap string (list (string * Q)))
    (key' : string) :
  zset_of key' (delete key zs) = if decide (key = key') then [] else zset_of key' zs.
Proof.
  unfold zset_of. case_decide; subst.
  - by rewrite lookup_delete_eq.
  - by rewrite lookup_delete_ne.
Qed.

Lemma zadd_keeps_members (key member m : string) (score : Q)
    (zs : gmap string (list (string * Q))) (key' : string) :
  m ∈ map fst (zset_of key' zs) →
  m ∈ map fst (zset_of key' (zadd key member score zs)).
Proof.
  unfold zadd, zset_of. intros Hm.
  destruct (decide (key = key')) as [->|Hne].
  - rewrite lookup_insert_eq. simpl.
    apply list_elem_of_fmap in Hm as [[m' s'] [-> Hin]].
    apply list_elem_of_fmap.
    destruct (decide (m' = member)) as [->|Hm'].
    + exists (member, score). split; [done|]. apply elem_of_zinsert. by left.
    + exists (m', s'). split; [done|]. apply elem_of_zinsert. right.
      apply list_elem_of_filter. by split.
  - by rewrite lookup_insert_ne.
Qed.

(** *** Glob patterns *)

Lemma glob_class_eq (p : string) (c : ascii) (matched : bool) :
  glob_class p c matched
  = match p with
    | EmptyString => (matched, EmptyString)
    | String a p1 =>
        match p1 with
        | EmptyString =>
            if Ascii.eqb a "]" then (matched, p1)
            else (matched || Ascii.eqb a c, EmptyString)
        | String b p2 =>
            if Ascii.eqb a "\" then glob_class p2 c (matched || Ascii.eqb b c)
            else if Ascii.eqb a "]" then (matched, p1)
            else
              match p2 with
              | String e p3 =>
                  if Ascii.eqb b "-" then
                    let lo := Z.min (char_code a) (char_code e) in
                    let hi := Z.max (char_code a) (char_code e) in
                    glob_class p3 c
                      (matched || ((lo <=? char_code c) && (char_code c <=? hi)))
                  else glob_class p1 c (matched || Ascii.eqb a c)
              | EmptyString => glob_class p1 c (matched || Ascii.eqb a c)
              end
        end
    end.
Proof. by destruct p. Qed.

Lemma glob_class_rest (n : nat) (p : string) (c : ascii) (m : bool) :
  (String.length p ≤ n)%nat →
  (String.length (glob_class p c m).2 ≤ String.length p)%nat.
Proof.
  revert p m. induction n as [|n IH]; intros p m Hn.
  { destruct p; [done|simpl in Hn; lia]. }
  rewrite glob_class_eq.
  destruct p as [|a [|b p2]]; [done| |].
  - destruct (Ascii.eqb a "]"); simpl; lia.
  - simpl in Hn.
    destruct (Ascii.eqb a "\").
    { etransitivity; [apply IH; lia|simpl; lia]. }
    destruct (Ascii.eqb a "]"); [simpl; lia|].
    destruct p2 as [|e p3].
    + etransitivity; [apply IH; simpl; lia|simpl; lia].
    + destruct (Ascii.eqb b "-").
      * etransitivity; [apply IH; simpl in *; lia|simpl; lia].
      * etransitivity; [apply IH; simpl in *; lia|simpl; lia].
Qed.

(** The bound on the pattern positions is never reached. *)
Lemma glob_loop_fuel (n m : nat) (p s : string) :
  (String.length p < n)%nat → (String.length p < m)%nat →
  glob_loop n p s = glob_loop m p s.
Proof.
  revert m p s. induction n as [|n IH]; intros m p s Hn Hm; [lia|].
  destruct m as [|m]; [lia|]. cbn [glob_loop].
  destruct p as [|a p1]; [done|]. simpl in Hn, Hm.
  destruct (Ascii.eqb a "*").
  { destruct p1 as [|b p2]; [done|].
    induction s as [|c s IHs].
    - by rewrite (IH m) by (simpl in *; lia).
    - rewrite (IH m) by (simpl in *; lia). by rewrite IHs. }
  destruct s as [|c s1]; [done|].
  destruct (Ascii.eqb a "?"); [apply IH; lia|].
  destruct (Ascii.eqb a "[").
  { set (negated := match p1 with String x _ => Ascii.eqb x "^" | _ => false end).
    set (p2 := if negated then match p1 with String _ q => q | _ => p1 end else p1).
    assert (String.length p2 ≤ String.length p1)%nat as Hp2.
    { unfold p2. destruct negated; [|done]. destruct p1; simpl; lia. }
    pose proof (glob_class_rest (String.length p2) p2 c false (le_n _)) as Hrest.
    destruct (glob_class p2 c false) as [matched rest]. simpl in Hrest.
    destruct (xorb matched negated); [|done]. apply IH; lia. }
  destruct p1 as [|b p2].
  - f_equal. apply IH; simpl; lia.
  - destruct (Ascii.eqb a "\"); f_equal; apply IH; simpl in *; lia.
Qed.

(** A pattern made of a literal text and a final [*] takes the keys that
    start with the text. *)
Lemma glob_loop_literal (p s : string) (n : nat) :
  glob_free p = true → (String.length p < n)%nat →
  glob_loop n (p ++ "*") s = String.prefix p s.
Proof.
  revert s n. induction p as [|a p IH]; intros s n Hfree Hn.
  { destruct n; [simpl in Hn; lia|]. by destruct s. }
  destruct n as [|n]; [simpl in Hn; lia|].
  change (String a p ++ "*") with (String a (p ++ "*")).
  unfold glob_free in Hfree. cbn [list_ascii_of_string forallb] in Hfree.
  apply andb_true_iff in Hfree as [Ha Hfree].
  apply negb_true_iff in Ha.
  repeat (apply orb_false_iff in Ha as [Ha ?]).
  cbn [glob_loop]. rewrite Ha.
  destruct s as [|c s]; [done|].
  rewrite H1, H0.
  assert (Ascii.eqb a c && glob_loop n (p ++ "*") s = String.prefix (String a p) (String c s))
    as Hstep.
  { rewrite (IH s n Hfree) by (simpl in Hn; lia). simpl.
    destruct (ascii_dec a c) as [->|Hne].
    - by rewrite Ascii.eqb_refl.
    - apply Ascii.eqb_neq in Hne. by rewrite Hne. }
  destruct (p ++ "*") as [|b q] eqn:E; [done|].
  by rewrite H.
Qed.

Lemma keys_match_literal (p key : string) :
  glob_free p = true → keys_match (p ++ "*") key = String.prefix p key.
Proof.
  intros Hfree. unfold keys_match, stringmatchlen.
  destruct p as [|a p].
  { by destruct key. }
  change (String a p ++ "*") with (String a (p ++ "*")).
  assert (String.eqb (String a (p ++ "*")) "*" = false) as ->.
  { simpl. destruct (Ascii.eqb a "*") eqn:E; [|done].
    unfold glob_free in Hfree. simpl in Hfree. by rewrite E in Hfree. }
  destruct key as [|c key]; [done|].
  change (String a (p ++ "*")) with (String a p ++ "*").
  rewrite orb_false_l. apply glob_loop_literal; [done|].
  clear. induction p; simpl; try lia.
  change (String.length (String a p ++ "*")) with (S (String.length (p ++ "*"))).
  simpl in IHp. lia.
Qed.

Lemma zset_keys_spec (pattern key : string)
    (zs : gmap string (list (string * Q))) :
  In key (zset_keys pattern zs)
  ↔ keys_match pattern key = true ∧ is_Some (zs !! key).
Proof.
  unfold zset_keys. rewrite filter_In, in_map_iff. split.
  - intros [[[k z] [<- Hin]] Hp]. split; [done|].
    apply list_elem_of_In, elem_of_map_to_list in Hin. by exists z.
  - intros [Hp [z Hz]]. split; [|done].
    exists (key, z). split; [done|].
    by apply list_elem_of_In, elem_of_map_to_list.
Qed.

Lemma filter_ascending (P : string * Q → Prop) `{!∀ p, Decision (P p)}
    (z : list (string * Q)) :
  scores_ascending z → scores_ascending (filter P z).
Proof.
  induction z as [|x z IH]; [done|]. simpl. intros [Hx Hz].
  rewrite filter_cons. case_decide; [|by apply IH].
  split; [|by apply IH].
  intros y [_ Hy]%list_elem_of_filter. by apply Hx.
Qed.

Lemma filter_keeps_wf (P : string * Q → Prop) `{!∀ p, Decision (P p)}
    (z : list (string * Q)) :
  zset_wf z → zset_wf (filter P z).
Proof.
  intros [Hnd Hasc]. split; [|by apply filter_ascending].
  eapply sublist_NoDup; [exact Hnd|].
  apply (fmap_sublist fst), sublist_filter.
Qed.

(** [ZADD] and [ZREM] keep a sorted set well formed. *)
Lemma zadd_keeps_wf (key member : string) (score : Q)
    (zs : gmap string (list (string * Q))) :
  zset_wf (zset_of key zs) →
  zset_wf (zset_of key (zadd key member score zs)).
Proof.
  intros Hwf. unfold zadd. unfold zset_of at 1. rewrite lookup_insert_eq. simpl.
  pose proof (filter_keeps_wf (λ p : string * Q, p.1 ≠ member) _ Hwf)
    as [Hnd Hasc].
  split; [|by apply zinsert_ascending].
  rewrite (zinsert_perm (member, score)). simpl. apply NoDup_cons. split; [|done].
  intros [[m s] [-> [Hne _]%list_elem_of_filter]]%list_elem_of_fmap. done.
Qed.

Lemma zrem_keeps_wf (key : string) (members : list string)
    (zs : gmap string (list (string * Q))) :
  zset_wf (zset_of key zs) → zset_wf (zset_of key (zrem key members zs)).
Proof.
  intros Hwf. rewrite zrem_zset_of, decide_True by done.
  by apply filter_keeps_wf.
Qed.

(** ** Sliding refresh *)

(** C1, evaluated where it breaks.  With the default settings (window 3600 s,
    no absolute ceiling), at [now = 1000] a session expiring at 3700 has 2700 s
    left, more than half the window; the docstring of
    [refresh_session_if_needed] and the claim both say that nothing is written
    then.  The code skips only if in addition the candidate is no later than
    the current expiry; the candidate is 4600, so it rewrites the record and
    returns 4600. *)
Theorem refresh_rewrites_above_half_window (st : store) :
  let data := sample_session 3700 in
  let now := 1000%Q in
  (inject_Z (SESSION_SLIDING_SECONDS default_config) / 2 < inject_Z 3700 - now)%Q
  ∧ ∃ st',
      refresh_session_if_needed default_config now "sidA" data st
      = Some (Some 4600, set_exp data 4600, st')
      ∧ get_session default_config now "sidA" st' = Some (set_exp data 4600).
Proof.
  split; [vm_compute; reflexivity|].
  unfold refresh_session_if_needed, save_session, get_session.
  destruct (_redis st) as [db|] eqn:Hr.
  - eexists. split; [reflexivity|]. simpl.
    apply redis_get_setex_alive. vm_compute. discriminate.
  - eexists. split; [reflexivity|]. simpl. rewrite Hr.
    apply lookup_insert_eq.
Qed.

(** The other half of the sliding rule: with sliding on and at most half the
    window left on an unexpired session, the expiry becomes the candidate, the
    record is saved again and the candidate is returned. *)
Lemma refresh_slides_below_half_window cfg (now : Q) (session_id : string)
    (data : session) (st : store) (e : Z) :
  SESSION_SLIDING_ENABLED cfg = true →
  s_exp data = Some e → e ≠ 0 → (now < inject_Z e)%Q →
  (inject_Z e - now <= inject_Z (SESSION_SLIDING_SECONDS cfg) / 2)%Q →
  let c := slid_candidate cfg now data in
  refresh_session_if_needed cfg now session_id data st
  = (λ st', (Some c, set_exp data c, st'))
    <$> save_session cfg now session_id (set_exp data c) c st.
Proof.
  intros Hon He Hz Hlt Hrem. unfold refresh_session_if_needed, slid_candidate.
  rewrite Hon, He. simpl. destruct (Z.eqb_spec e 0) as [|_]; [done|].
  destruct (Qle_bool (inject_Z e) now) eqn:E1.
  { apply Qle_bool_iff in E1. lra. }
  assert (Qlt_bool (inject_Z (SESSION_SLIDING_SECONDS cfg) / 2) (inject_Z e - now) = false) as ->.
  { unfold Qlt_bool. apply Qle_bool_iff in Hrem. by rewrite Hrem. }
  cbn [andb].
  set (c := if 0 <? SESSION_ABSOLUTE_SECONDS cfg then _ else _).
  set (c' := if 0 <? SESSION_ABSOLUTE_SECONDS cfg then _ else _).
  assert (c = c') as ->.
  { unfold c, c'. destruct (0 <? SESSION_ABSOLUTE_SECONDS cfg); [|done].
    destruct (Z.ltb_spec
                (py_int (default now (s_ts data)
                         + inject_Z (SESSION_ABSOLUTE_SECONDS cfg)))
                (py_int (now + inject_Z (SESSION_SLIDING_SECONDS cfg)))); lia. }
  by destruct (save_session cfg now session_id (set_exp data c') c' st).
Qed.

(** C9, amended: a session whose stored expiry is nonzero and at or before the
    current time is never extended: [refresh_session_if_needed] returns [None]
    and leaves the dict and the store as they are.  (A stored expiry of 0 is
    read as "no expiry recorded" and replaced by [now + SESSION_TTL_DEFAULT].) *)
Lemma refresh_expired_untouched cfg (now : Q) (session_id : string)
    (data : session) (st : store) (e : Z) :
  s_exp data = Some e → e ≠ 0 → (inject_Z e <= now)%Q →
  refresh_session_if_needed cfg now session_id data st = Some (None, data, st).
Proof.
  intros He Hz Hle. unfold refresh_session_if_needed.
  destruct (SESSION_SLIDING_ENABLED cfg); [|done]. simpl.
  rewrite He. destruct (Z.eqb_spec e 0) as [|_]; [done|].
  apply Qle_bool_iff in Hle. by rewrite Hle.
Qed.

(** C9, amended, at a session that ran out at 4600 and is looked at at 5000. *)
Lemma refresh_expired_untouched_witness :
  refresh_session_if_needed default_config 5000 "sidA" (sample_session 4600)
    (redis_store redis_empty)
  = Some (None, sample_session 4600, redis_store redis_empty).
Proof.
  apply (refresh_expired_untouched default_config 5000 "sidA"
           (sample_session 4600) (redis_store redis_empty) 4600).
  - reflexivity.
  - lia.
  - vm_compute. discriminate.
Defined.

(** C9 as stated fails for a stored expiry of 0: with a sliding window of
    7200 s the record is written with expiry 8200, although 0 is before the
    current time 1000. *)
Lemma refresh_zero_expiry_extended :
  let data := sample_session 0 in
  let cfg := config_with_window 7200 in
  s_exp data = Some 0 ∧ (inject_Z 0 <= 1000)%Q
  ∧ get_session cfg 1000 "sidA" memory_store = None
  ∧ (λ r, (r.1.1, get_session cfg 1000 "sidA" r.2))
    <$> refresh_session_if_needed cfg 1000 "sidA" data memory_store
    = Some (Some 8200, Some (set_exp data 8200)).
Proof. vm_compute. repeat split; try reflexivity. discriminate. Qed.

(** ** Lifetime of a saved session *)

(** C6, amended: with the Redis backend, a session saved at [t0] with expiry
    [exp = int(t0) + T] and [T >= 60] is returned at [t0 + T/2] and is absent
    at every time strictly after [t0 + T]. *)
Theorem session_lifetime_redis cfg (db : redis) (st : store) (t0 : Q)
    (exp T : Z) (session_id : string) (data : session) :
  _redis st = Some db → exp ≠ 0 → T = exp - py_int t0 → 60 <= T →
  ∃ st1,
    save_session cfg t0 session_id data exp st = Some st1
    ∧ get_session cfg (t0 + inject_Z T / 2) session_id st1 = Some data
    ∧ ∀ t : Q, (t0 + inject_Z T < t)%Q → get_session cfg t session_id st1 = None.
Proof.
  intros Hr Hexp HT H60. unfold save_session, get_session. rewrite Hr.
  eexists. split; [reflexivity|]. simpl.
  destruct (Z.eqb_spec exp 0) as [|_]; [done|].
  rewrite <- HT, Z.max_r by lia.
  assert (0 <= inject_Z T)%Q as HT0.
  { change 0%Q with (inject_Z 0). rewrite <- Zle_Qle. lia. }
  split.
  - apply redis_get_setex_alive.
    apply Qplus_le_r. apply Qle_shift_div_r; [reflexivity|]. lra.
  - intros t Ht. by apply redis_get_setex_expired.
Qed.

(** C6, amended, for a one-hour session created at 1000. *)
Lemma session_lifetime_redis_witness :
  get_session default_config (1000 + inject_Z 3600 / 2) "sidA"
  <$> save_session default_config 1000 "sidA" (sample_session 4600) 4600
        (redis_store redis_empty)
  = Some (Some (sample_session 4600)).
Proof.
  destruct (session_lifetime_redis default_config redis_empty
              (redis_store redis_empty) 1000 4600 3600 "sidA"
              (sample_session 4600)) as (st1 & Hsave & Hget & _).
  - reflexivity.
  - lia.
  - reflexivity.
  - lia.
  - rewrite Hsave. simpl. by rewrite Hget.
Defined.

(** C6 as stated fails below the 60 s floor on the TTL: a session created at
    1000 with [T = 10] is still returned at 1011. *)
Lemma short_ttl_outlives_expiry :
  (1000 + inject_Z 10 < 1011)%Q
  ∧ get_session default_config 1011 "sidA"
    <$> save_session default_config 1000 "sidA" (sample_session 1010) 1010
          (redis_store redis_empty)
    = Some (Some (sample_session 1010)).
Proof. vm_compute. split; reflexivity. Qed.

(** The in-memory [get_session] does not look at the expiry at all: until a
    sweep or a delete removes it, the record is returned at any time. *)
Lemma memory_session_outlives_expiry :
  (1000 + inject_Z 3600 < 9999)%Q
  ∧ get_session default_config 9999 "sidA"
    <$> save_session default_config 1000 "sidA" (sample_session 4600) 4600
          memory_store
    = Some (Some (sample_session 4600)).
Proof. vm_compute. split; reflexivity. Qed.

(** With the in-memory fallback and a cap configured, saving a session that
    carries a subject never returns: [save_session] still holds [_lock] when
    [_enforce_max_sessions_memory] asks for it. *)
Lemma save_session_blocks_under_cap cfg (now : Q) (session_id : string)
    (data : session) (exp : Z) (st : store) :
  _redis st = None → 0 < MAX_USER_SESSIONS cfg →
  str_truthy (s_sub data) = true →
  save_session cfg now session_id data exp st = None.
Proof.
  intros Hr Hcap Hsub. unfold save_session. rewrite Hr, Hsub.
  by destruct (Z.ltb_spec 0 (MAX_USER_SESSIONS cfg)); [|lia].
Qed.

(** In every other case it returns. *)
Lemma save_session_returns cfg (now : Q) (session_id : string)
    (data : session) (exp : Z) (st : store) :
  is_Some (_redis st) ∨ MAX_USER_SESSIONS cfg <= 0
  ∨ str_truthy (s_sub data) = false →
  is_Some (save_session cfg now session_id data exp st).
Proof.
  unfold save_session. intros H.
  destruct (_redis st) as [db|]; [done|].
  destruct (str_truthy (s_sub data)); [|done].
  destruct (Z.ltb_spec 0 (MAX_USER_SESSIONS cfg)); [|done].
  destruct H as [[? [=]]|[?|[=]]]. lia.
Qed.

(** ** OAuth state tokens *)

(** C4: a state token saved with [save_state] is redeemed by the first
    [pop_state] (inside the TTL window when Redis keeps it), which returns the
    stored metadata and verifier; any second [pop_state] on the token, at any
    time, returns [None] for both. *)
Theorem pop_state_single_use cfg (st : store) (t0 t1 t2 : Q)
    (state redirect_uri code_verifier provider : string) :
  (t1 <= t0 + inject_Z STATE_TTL)%Q →
  let st1 := save_state cfg t0 state redirect_uri code_verifier provider st in
  let first := pop_state cfg t1 state st1 in
  first.1 = (Some {| sd_redirect_uri := redirect_uri;
                     sd_exp := py_int (t0 + inject_Z STATE_TTL);
                     sd_provider := provider |},
             Some code_verifier)
  ∧ (pop_state cfg t2 state first.2).1 = (None, None).
Proof.
  intros Ht. unfold save_state, pop_state.
  destruct (_redis st) as [db|] eqn:Hr; simpl.
  - rewrite !(redis_get_setex_alive _ _ _ _ _ _ Ht).
    rewrite !redis_get_delete. split; reflexivity.
  - repeat (rewrite Hr; simpl). by rewrite !lookup_insert_eq, !lookup_delete_eq.
Qed.

(** C4 at a token saved at 1000, popped at 1200 and again at 1300. *)
Lemma pop_state_single_use_witness :
  (pop_state default_config 1300 "tok"
     (pop_state default_config 1200 "tok"
        (save_state default_config 1000 "tok" "https://app/cb" "verif" "google"
           (redis_store redis_empty))).2).1 = (None, None).
Proof.
  refine (proj2 (pop_state_single_use default_config (redis_store redis_empty)
                   1000 1200 1300 "tok" "https://app/cb" "verif" "google" _)).
  vm_compute. discriminate.
Defined.

Lemma deadline_passed_get {A} (now t : Q) (m : gmap string (A * Q))
    (key : string) :
  deadline_passed now m key = true → (now <= t)%Q → redis_get t m key = None.
Proof.
  unfold deadline_passed, redis_get, Qlt_bool.
  destruct (m !! key) as [[v d]|]; [|done].
  intros H Ht. apply negb_true_iff in H.
  destruct (Qle_bool t d) eqn:E; [|done].
  apply Qle_bool_iff in E.
  assert (Qle_bool now d = true) by (apply Qle_bool_iff; lra). congruence.
Qed.

Lemma not_present_None {A} (o : option A) : negb (present o) = true → o = None.
Proof. by destruct o. Qed.

Lemma drop_states_absent (keys : list string) (st : store) (x : string) :
  _state_store st !! x = None →
  _state_store (foldl drop_state st keys) !! x = None.
Proof.
  revert st. induction keys as [|k keys IH]; intros st H; [done|].
  cbn [foldl]. apply IH. simpl. apply lookup_delete_None. by right.
Qed.

Lemma drop_verifiers_absent (keys : list string) (st : store) (x : string) :
  _code_verifiers st !! x = None →
  _code_verifiers (foldl drop_state st keys) !! x = None.
Proof.
  revert st. induction keys as [|k keys IH]; intros st H; [done|].
  cbn [foldl]. apply IH. simpl. apply lookup_delete_None. by right.
Qed.

Lemma drop_states_member (keys : list string) (st : store) (x : string) :
  In x keys →
  _state_store (foldl drop_state st keys) !! x = None
  ∧ _code_verifiers (foldl drop_state st keys) !! x = None.
Proof.
  revert st. induction keys as [|k keys IH]; intros st Hin; [done|].
  cbn [foldl]. destruct Hin as [->|Hin]; [|by apply IH].
  split; [apply drop_states_absent|apply drop_verifiers_absent];
    simpl; apply lookup_delete_eq.
Qed.

Lemma drop_states_redis (keys : list string) (st : store) :
  _redis (foldl drop_state st keys) = _redis st.
Proof.
  revert st. induction keys as [|k keys IH]; intros st; [done|].
  cbn [foldl]. by rewrite IH.
Qed.

(** C5, amended: once [clean_expired] has run on a store in which the token
    has expired (under Redis it does nothing, the TTL has already taken the
    keys), [pop_state] at any later time returns [(None, None)] for that
    token, which is what it returns for a token that was never saved. *)
Theorem expired_state_like_unknown cfg (now t : Q) (st st' : store)
    (state state' : string) :
  state_expired cfg now st state = true →
  (now <= t)%Q →
  state_unknown cfg st' state' = true →
  (pop_state cfg t state (clean_expired now st)).1 = (None, None)
  ∧ (pop_state cfg t state' st').1 = (None, None).
Proof.
  intros Hexp Ht Hunk. split.
  - unfold state_expired in Hexp. unfold clean_expired, pop_state.
    destruct (_redis st) as [db|] eqn:Hr.
    + rewrite Hr. simpl. apply andb_true_iff in Hexp as [H1 H2].
      by rewrite (deadline_passed_get _ _ _ _ H1 Ht),
                 (deadline_passed_get _ _ _ _ H2 Ht).
    + destruct (_state_store st !! state) as [meta|] eqn:Hm; [|done].
      rewrite drop_states_redis, Hr. simpl.
      match goal with |- context [foldl drop_state st ?ks] =>
        destruct (drop_states_member ks st state) as [-> ->]; [|done] end.
      apply in_map_iff. exists (state, meta). split; [done|].
      apply filter_In. split; [|done].
      apply list_elem_of_In, elem_of_map_to_list, Hm.
  - unfold state_unknown in Hunk. unfold pop_state.
    destruct (_redis st') as [db|]; simpl;
      apply andb_true_iff in Hunk as [H1 H2];
      apply not_present_None in H1, H2.
    + unfold redis_get. by rewrite H1, H2.
    + by rewrite H1, H2.
Qed.

(** C5, amended, for a token saved in memory at 1000, swept at 2000 and
    popped at 2100. *)
Lemma expired_state_like_unknown_witness :
  (pop_state default_config 2100 "tok"
     (clean_expired 2000
        (save_state default_config 1000 "tok" "https://app/cb" "verif" "google"
           memory_store))).1 = (None, None).
Proof.
  refine (proj1 (expired_state_like_unknown default_config 2000 2100
                   (save_state default_config 1000 "tok" "https://app/cb"
                      "verif" "google" memory_store)
                   memory_store "tok" "other" _ _ _)).
  - vm_compute. reflexivity.
  - vm_compute. discriminate.
  - vm_compute. reflexivity.
Defined.

(** C5 as stated fails in the in-memory fallback when no sweep has run: the
    expired token still yields its metadata and verifier, an unknown token
    yields nothing. *)
Lemma expired_state_unswept_memory :
  let st := save_state default_config 1000 "tok" "https://app/cb" "verif"
              "google" memory_store in
  state_expired default_config 2000 st "tok" = true
  ∧ state_unknown default_config st "other" = true
  ∧ (pop_state default_config 2000 "tok" st).1
    = (Some {| sd_redirect_uri := "https://app/cb"; sd_exp := 1600;
               sd_provider := "google" |}, Some "verif")
  ∧ (pop_state default_config 2000 "other" st).1 = (None, None).
Proof. vm_compute. repeat split; reflexivity. Qed.

(** ** Registration in the per-user index *)

Lemma str_truthy_Some (s : string) : s ≠ "" → str_truthy (Some s) = true.
Proof.
  intros H. simpl. apply negb_true_iff. by apply String.eqb_neq.
Qed.

Lemma enforce_unlimited cfg (idx : string) (st : store) :
  MAX_USER_SESSIONS cfg <= 0 → _enforce_max_sessions_memory cfg idx st = st.
Proof.
  intros H. unfold _enforce_max_sessions_memory.
  destruct (Z.ltb_spec 0 (MAX_USER_SESSIONS cfg)); [lia|done].
Qed.

Lemma add_session_unlimited cfg (c : registration) (st : store) :
  MAX_USER_SESSIONS cfg = 0 →
  let st' := add_session_to_user cfg (reg_email c) (reg_sub c)
               (reg_session_id c) (reg_ts c) st in
  _session_store st' = _session_store st
  ∧ r_sess <$> _redis st' = r_sess <$> _redis st
  ∧ ∀ idx m, m ∈ index_members cfg st idx → m ∈ index_members cfg st' idx.
Proof.
  intros Hmax. unfold add_session_to_user.
  destruct (negb (str_truthy _)); [done|].
  destruct (_redis st) as [db|] eqn:Hr.
  - rewrite Hmax. simpl. rewrite ?Hr. repeat split.
    intros idx m. unfold index_members. rewrite ?Hr. simpl.
    apply zadd_keeps_members.
  - rewrite enforce_unlimited by lia. simpl. rewrite ?Hr. repeat split.
    intros idx m. unfold index_members. simpl. rewrite ?Hr.
    set (i := default "" _).
    destruct (decide (i = idx)) as [->|Hne].
    + rewrite lookup_insert_eq. simpl. intros H. apply elem_of_app. by left.
    + by rewrite lookup_insert_ne.
Qed.

(** C10: with [MAX_USER_SESSIONS = 0] no run of registrations evicts anything:
    the session records of both backends are untouched and every member of
    every index is still a member afterwards. *)
Theorem no_eviction_when_unlimited cfg (calls : list registration) (st : store) :
  MAX_USER_SESSIONS cfg = 0 →
  let st' := register_all cfg calls st in
  _session_store st' = _session_store st
  ∧ r_sess <$> _redis st' = r_sess <$> _redis st
  ∧ ∀ idx m, m ∈ index_members cfg st idx → m ∈ index_members cfg st' idx.
Proof.
  intros Hmax. revert st. unfold register_all.
  induction calls as [|c calls IH]; intros st; [done|].
  cbn [foldl].
  destruct (add_session_unlimited cfg c st Hmax) as (H1 & H2 & H3).
  destruct (IH (add_session_to_user cfg (reg_email c) (reg_sub c)
                  (reg_session_id c) (reg_ts c) st)) as (I1 & I2 & I3).
  simpl in *. repeat split.
  - by rewrite I1.
  - by rewrite I2.
  - intros idx m Hm. by apply I3, H3.
Qed.

(** C10 at three logins of one identity into a store that already holds an
    index. *)
Lemma no_eviction_when_unlimited_witness :
  "sidOld" ∈ index_members default_config
               (register_all default_config three_logins (redis_store drifted_db))
               "user@example.com".
Proof.
  refine (proj2 (proj2 (no_eviction_when_unlimited default_config three_logins
                          (redis_store drifted_db) _))
            "user@example.com" "sidOld" _).
  - reflexivity.
  - apply (bool_decide_unpack _). vm_compute. exact I.
Defined.

Lemma enforce_loop_one_over cfg (e : string) (rest : list string)
    (ss : gmap string session) :
  0 < MAX_USER_SESSIONS cfg →
  Z.of_nat (length rest) = MAX_USER_SESSIONS cfg →
  enforce_loop cfg (e :: rest) ss = (rest, delete e ss).
Proof.
  intros Hpos Hlen. cbn [enforce_loop].
  destruct (Z.ltb_spec (MAX_USER_SESSIONS cfg) (Z.of_nat (length (e :: rest))))
    as [_|H]; [|simpl in H; lia].
  destruct rest as [|r rest]; [simpl in Hlen; lia|].
  cbn [enforce_loop].
  destruct (Z.ltb_spec (MAX_USER_SESSIONS cfg) (Z.of_nat (length (r :: rest))));
    [lia|done].
Qed.

(** C3, amended: with a cap [N > 0], registering a new session id for an
    identity whose index holds [N] members leaves [N] members: the index with
    the new member, less its first member in index order, and that member's
    session record is gone.  Under Redis the index is ordered by timestamp
    score, so the evicted member has the smallest score; in the in-memory
    fallback the order is that of registration. *)
Theorem cap_evicts_first_member cfg (st : store) (email sub : option string)
    (session_id idx : string) (ts : Q) :
  0 < MAX_USER_SESSIONS cfg →
  _user_index_id email sub = Some idx → idx ≠ "" →
  Z.of_nat (length (index_members cfg st idx)) = MAX_USER_SESSIONS cfg →
  session_id ∉ index_members cfg st idx →
  index_ok cfg st idx = true →
  let st' := add_session_to_user cfg email sub session_id ts st in
  ∃ evicted,
    index_after_add cfg st idx session_id ts = evicted :: index_members cfg st' idx
    ∧ Z.of_nat (length (index_members cfg st' idx)) = MAX_USER_SESSIONS cfg
    ∧ (∀ now, get_session cfg now evicted st' = None)
    ∧ (∀ db, _redis st = Some db →
         ∃ score,
           let z1 := zset_of (_rkey cfg "usess" idx)
                       (zadd (_rkey cfg "usess" idx) session_id ts (r_zsets db)) in
           (evicted, score) ∈ z1 ∧ ∀ p, p ∈ z1 → (score <= p.2)%Q).
Proof.
  intros Hpos Hidx Hne Hlen Hnew Hok.
  unfold add_session_to_user. rewrite Hidx, (str_truthy_Some idx Hne).
  cbn [negb]. change (default "" (Some idx)) with idx.
  unfold index_after_add, index_members in *.
  destruct (_redis st) as [db|] eqn:Hr.
  - (* Redis *)
    unfold index_ok in Hok. rewrite Hr in Hok.
    apply zset_ok_wf in Hok as [Hnd Hasc].
    set (key := _rkey cfg "usess" idx) in *.
    set (z := zset_of key (r_zsets db)) in *.
    assert (zset_of key (zadd key session_id ts (r_zsets db))
            = zinsert (session_id, ts) z) as Hz1.
    { unfold zadd, zset_of at 1. rewrite lookup_insert_eq. simpl.
      fold z. by rewrite filter_absent_member. }
    cbv zeta. rewrite !r_zsets_with_zsets. unfold zcard. rewrite !Hz1.
    rewrite length_zinsert.
    destruct (Z.ltb_spec 0 (MAX_USER_SESSIONS cfg)) as [_|?]; [|lia].
    rewrite length_map in Hlen.
    replace (Z.of_nat (S (length z)) - MAX_USER_SESSIONS cfg) with 1 by lia.
    replace (0 <? 1) with true by done.
    rewrite (zrange_prefix key 1) by lia. rewrite ?Hz1.
    assert (NoDup (map fst (zinsert (session_id, ts) z))) as Hnd1.
    { rewrite (zinsert_perm (session_id, ts) z). simpl. by apply NoDup_cons. }
    pose proof (zinsert_ascending (session_id, ts) z Hasc) as Hasc1.
    pose proof (length_zinsert (session_id, ts) z) as Hlen1.
    destruct (zinsert (session_id, ts) z) as [|[ev sc] rest] eqn:Hins;
      [discriminate|].
    change (take (Z.to_nat 1) (map fst ((ev, sc) :: rest))) with [ev].
    cbn [foldl]. unfold delete_session at 1. cbn [_redis set_redis].
    cbn [with_zsets with_sess r_zsets r_sess r_state r_text].
    assert (zset_of key (zrem key [ev]
              (zadd key session_id ts (r_zsets db))) = rest) as Hrest.
    { rewrite zrem_zset_of, decide_True by done. rewrite Hz1.
      apply (zrem_head (ev, sc) rest Hnd1). }
    exists ev. simpl in Hlen1. repeat split.
    + unfold get_session, index_members. simpl. by rewrite Hrest.
    + simpl. rewrite Hrest, length_map. lia.
    + intros now. unfold get_session. simpl. apply redis_get_delete.
    + intros db0 [= <-]. exists sc. simpl. rewrite Hz1. split; [by left|].
      intros p Hp. by apply (ascending_head_min (ev, sc) rest).
  - (* in-memory fallback *)
    remember (default [] (_user_sessions st !! idx)) as l eqn:Heql.
    unfold _enforce_max_sessions_memory.
    destruct (Z.ltb_spec 0 (MAX_USER_SESSIONS cfg)) as [_|?]; [|lia].
    cbn [_user_sessions set_user_sessions]. rewrite lookup_insert_eq.
    destruct (l ++ [session_id])%list as [|ev rest] eqn:Hl.
    { apply app_eq_nil in Hl as [_ ?]. discriminate. }
    assert (Z.of_nat (length rest) = MAX_USER_SESSIONS cfg) as Hrest.
    { apply (f_equal length) in Hl. rewrite length_app in Hl. simpl in Hl. lia. }
    cbn [_session_store set_user_sessions].
    rewrite (enforce_loop_one_over cfg ev rest _ Hpos Hrest).
    exists ev. simpl. rewrite Hr. repeat split.
    + by rewrite lookup_insert_eq.
    + by rewrite lookup_insert_eq.
    + intros now. unfold get_session. simpl. rewrite Hr. apply lookup_delete_eq.
    + intros db0 [=].
Qed.

(** C3, amended, at the third login under a cap of two. *)
Lemma cap_evicts_first_member_witness :
  ∃ evicted,
    index_after_add (config_with_cap 2) two_sessions_cap2 "user@example.com"
      "sid3" 20
    = evicted :: ["sid2"; "sid3"]
    ∧ ∀ now, get_session (config_with_cap 2) now evicted
               (add_session_to_user (config_with_cap 2) user_email user_sub
                  "sid3" 20 two_sessions_cap2) = None.
Proof.
  destruct (cap_evicts_first_member (config_with_cap 2) two_sessions_cap2
              user_email user_sub "sid3" "user@example.com" 20)
    as (evicted & Hhead & _ & Hgone & _).
  - reflexivity.
  - vm_compute. reflexivity.
  - discriminate.
  - vm_compute. reflexivity.
  - apply (bool_decide_unpack _). vm_compute. exact I.
  - vm_compute. reflexivity.
  - exists evicted. split; [exact Hhead | exact Hgone].
Defined.

(** C3 as stated fails in the in-memory fallback, which never looks at [ts]:
    under a cap of one, registering [sidA] with timestamp 100 and then [sidB]
    with timestamp 50 evicts [sidA], the newer of the two; Redis evicts
    [sidB]. *)
Lemma memory_cap_ignores_timestamps :
  let cfg := config_with_cap 1 in
  let idx := "user@example.com" in
  let two st :=
    add_session_to_user cfg user_email user_sub "sidB" 50
      (add_session_to_user cfg user_email user_sub "sidA" 100 st) in
  (50 < 100)%Q
  ∧ index_members cfg (two memory_store) idx = ["sidB"]
  ∧ index_members cfg (two (redis_store redis_empty)) idx = ["sidA"].
Proof. vm_compute. repeat split; reflexivity. Qed.

(** The cap scenario of the specification: cap 2, logins at 0, 10 and 20. *)
Example cap_scenario :
  let cfg := config_with_cap 2 in
  let login sid ts st :=
    save_session cfg ts sid (sample_session (3600 + py_int ts)) (3600 + py_int ts)
      (add_session_to_user cfg user_email user_sub sid ts st) in
  (login "sid1" 0%Q (redis_store redis_empty) ≫= login "sid2" 10%Q)
  = Some two_sessions_cap2
  ∧ (λ st, (index_members cfg st "user@example.com",
            get_session cfg 30 "sid1" st,
            orphaned_sessions_found
              (stats (cleanup_orphaned_user_sessions cfg
                        (SessionCleanup_init true) 30 st).1)))
    <$> login "sid3" 20%Q two_sessions_cap2
    = Some (["sid2"; "sid3"], None, 0%nat).
Proof. vm_compute. split; reflexivity. Qed.

(** ** Listing the sessions of an identity *)

Lemma scan_sessions_stale cfg now st sids :
  (scan_sessions cfg now st sids).2
  = filter (λ sid, resolves cfg now st sid = None) sids.
Proof.
  induction sids as [|sid sids IH]; [done|]. cbn [scan_sessions].
  destruct (scan_sessions cfg now st sids) as [result stale]. simpl in IH.
  rewrite filter_cons. case_decide as Hd.
  - rewrite Hd. simpl. by rewrite IH.
  - by destruct (resolves cfg now st sid).
Qed.

Lemma scan_sessions_result cfg now st sids :
  map si_session_id (scan_sessions cfg now st sids).1
  = filter (λ sid, is_Some (resolves cfg now st sid)) sids.
Proof.
  induction sids as [|sid sids IH]; [done|]. cbn [scan_sessions].
  destruct (scan_sessions cfg now st sids) as [result stale]. simpl in IH.
  rewrite filter_cons. case_decide as Hd.
  - destruct Hd as [sess ->]. simpl. by rewrite IH.
  - destruct (resolves cfg now st sid); [|done]. exfalso. by apply Hd.
Qed.

Lemma resolves_same_sessions cfg now st st' sid :
  r_sess <$> _redis st' = r_sess <$> _redis st →
  _session_store st' = _session_store st →
  resolves cfg now st' sid = resolves cfg now st sid.
Proof.
  unfold resolves, get_session. intros Hr Hs.
  destruct (_redis st') as [db'|], (_redis st) as [db|]; simpl in Hr;
    try discriminate.
  - injection Hr as ->. done.
  - by rewrite Hs.
Qed.

(** C2, amended: with the Redis backend and a non-empty primary index, let
    [window] be its most recent [SESSION_LIST_RETURN_LIMIT] members.
    [list_user_sessions] returns exactly the members of [window] that resolve,
    each of which still resolves afterwards; it removes from the index exactly
    the members of [window] that do not resolve; and an index left empty has
    its key deleted.  Members outside [window] stay, stale or not. *)
Theorem list_user_sessions_heals_window cfg (st : store) (db : redis) (now : Q)
    (email sub : option string) (idx : string) :
  _redis st = Some db →
  _user_index_id email sub = Some idx → idx ≠ "" →
  fetch_idx cfg (r_zsets db) idx ≠ [] →
  let window := fetch_idx cfg (r_zsets db) idx in
  let r := list_user_sessions cfg now email sub st in
  map si_session_id r.1
  = filter (λ sid, is_Some (resolves cfg now st sid)) window
  ∧ Forall (λ e, is_Some (resolves cfg now r.2 (si_session_id e))) r.1
  ∧ index_members cfg r.2 idx
    = filter (λ sid, ¬ (sid ∈ window ∧ resolves cfg now st sid = None))
             (index_members cfg st idx)
  ∧ (index_members cfg r.2 idx = [] →
     ∃ db', _redis r.2 = Some db'
            ∧ r_zsets db' !! _rkey cfg "usess" idx = None).
Proof.
  intros Hr Hidx Hne Hwin. cbv zeta.
  unfold list_user_sessions. rewrite Hidx, (str_truthy_Some idx Hne), Hr.
  cbn [negb]. change (default "" (Some idx)) with idx.
  set (window := fetch_idx cfg (r_zsets db) idx) in *.
  assert ((match window with
           | [] => if str_truthy sub && negb (String.eqb (default "" sub) idx)
                   then match fetch_idx cfg (r_zsets db) (default "" sub) with
                        | [] => window
                        | s :: l => s :: l
                        end
                   else window
           | _ :: _ => window
           end) = window) as -> by (by destruct window).
  pose proof (scan_sessions_stale cfg now st window) as Hstale.
  pose proof (scan_sessions_result cfg now st window) as Hres.
  destruct (scan_sessions cfg now st window) as [result stale].
  simpl in Hstale, Hres.
  set (key := _rkey cfg "usess" idx).
  assert (∀ z : list (string * Q),
            map fst (filter (λ p : string * Q, p.1 ∉ stale) z)
            = filter (λ sid, ¬ (sid ∈ window ∧ resolves cfg now st sid = None))
                (map fst z)) as Hfilter.
  { intros z. trans (filter (λ sid, sid ∉ stale) (map fst z));
      [exact (filter_members (λ sid, sid ∉ stale) z)|].
    apply list_filter_iff. intros sid. rewrite Hstale.
    by rewrite list_elem_of_filter, (comm and). }
  assert (Forall (λ e, is_Some (resolves cfg now st (si_session_id e))) result)
    as Hall.
  { apply Forall_forall. intros e He.
    assert (si_session_id e ∈ map si_session_id result) as Hin
      by (by apply list_elem_of_fmap_2).
    rewrite Hres in Hin. by apply list_elem_of_filter in Hin as [? _]. }
  destruct stale as [|s0 stale'] eqn:Hst.
  - (* nothing stale: the store is returned as it is *)
    cbn [fst snd]. repeat split; [done|done| |].
    + unfold index_members. rewrite Hr. fold key.
      rewrite <- Hfilter. f_equal. symmetry. apply filter_all.
      intros p _. apply not_elem_of_nil.
    + unfold index_members. rewrite Hr. fold key. intros Hnil.
      exfalso. apply Hwin. unfold window, fetch_idx, zcard. fold key.
      apply map_eq_nil in Hnil. by rewrite Hnil.
  - rewrite <- Hst in *. clear Hst.
    cbn [fst snd]. unfold index_members. cbn [_redis set_redis].
    rewrite r_zsets_with_zsets. fold key.
    assert (zset_of key
              (if zcard key (zrem key stale (r_zsets db)) =? 0
               then delete key (zrem key stale (r_zsets db))
               else zrem key stale (r_zsets db))
            = filter (λ p : string * Q, p.1 ∉ stale) (zset_of key (r_zsets db)))
      as Hz.
    { unfold zcard.
      pose proof (zrem_zset_of key stale (r_zsets db) key) as Hrem.
      rewrite decide_True in Hrem by done.
      destruct (Z.eqb_spec (Z.of_nat (length (zset_of key (zrem key stale (r_zsets db))))) 0)
        as [H0|H0].
      - rewrite delete_zset_of, decide_True by done.
        assert (length (zset_of key (zrem key stale (r_zsets db))) = 0%nat)
          as Hl by lia.
        apply length_zero_iff_nil in Hl. by rewrite <- Hrem, Hl.
      - done. }
    repeat split.
    + done.
    + eapply Forall_impl; [exact Hall|]. intros e He. simpl in He.
      by rewrite (resolves_same_sessions cfg now st); [|simpl; rewrite Hr|].
    + rewrite Hr, Hz. apply Hfilter.
    + rewrite Hz. intros Hnil%map_eq_nil. eexists. split; [done|].
      rewrite r_zsets_with_zsets.
      pose proof (zrem_zset_of key stale (r_zsets db) key) as Hrem.
      rewrite decide_True, Hnil in Hrem by done.
      unfold zcard. rewrite Hrem. simpl. apply lookup_delete_eq.
Qed.

(** C2, amended, at an index with one stale and one live member. *)
Lemma list_user_sessions_heals_window_witness :
  index_members default_config
    (list_user_sessions default_config 200 user_email user_sub
       (redis_store drifted_db)).2 "user@example.com"
  = filter (λ sid, ¬ (sid ∈ fetch_idx default_config (r_zsets drifted_db)
                                "user@example.com"
                      ∧ resolves default_config 200 (redis_store drifted_db) sid
                        = None))
           (index_members default_config (redis_store drifted_db)
              "user@example.com").
Proof.
  refine (proj1 (proj2 (proj2
    (list_user_sessions_heals_window default_config (redis_store drifted_db)
       drifted_db 200 user_email user_sub "user@example.com" _ _ _ _)))).
  - reflexivity.
  - vm_compute. reflexivity.
  - discriminate.
  - vm_compute. discriminate.
Defined.

(** C2 as stated fails for stale members older than the listing window: with
    a limit of one, only [sidNew] is examined and the stale [sidOld] is still
    in the index after the call. *)
Lemma stale_member_outside_window_survives :
  let cfg := config_with_list_limit 1 in
  let st := redis_store drifted_db in
  let r := list_user_sessions cfg 200 user_email user_sub st in
  index_members cfg st "user@example.com" = ["sidOld"; "sidNew"]
  ∧ resolves cfg 200 st "sidOld" = None
  ∧ map si_session_id r.1 = ["sidNew"]
  ∧ index_members cfg r.2 "user@example.com" = ["sidOld"; "sidNew"].
Proof. vm_compute. repeat split; reflexivity. Qed.

(** Listing and the repair job on the drifted index. *)
Example list_heals_drift :
  let r := list_user_sessions default_config 200 user_email user_sub
             (redis_store drifted_db) in
  map si_session_id r.1 = ["sidNew"]
  ∧ index_members default_config r.2 "user@example.com" = ["sidNew"].
Proof. vm_compute. split; reflexivity. Qed.

(** ** The repair job *)

Lemma check_user_key_dry cfg now s db k :
  (check_user_key cfg true now (s, db) k).2 = db.
Proof.
  unfold check_user_key.
  destruct (zrange k 0 (-1) (r_zsets db)) as [|sid sids]; [done|].
  destruct (partition _ _) as [valid orphaned]. simpl.
  by rewrite !andb_false_r.
Qed.

Lemma foldl_check_user_key_dry cfg now keys s db :
  (foldl (check_user_key cfg true now) (s, db) keys).2 = db.
Proof.
  revert s db. induction keys as [|k keys IH]; intros s db; [done|].
  cbn [foldl]. pose proof (check_user_key_dry cfg now s db k) as E.
  destruct (check_user_key cfg true now (s, db) k) as [s1 db1].
  rewrite IH. exact E.
Qed.

(** C8: in report-only mode neither the orphan pass nor the bounded-age
    sweep changes the store. *)
Theorem report_only_no_mutation cfg (s : stats_t) (now : Q) (max_age_days : Z)
    (st : store) :
  let self := {| dry_run := true; stats := s |} in
  (cleanup_orphaned_user_sessions cfg self now st).2 = st
  ∧ (cleanup_expired_sessions cfg self now max_age_days st).2 = st.
Proof.
  simpl. split.
  - unfold cleanup_orphaned_user_sessions.
    destruct (_redis st) as [db|] eqn:Hr; [|done]. simpl.
    pose proof (foldl_check_user_key_dry cfg now
                  (zset_keys (_rkey cfg "usess" "*") (r_zsets db)) s db) as H.
    destruct (foldl _ _ _) as [s' db']. simpl in *. subst db'.
    by apply set_redis_same.
  - unfold cleanup_expired_sessions.
    destruct (_redis st) as [db|] eqn:Hr; [|done]. simpl.
    by destruct (map _ _).
Qed.

Lemma check_user_key_sess cfg dry now s db k :
  r_sess (check_user_key cfg dry now (s, db) k).2 = r_sess db.
Proof.
  unfold check_user_key.
  destruct (zrange _ _ _ _); [done|].
  destruct (partition _ _) as [v o]. simpl.
  by destruct (_ && _), (_ && _).
Qed.

Lemma foldl_check_sess cfg dry now keys s db :
  r_sess (foldl (check_user_key cfg dry now) (s, db) keys).2 = r_sess db.
Proof.
  revert s db. induction keys as [|k keys IH]; intros s db; [done|].
  cbn [foldl]. pose proof (check_user_key_sess cfg dry now s db k) as E.
  destruct (check_user_key cfg dry now (s, db) k) as [s1 db1].
  by rewrite IH.
Qed.

Lemma live_member_sess cfg now db db' p :
  r_sess db' = r_sess db → live_member cfg now db' p = live_member cfg now db p.
Proof. unfold live_member, session_exists. by intros ->. Qed.

Lemma check_user_key_zset cfg now s db k key' :
  zset_of key' (r_zsets (check_user_key cfg false now (s, db) k).2)
  = if decide (k = key')
    then List.filter (live_member cfg now db) (zset_of k (r_zsets db))
    else zset_of key' (r_zsets db).
Proof.
  unfold check_user_key. rewrite zrange_all, partition_as_filters.
  set (z := zset_of k (r_zsets db)).
  set (f := session_exists cfg now db).
  assert (∀ l, List.filter f (map fst l) = map fst (List.filter (live_member cfg now db) l))
    as Hlive by (intros l; exact (bool_filter_map fst f l)).
  destruct (map fst z) as [|sid sids] eqn:Hz.
  { simpl. apply map_eq_nil in Hz. case_decide; [|done]. subst key'. fold z.
    by rewrite Hz. }
  rewrite <- Hz. clear sid sids Hz. rewrite !andb_true_r. cbn [snd].
  set (orphaned := List.filter (λ x, negb (f x)) (map fst z)).
  assert (filter (λ p : string * Q, p.1 ∉ orphaned) z
          = List.filter (live_member cfg now db) z) as Hrem.
  { apply filter_as_bool_filter. intros p Hp. unfold orphaned, live_member.
    rewrite list_elem_of_In, filter_In, negb_true_iff. fold (f p.1).
    split.
    - intros Hn. destruct (f p.1) eqn:E; [done|]. exfalso. apply Hn.
      split; [|done]. apply in_map, list_elem_of_In, Hp.
    - intros -> [_ ?]. done. }
  destruct (length orphaned =? 0)%nat eqn:Ho; cbn [negb].
  - apply Nat.eqb_eq, length_zero_iff_nil in Ho.
    pose proof (bool_filter_all f (map fst z) Ho) as Hall.
    assert (List.filter (live_member cfg now db) z = z) as Hzz.
    { apply (bool_filter_all (live_member cfg now db)).
      unfold orphaned in Ho.
      rewrite (bool_filter_map fst (λ x, negb (f x)) z) in Ho.
      by apply map_eq_nil in Ho. }
    rewrite Hall, Hzz.
    destruct (length (map fst z) =? 0)%nat eqn:Hv.
    + apply Nat.eqb_eq, length_zero_iff_nil, map_eq_nil in Hv.
      rewrite r_zsets_with_zsets, delete_zset_of.
      case_decide; [by rewrite Hv|done].
    + by case_decide; subst.
  - rewrite Hlive.
    destruct (length (map fst (List.filter (live_member cfg now db) z)) =? 0)%nat
      eqn:Hv.
    + apply Nat.eqb_eq, length_zero_iff_nil, map_eq_nil in Hv.
      rewrite !r_zsets_with_zsets, delete_zset_of, zrem_zset_of.
      case_decide; [by rewrite Hv|done].
    + rewrite r_zsets_with_zsets, zrem_zset_of. fold z.
      case_decide; [by rewrite Hrem|done].
Qed.

Lemma foldl_check_zset cfg now keys s db key' :
  zset_of key' (r_zsets (foldl (check_user_key cfg false now) (s, db) keys).2)
  = if decide (key' ∈ keys)
    then List.filter (live_member cfg now db) (zset_of key' (r_zsets db))
    else zset_of key' (r_zsets db).
Proof.
  revert s db. induction keys as [|k keys IH]; intros s db.
  { destruct (decide (key' ∈ [])) as [H|H]; [by apply elem_of_nil in H|done]. }
  cbn [foldl].
  pose proof (check_user_key_zset cfg now s db k key') as Hz.
  pose proof (check_user_key_sess cfg false now s db k) as Hs.
  destruct (check_user_key cfg false now (s, db) k) as [s1 db1].
  simpl in Hz, Hs. rewrite IH, Hz.
  assert (∀ l, List.filter (live_member cfg now db1) l
               = List.filter (live_member cfg now db) l) as Hf.
  { intros l. apply filter_ext. intros p. by apply live_member_sess. }
  rewrite Hf.
  destruct (decide (k = key')) as [->|Hne].
  - rewrite bool_filter_idem.
    rewrite (decide_True (P := key' ∈ key' :: keys)) by (by left).
    by case_decide.
  - destruct (decide (key' ∈ keys)) as [Hin|Hin].
    + by rewrite decide_True by (by right).
    + rewrite decide_False; [done|].
      intros [?|?]%elem_of_cons; congruence.
Qed.

Lemma check_user_key_clean cfg now s db k :
  (∀ p, In p (zset_of k (r_zsets db)) → live_member cfg now db p = true) →
  let r := check_user_key cfg false now (s, db) k in
  r.2 = db ∧ orphaned_sessions_found r.1 = orphaned_sessions_found s.
Proof.
  intros Hlive. unfold check_user_key. rewrite zrange_all, partition_as_filters.
  set (z := zset_of k (r_zsets db)) in *.
  destruct (map fst z) as [|sid sids] eqn:Hz; [done|].
  rewrite <- Hz.
  assert (List.filter (λ x, negb (session_exists cfg now db x)) (map fst z) = [])
    as Ho.
  { apply bool_filter_none. intros x Hx. apply in_map_iff in Hx as [p [<- Hp]].
    by apply Hlive. }
  rewrite Ho, (bool_filter_all _ _ Ho), Hz. done.
Qed.

Lemma foldl_check_clean cfg now keys s db :
  (∀ k p, In k keys → In p (zset_of k (r_zsets db)) →
          live_member cfg now db p = true) →
  let r := foldl (check_user_key cfg false now) (s, db) keys in
  r.2 = db ∧ orphaned_sessions_found r.1 = orphaned_sessions_found s.
Proof.
  revert s. induction keys as [|k keys IH]; intros s Hlive; [done|].
  cbn [foldl].
  destruct (check_user_key_clean cfg now s db k) as [Hdb Hs].
  { intros p Hp. apply (Hlive k); [by left|done]. }
  destruct (check_user_key cfg false now (s, db) k) as [s1 db1].
  simpl in Hdb, Hs. subst db1.
  destruct (IH s1) as [Hdb' Hs'].
  { intros k' p Hk. apply Hlive. by right. }
  split; [done|]. by rewrite Hs'.
Qed.

Example repair_finds_one_orphan :
  let r := cleanup_orphaned_user_sessions default_config
             (SessionCleanup_init false) 200 (redis_store drifted_db) in
  orphaned_sessions_found (stats r.1) = 1%nat
  ∧ orphaned_sessions_removed (stats r.1) = 1%nat
  ∧ index_members default_config r.2 "user@example.com" = ["sidNew"].
Proof. vm_compute. repeat split; reflexivity. Qed.

(** * Further properties of the code *)

(** ** Keys *)

Lemma rkey_same_kind cfg (kind a b : string) :
  _rkey cfg kind a = _rkey cfg kind b → a = b.
Proof.
  unfold _rkey. intros H.
  by repeat (apply String.app_inj in H).
Qed.

Lemma rkey_ne cfg (kind a b : string) :
  a ≠ b → _rkey cfg kind a ≠ _rkey cfg kind b.
Proof. intros Hne H. by apply Hne, (rkey_same_kind cfg kind). Qed.

(** X1: the four kinds of key the application builds with [_rkey] never
    collide.  For kinds among [sess], [usess], [state] and [codev], two keys
    are equal only when the kinds are equal and the identifiers are equal,
    whatever [REDIS_PREFIX] is: a session id can never be read as an index or
    as a state token. *)
Theorem rkey_distinct_keys cfg (k1 k2 a b : string) :
  k1 ∈ ["sess"; "usess"; "state"; "codev"] →
  k2 ∈ ["sess"; "usess"; "state"; "codev"] →
  _rkey cfg k1 a = _rkey cfg k2 b → k1 = k2 ∧ a = b.
Proof.
  intros H1 H2 H. unfold _rkey in H.
  apply String.app_inj, String.app_inj in H.
  repeat (apply elem_of_cons in H1 as [->|H1]);
    try (by apply elem_of_nil in H1);
    repeat (apply elem_of_cons in H2 as [->|H2]);
    try (by apply elem_of_nil in H2);
    try discriminate H;
    (split; [done|]); by repeat (apply String.app_inj in H).
Qed.

(** X1 at one session key. *)
Lemma rkey_distinct_keys_witness :
  "sess" = "sess" ∧ "sidA" = "sidA".
Proof.
  apply (rkey_distinct_keys default_config "sess" "sess" "sidA" "sidA").
  - apply (bool_decide_unpack _). vm_compute. exact I.
  - apply (bool_decide_unpack _). vm_compute. exact I.
  - reflexivity.
Defined.

(** ** delete_session *)

Lemma set_session_store_same (st : store) :
  set_session_store (_session_store st) st = st.
Proof. by destruct st. Qed.

Lemma delete_session_memory_records cfg (sid : string) (st : store) :
  _redis st = None →
  _redis (delete_session cfg sid st) = None
  ∧ _session_store (delete_session cfg sid st) = delete sid (_session_store st).
Proof.
  intros Hr. unfold delete_session. rewrite Hr.
  destruct (_session_store st !! sid) as [sess|]; [|done].
  destruct (dict_truthy sess && str_truthy (s_sub sess)); [|done].
  cbn [_user_sessions set_session_store].
  destruct (_user_sessions st !! default "" (s_sub sess)) as [lst|]; [|done].
  by destruct (filter _ lst).
Qed.

(** X2: [delete_session] on both backends.  The deleted id no longer
    resolves, every other id resolves exactly as before, and deleting a second
    time changes nothing (an unknown id is not an error). *)
Theorem delete_session_forgets cfg (now : Q) (sid : string) (st : store) :
  get_session cfg now sid (delete_session cfg sid st) = None
  ∧ (∀ sid', sid' ≠ sid →
       get_session cfg now sid' (delete_session cfg sid st)
       = get_session cfg now sid' st)
  ∧ delete_session cfg sid (delete_session cfg sid st) = delete_session cfg sid st.
Proof.
  destruct (_redis st) as [db|] eqn:Hr.
  - unfold delete_session, get_session. rewrite Hr. simpl. repeat split.
    + apply redis_get_delete.
    + intros sid' Hne. unfold redis_get.
      by rewrite lookup_delete_ne by (by apply rkey_ne).
    + unfold with_sess. simpl. by rewrite delete_delete_eq.
  - destruct (delete_session_memory_records cfg sid st Hr) as [Hr' Hs].
    repeat split.
    + unfold get_session. rewrite Hr', Hs. apply lookup_delete_eq.
    + intros sid' Hne. unfold get_session. rewrite Hr', Hr, Hs.
      by apply lookup_delete_ne.
    + set (st' := delete_session cfg sid st) in *.
      unfold delete_session at 1. rewrite Hr', Hs, lookup_delete_eq.
      rewrite delete_delete_eq, <- Hs. apply set_session_store_same.
Qed.

(** ** Saving and deleting a session *)

Lemma dict_truthy_sub (sess : session) (sub : string) :
  s_sub sess = Some sub → dict_truthy sess = true.
Proof. unfold dict_truthy. by intros ->. Qed.

(** X3: the in-memory [delete_session] cleans the index of the record's
    [sub] only.  The list stored under [sub] loses every occurrence of the id
    and the key is dropped when the list becomes empty; every other index, in
    particular the one keyed by the normalised email that
    [add_session_to_user] fills, keeps the id. *)
Theorem delete_session_memory_index cfg (sid sub : string) (sess : session)
    (st : store) :
  _redis st = None →
  _session_store st !! sid = Some sess →
  s_sub sess = Some sub → sub ≠ "" →
  let st' := delete_session cfg sid st in
  _user_sessions st' !! sub
  = match filter (λ s, s ≠ sid) (default [] (_user_sessions st !! sub)) with
    | [] => None
    | lst => Some lst
    end
  ∧ ∀ idx, idx ≠ sub → _user_sessions st' !! idx = _user_sessions st !! idx.
Proof.
  intros Hr Hs Hsub Hne. unfold delete_session. rewrite Hr, Hs.
  rewrite (dict_truthy_sub sess sub Hsub), Hsub, (str_truthy_Some sub Hne).
  cbn [andb]. change (default "" (Some sub)) with sub.
  cbn [_user_sessions set_session_store].
  destruct (_user_sessions st !! sub) as [lst|] eqn:Hl; simpl.
  - destruct (filter (λ s, s ≠ sid) lst) as [|x l] eqn:Hf; simpl.
    + split; [apply lookup_delete_eq|].
      intros idx Hi. by apply lookup_delete_ne.
    + split; [apply lookup_insert_eq|].
      intros idx Hi. by apply lookup_insert_ne.
  - by rewrite Hl.
Qed.

(** X3 at a login indexed under both its sub and its email: the email index still holds the id after the delete. *)
Lemma delete_session_memory_index_witness :
  _user_sessions (delete_session default_config "sidA" one_login_memory)
    !! "user@example.com" = Some ["sidA"].
Proof.
  destruct (delete_session_memory_index default_config "sidA" "sub-1"
              (sample_session 3700) one_login_memory) as [_ Hother].
  - reflexivity.
  - reflexivity.
  - reflexivity.
  - discriminate.
  - rewrite Hother; [reflexivity|discriminate].
Defined.

(** X4: [save_session] with the Redis backend always returns, and whatever
    [exp] is passed (even one in the past) the record can be read back for at
    least 60 seconds.  No other session record and no index is changed. *)
Theorem save_session_redis_keeps_a_minute cfg (db : redis) (st : store)
    (t0 : Q) (sid : string) (data : session) (exp : Z) :
  _redis st = Some db →
  ∃ st1,
    save_session cfg t0 sid data exp st = Some st1
    ∧ (∀ t, (t <= t0 + 60)%Q → get_session cfg t sid st1 = Some data)
    ∧ (∀ t sid', sid' ≠ sid →
         get_session cfg t sid' st1 = get_session cfg t sid' st)
    ∧ (∀ idx, index_members cfg st1 idx = index_members cfg st idx).
Proof.
  intros Hr. unfold save_session. rewrite Hr. eexists. split; [reflexivity|].
  unfold get_session, index_members. simpl. rewrite Hr. repeat split.
  - intros t Ht. apply redis_get_setex_alive.
    assert (60 <= (if exp =? 0 then SESSION_TTL_DEFAULT
                   else Z.max 60 (exp - py_int t0))) as Httl.
    { destruct (exp =? 0); [unfold SESSION_TTL_DEFAULT|]; lia. }
    rewrite Zle_Qle in Httl.
    change (inject_Z 60) with 60%Q in Httl. lra.
  - intros t sid' Hne. unfold redis_get, redis_setex.
    by rewrite lookup_insert_ne by (by apply rkey_ne).
Qed.

(** X4 at an expiry ten seconds ahead: the record is still read a minute after the save. *)
Lemma save_session_redis_keeps_a_minute_witness :
  get_session default_config 1060 "sidA"
  <$> save_session default_config 1000 "sidA" (sample_session 1010) 1010
        (redis_store redis_empty)
  = Some (Some (sample_session 1010)).
Proof.
  destruct (save_session_redis_keeps_a_minute default_config redis_empty
              (redis_store redis_empty) 1000 "sidA" (sample_session 1010) 1010)
    as (st1 & Hsave & Hget & _).
  - reflexivity.
  - rewrite Hsave. simpl. rewrite Hget; [reflexivity|].
    vm_compute. discriminate.
Defined.

(** X5: the in-memory [save_session].  With a session cap configured and a
    non-empty [sub] the call never returns ([_enforce_max_sessions_memory]
    takes the lock that [save_session] holds); in every other case it returns,
    the record is read back by [get_session] at any later time, whatever its
    expiry, and the other records are unchanged. *)
Theorem save_session_memory cfg (st : store) (t0 : Q) (sid : string)
    (data : session) (exp : Z) :
  _redis st = None →
  if (0 <? MAX_USER_SESSIONS cfg) && str_truthy (s_sub data)
  then save_session cfg t0 sid data exp st = None
  else ∃ st1,
         save_session cfg t0 sid data exp st = Some st1
         ∧ (∀ t, get_session cfg t sid st1 = Some data)
         ∧ (∀ t sid', sid' ≠ sid →
              get_session cfg t sid' st1 = get_session cfg t sid' st).
Proof.
  intros Hr. unfold save_session. rewrite Hr.
  destruct (str_truthy (s_sub data)) eqn:Hsub.
  - destruct (Z.ltb_spec 0 (MAX_USER_SESSIONS cfg)) as [Hc|Hc]; [done|].
    cbn [andb]. rewrite enforce_unlimited by done.
    eexists. split; [reflexivity|]. unfold get_session. simpl. rewrite Hr.
    split; [intros; apply lookup_insert_eq|].
    intros t sid' Hne. by apply lookup_insert_ne.
  - rewrite andb_false_r. eexists. split; [reflexivity|].
    unfold get_session. simpl. rewrite Hr.
    split; [intros; apply lookup_insert_eq|].
    intros t sid' Hne. by apply lookup_insert_ne.
Qed.

(** X5 with a cap of two and a record that has a sub: the call never returns. *)
Lemma save_session_memory_witness :
  save_session (config_with_cap 2) 1000 "sidA" (sample_session 4600) 4600
    memory_store = None.
Proof.
  exact (save_session_memory (config_with_cap 2) memory_store 1000 "sidA"
           (sample_session 4600) 4600 eq_refl).
Defined.

(** ** The in-memory sweeps and the state store *)

Lemma purge_member_members (sid : string) (us : gmap string (list string))
    (idx : string) :
  default [] (purge_member sid us !! idx)
  = filter (λ x, x ≠ sid) (default [] (us !! idx)).
Proof.
  unfold purge_member. rewrite lookup_omap.
  destruct (us !! idx) as [lst|]; [|done]. simpl.
  case_decide as Hin.
  - by destruct (filter (λ x, x ≠ sid) lst).
  - simpl. symmetry. apply filter_all. intros x Hx ->. done.
Qed.

Lemma sweep_sessions_records (l : list string) (st : store) (x : string) :
  _session_store (foldl sweep_session st l) !! x
  = if decide (x ∈ l) then None else _session_store st !! x.
Proof.
  revert st. induction l as [|sid l IH]; intros st.
  { destruct (decide (x ∈ [])) as [H|_]; [by apply elem_of_nil in H|done]. }
  cbn [foldl]. rewrite IH. simpl.
  destruct (decide (x ∈ l)) as [Hl|Hl].
  - by rewrite decide_True by (by right).
  - destruct (decide (x = sid)) as [->|Hne].
    + rewrite lookup_delete_eq. by rewrite decide_True by (by left).
    + rewrite lookup_delete_ne by done.
      rewrite decide_False; [done|]. intros [?|?]%elem_of_cons; congruence.
Qed.

Lemma sweep_sessions_members (l : list string) (st : store) (idx : string) :
  default [] (_user_sessions (foldl sweep_session st l) !! idx)
  = filter (λ x, x ∉ l) (default [] (_user_sessions st !! idx)).
Proof.
  revert st. induction l as [|sid l IH]; intros st.
  { simpl. symmetry. apply filter_all. intros x _. apply not_elem_of_nil. }
  cbn [foldl]. rewrite IH. simpl. rewrite purge_member_members.
  rewrite list_filter_filter. apply list_filter_iff. intros x.
  rewrite not_elem_of_cons. tauto.
Qed.

Lemma sweep_sessions_frame (l : list string) (st : store) :
  _state_store (foldl sweep_session st l) = _state_store st
  ∧ _code_verifiers (foldl sweep_session st l) = _code_verifiers st.
Proof.
  revert st. induction l as [|sid l IH]; intros st; [done|].
  cbn [foldl]. by destruct (IH (sweep_session st sid)) as [-> ->].
Qed.

Lemma drop_states_frame (l : list string) (st : store) :
  _session_store (foldl drop_state st l) = _session_store st
  ∧ _user_sessions (foldl drop_state st l) = _user_sessions st.
Proof.
  revert st. induction l as [|k l IH]; intros st; [done|].
  cbn [foldl]. by destruct (IH (drop_state st k)) as [-> ->].
Qed.

Lemma expired_list_spec (now : Q) (st : store) (x : string) :
  x ∈ map fst (List.filter (λ p : string * session, exp_passed now (s_exp p.2))
                 (map_to_list (_session_store st)))
  ↔ session_expired now st x = true.
Proof.
  unfold session_expired. rewrite list_elem_of_In, in_map_iff. split.
  - intros [[k d] [<- [Hin Hp]%filter_In]].
    apply list_elem_of_In, elem_of_map_to_list in Hin. simpl. by rewrite Hin.
  - destruct (_session_store st !! x) as [d|] eqn:E; [|done]. intros Hp.
    exists (x, d). split; [done|]. apply filter_In. split; [|done].
    by apply list_elem_of_In, elem_of_map_to_list.
Qed.

(** X6: the in-memory sweep [clean_sessions] removes exactly the records
    whose expiry is nonzero and before [now], removes their ids from every
    index list (the lists keep their order), and touches neither the
    remaining records nor the OAuth states. *)
Theorem clean_sessions_sweeps (now : Q) (st : store) :
  _redis st = None →
  let st' := clean_sessions now st in
  (∀ sid, _session_store st' !! sid
          = if session_expired now st sid then None else _session_store st !! sid)
  ∧ (∀ idx, default [] (_user_sessions st' !! idx)
            = filter (λ sid, session_expired now st sid = false)
                (default [] (_user_sessions st !! idx)))
  ∧ _state_store st' = _state_store st
  ∧ _code_verifiers st' = _code_verifiers st.
Proof.
  intros Hr. unfold clean_sessions. rewrite Hr. fold sweep_session.
  set (expired := map fst _). repeat split.
  - intros sid. rewrite sweep_sessions_records.
    pose proof (expired_list_spec now st sid) as Hs. fold expired in Hs.
    destruct (session_expired now st sid).
    + rewrite decide_True; [done|]. by apply Hs.
    + rewrite decide_False; [done|]. intros H. by apply Hs in H.
  - intros idx. rewrite sweep_sessions_members. apply list_filter_iff.
    intros x. pose proof (expired_list_spec now st x) as Hs. fold expired in Hs.
    rewrite Hs. by destruct (session_expired now st x).
  - apply sweep_sessions_frame.
  - apply sweep_sessions_frame.
Qed.

(** X6 at two logins of which one has run out. *)
Lemma clean_sessions_sweeps_witness :
  default [] (_user_sessions (clean_sessions 5000 stale_login_memory) !! "sub-1")
  = ["sidB"].
Proof.
  destruct (clean_sessions_sweeps 5000 stale_login_memory eq_refl)
    as (_ & Hidx & _).
  rewrite Hidx. vm_compute. reflexivity.
Defined.

Lemma drop_states_others (keys : list string) (st : store) (x : string) :
  x ∉ keys →
  _state_store (foldl drop_state st keys) !! x = _state_store st !! x
  ∧ _code_verifiers (foldl drop_state st keys) !! x = _code_verifiers st !! x.
Proof.
  revert st. induction keys as [|k keys IH]; intros st Hx; [done|].
  apply not_elem_of_cons in Hx as [Hne Hx]. cbn [foldl].
  destruct (IH (drop_state st k) Hx) as [-> ->]. simpl.
  by rewrite !lookup_delete_ne.
Qed.

Lemma obsolete_list_spec (now : Q) (st : store) (x : string) :
  In x (map fst (List.filter
                   (λ p : string * state_data, Qlt_bool (inject_Z (sd_exp p.2)) now)
                   (map_to_list (_state_store st))))
  ↔ state_obsolete now st x = true.
Proof.
  unfold state_obsolete. rewrite in_map_iff. split.
  - intros [[k d] [<- [Hin Hp]%filter_In]].
    apply list_elem_of_In, elem_of_map_to_list in Hin. simpl. by rewrite Hin.
  - destruct (_state_store st !! x) as [d|] eqn:E; [|done]. intros Hp.
    exists (x, d). split; [done|]. apply filter_In. split; [|done].
    by apply list_elem_of_In, elem_of_map_to_list.
Qed.

(** X7: the in-memory sweep [clean_expired] removes exactly the states
    whose expiry is before [now], together with their code verifiers, keeps
    every other state and verifier, and touches no session data. *)
Theorem clean_expired_sweeps (now : Q) (st : store) :
  _redis st = None →
  let st' := clean_expired now st in
  (∀ s, _state_store st' !! s
        = if state_obsolete now st s then None else _state_store st !! s)
  ∧ (∀ s, _code_verifiers st' !! s
          = if state_obsolete now st s then None else _code_verifiers st !! s)
  ∧ _session_store st' = _session_store st
  ∧ _user_sessions st' = _user_sessions st.
Proof.
  intros Hr. unfold clean_expired. rewrite Hr.
  set (obsolete := map fst _).
  assert (∀ s, (state_obsolete now st s = true → In s obsolete)
               ∧ (state_obsolete now st s = false → s ∉ obsolete)) as Hs.
  { intros s. pose proof (obsolete_list_spec now st s) as H. fold obsolete in H.
    split; [apply H|]. intros Hf Hin%list_elem_of_In. apply H in Hin. congruence. }
  repeat split.
  - intros s. destruct (state_obsolete now st s) eqn:E.
    + by apply drop_states_member, Hs.
    + by apply drop_states_others, Hs.
  - intros s. destruct (state_obsolete now st s) eqn:E.
    + by apply drop_states_member, Hs.
    + by apply drop_states_others, Hs.
  - apply drop_states_frame.
  - apply drop_states_frame.
Qed.

(** X7 at a state that runs out at 1600, swept at 1500: it is kept. *)
Lemma clean_expired_sweeps_witness :
  _state_store
    (clean_expired 1500
       (save_state default_config 1000 "tok" "https://app/cb" "verif" "google"
          memory_store)) !! "tok"
  = Some {| sd_redirect_uri := "https://app/cb"; sd_exp := 1600;
            sd_provider := "google" |}.
Proof.
  destruct (clean_expired_sweeps 1500
              (save_state default_config 1000 "tok" "https://app/cb" "verif"
                 "google" memory_store) eq_refl) as (Hs & _).
  rewrite Hs. vm_compute. reflexivity.
Defined.

(** X8: state tokens do not interfere.  Saving one token does not change what
    [pop_state] returns for another, and saving the same token again
    overwrites the first entry completely: the store is the one a single save
    of the second values would give.  Both backends. *)
Theorem save_state_isolated cfg (st : store) (t0 t1 t : Q)
    (state other uri1 ver1 prov1 uri2 ver2 prov2 : string) :
  other ≠ state →
  (pop_state cfg t other (save_state cfg t0 state uri1 ver1 prov1 st)).1
  = (pop_state cfg t other st).1
  ∧ save_state cfg t1 state uri2 ver2 prov2
      (save_state cfg t0 state uri1 ver1 prov1 st)
    = save_state cfg t1 state uri2 ver2 prov2 st.
Proof.
  intros Hne. unfold save_state, pop_state.
  destruct (_redis st) as [db|] eqn:Hr; simpl; rewrite ?Hr; simpl.
  - split.
    + unfold redis_get, redis_setex.
      by rewrite !lookup_insert_ne by (by apply rkey_ne).
    + unfold redis_setex, set_redis, with_text, with_state. simpl.
      by rewrite !insert_insert_eq.
  - split.
    + by rewrite !lookup_insert_ne.
    + unfold set_states. simpl. by rewrite !insert_insert_eq.
Qed.

(** X8 at two tokens on the Redis backend. *)
Lemma save_state_isolated_witness :
  (pop_state default_config 1100 "tokB"
     (save_state default_config 1050 "tokA" "https://app/cb" "verA" "google"
        (save_state default_config 1000 "tokB" "https://app/cb" "verB" "google"
           (redis_store redis_empty)))).1
  = (pop_state default_config 1100 "tokB"
       (save_state default_config 1000 "tokB" "https://app/cb" "verB" "google"
          (redis_store redis_empty))).1.
Proof.
  refine (proj1 (save_state_isolated default_config _ 1050 1050 1100
                   "tokA" "tokB" "https://app/cb" "verA" "google"
                   "https://app/cb" "verA" "google" _)).
  discriminate.
Defined.

(** ** Normalising the email *)

Lemma ascii_lower_idem (c : ascii) : ascii_lower (ascii_lower c) = ascii_lower c.
Proof. by destruct c as [[] [] [] [] [] [] [] []]. Qed.

Lemma ascii_isspace_lower (c : ascii) :
  ascii_isspace (ascii_lower c) = ascii_isspace c.
Proof. by destruct c as [[] [] [] [] [] [] [] []]. Qed.

Lemma lower_as_map (s : string) :
  lower s = string_of_list_ascii (map ascii_lower (list_ascii_of_string s)).
Proof. induction s as [|c s IH]; [done|]. simpl. by rewrite IH. Qed.

Lemma lstrip_idem (l : list ascii) :
  lstrip_chars (lstrip_chars l) = lstrip_chars l.
Proof.
  induction l as [|c l IH]; [done|]. simpl.
  destruct (ascii_isspace c) eqn:E; [done|]. simpl. by rewrite E.
Qed.

Lemma lstrip_snoc (l : list ascii) (c : ascii) :
  ascii_isspace c = false →
  lstrip_chars (l ++ [c])%list = (lstrip_chars l ++ [c])%list.
Proof.
  intros Hc. induction l as [|x l IH]; simpl; [by rewrite Hc|].
  by destruct (ascii_isspace x).
Qed.

Lemma lstrip_head (l : list ascii) :
  lstrip_chars l = []
  ∨ ∃ c t, lstrip_chars l = c :: t ∧ ascii_isspace c = false.
Proof.
  induction l as [|x l IH]; [by left|]. simpl.
  destruct (ascii_isspace x) eqn:E; [done|]. right. by exists x, l.
Qed.

Lemma lstrip_map_lower (l : list ascii) :
  lstrip_chars (map ascii_lower l) = map ascii_lower (lstrip_chars l).
Proof.
  induction l as [|x l IH]; [done|]. simpl. rewrite ascii_isspace_lower.
  by destruct (ascii_isspace x).
Qed.

Lemma strip_chars_idem (l : list ascii) :
  strip_chars (strip_chars l) = strip_chars l.
Proof.
  unfold strip_chars.
  destruct (lstrip_head l) as [->|(c & t & -> & Hc)]; [done|].
  simpl rev at 3 5. rewrite (lstrip_snoc (rev t) c Hc).
  rewrite rev_app_distr. simpl. rewrite Hc. simpl.
  rewrite (lstrip_snoc _ c Hc). rewrite rev_involutive, lstrip_idem.
  by rewrite rev_app_distr.
Qed.

Lemma strip_chars_map_lower (l : list ascii) :
  strip_chars (map ascii_lower l) = map ascii_lower (strip_chars l).
Proof.
  unfold strip_chars.
  by rewrite lstrip_map_lower, <- map_rev, lstrip_map_lower, <- map_rev.
Qed.

Lemma normalise_as_chars (s : string) :
  strip (lower s)
  = string_of_list_ascii (map ascii_lower (strip_chars (list_ascii_of_string s))).
Proof.
  unfold strip. rewrite lower_as_map, list_ascii_of_string_of_list_ascii.
  fold (strip_chars (map ascii_lower (list_ascii_of_string s))).
  by rewrite strip_chars_map_lower.
Qed.

Lemma normalise_idem (s : string) :
  strip (lower (strip (lower s))) = strip (lower s).
Proof.
  rewrite (normalise_as_chars (strip (lower s))), (normalise_as_chars s).
  rewrite list_ascii_of_string_of_list_ascii.
  rewrite strip_chars_map_lower, strip_chars_idem.
  by rewrite map_map, (map_ext _ ascii_lower) by apply ascii_lower_idem.
Qed.

Lemma ascii_lower_ascii (c : ascii) :
  (nat_of_ascii c <? 128)%nat = true →
  (nat_of_ascii (ascii_lower c) <? 128)%nat = true.
Proof.
  intros Hc. unfold ascii_lower.
  destruct ((65 <=? nat_of_ascii c) && (nat_of_ascii c <=? 90))%nat eqn:E;
    [|done].
  apply andb_true_iff in E as [_ E]. apply Nat.leb_le in E.
  rewrite nat_ascii_embedding by lia. apply Nat.ltb_lt. lia.
Qed.

Lemma lstrip_chars_In (x : ascii) (l : list ascii) :
  In x (lstrip_chars l) → In x l.
Proof.
  induction l as [|c l IH]; [done|]. simpl.
  destruct (ascii_isspace c); [|done]. intros H. right. by apply IH.
Qed.

Lemma strip_chars_In (x : ascii) (l : list ascii) :
  In x (strip_chars l) → In x l.
Proof.
  unfold strip_chars. intros H.
  by apply in_rev, lstrip_chars_In, in_rev, lstrip_chars_In in H.
Qed.

(** The normalised email of an ASCII email is ASCII. *)
Lemma normalise_ascii (s : string) :
  is_ascii s = true → is_ascii (strip (lower s)) = true.
Proof.
  unfold is_ascii. rewrite normalise_as_chars, list_ascii_of_string_of_list_ascii.
  rewrite !forallb_forall. intros Hs x [c [<- Hc]]%in_map_iff.
  by apply ascii_lower_ascii, Hs, strip_chars_In.
Qed.

(** X9: [_user_index_id] normalises the email.  When the email is made of
    ASCII characters and is not blank, the result is a non-empty index id,
    again made of ASCII characters, that does not depend on [sub], that is
    its own index id, and that is also the index id of the lower-cased
    email: every spelling of an address leads to one index. *)
Theorem user_index_id_normal_form (email : string) (sub sub' : option string) :
  is_ascii email = true →
  strip (lower email) ≠ "" →
  ∃ idx,
    _user_index_id (Some email) sub = Some idx
    ∧ idx ≠ "" ∧ is_ascii idx = true
    ∧ _user_index_id (Some idx) sub' = Some idx
    ∧ _user_index_id (Some (lower email)) sub' = Some idx.
Proof.
  intros Hascii Hne. exists (strip (lower email)).
  pose proof (normalise_ascii email Hascii) as Hidx.
  assert (∀ s, lower (lower s) = lower s) as Hll.
  { intros s. rewrite (lower_as_map (lower s)), lower_as_map.
    rewrite list_ascii_of_string_of_list_ascii, map_map.
    by rewrite (map_ext _ ascii_lower) by apply ascii_lower_idem. }
  apply String.eqb_neq in Hne. unfold _user_index_id.
  change (default "" (Some email)) with email.
  change (default "" (Some (strip (lower email)))) with (strip (lower email)).
  change (default "" (Some (lower email))) with (lower email).
  rewrite normalise_idem, Hll, Hne. simpl. repeat split; [|done].
  by apply String.eqb_neq.
Qed.

(** X9 at an address with capitals and surrounding blanks. *)
Lemma user_index_id_normal_form_witness :
  ∃ idx,
    _user_index_id (Some "  User@Example.COM ") (Some "sub-1") = Some idx
    ∧ idx ≠ "" ∧ is_ascii idx = true
    ∧ _user_index_id (Some idx) None = Some idx
    ∧ _user_index_id (Some (lower "  User@Example.COM ")) None = Some idx.
Proof.
  apply (user_index_id_normal_form "  User@Example.COM " (Some "sub-1") None).
  - reflexivity.
  - vm_compute. discriminate.
Defined.

Lemma lstrip_all_space (l : list ascii) :
  forallb ascii_isspace l = true → lstrip_chars l = [].
Proof.
  induction l as [|c l IH]; [done|]. simpl.
  intros [-> Hl]%andb_true_iff. by apply IH.
Qed.

(** X10: with no email, an empty one or one made only of the ASCII
    white-space characters (tab, line feed, vertical tab, form feed,
    carriage return, the separators 28 to 31 and the space),
    [_user_index_id] returns [sub] as it was given, so [None] or [''] when
    there is no subject either. *)
Theorem user_index_id_falls_back (email sub : option string) :
  forallb ascii_isspace (list_ascii_of_string (default "" email)) = true →
  _user_index_id email sub = sub.
Proof.
  intros Hsp. unfold _user_index_id.
  rewrite normalise_as_chars. unfold strip_chars.
  by rewrite (lstrip_all_space _ Hsp).
Qed.

(** X10 at an email made of blanks. *)
Lemma user_index_id_falls_back_witness :
  _user_index_id (Some "   ") (Some "sub-1") = Some "sub-1".
Proof.
  apply (user_index_id_falls_back (Some "   ") (Some "sub-1")).
  reflexivity.
Defined.

(** ** The cap after any registration *)

Lemma filter_none {A} (P : A → Prop) `{!∀ x, Decision (P x)} (l : list A) :
  (∀ x, x ∈ l → ¬ P x) → filter P l = [].
Proof.
  induction l as [|x l IH]; intros Hl; [done|].
  rewrite filter_cons, decide_False by (apply Hl; by left).
  apply IH. intros y Hy. apply Hl. by right.
Qed.

Lemma filter_prefix_members (k : nat) (z : list (string * Q)) :
  (length (filter (λ p : string * Q, p.1 ∉ take k (map fst z)) z)
   ≤ length z - k)%nat.
Proof.
  set (P := λ p : string * Q, p.1 ∉ take k (map fst z)).
  assert (filter P (take k z) = []) as Hnil.
  { apply filter_none. intros p Hp Hn. apply Hn.
    change (take k (map fst z)) with (take k (fst <$> z)).
    rewrite <- fmap_take. by apply list_elem_of_fmap_2. }
  pose proof (length_filter P (drop k z)) as Hd.
  rewrite length_drop in Hd.
  rewrite <- (take_drop k z) at 1. by rewrite filter_app, Hnil.
Qed.

Lemma delete_sessions_redis cfg (l : list string) (st : store) (db : redis) :
  _redis st = Some db →
  foldl (λ s sid, delete_session cfg sid s) st l
  = set_redis (foldl (drop_session_key cfg) db l) st.
Proof.
  revert st db. induction l as [|x l IH]; intros st db Hr.
  { simpl. symmetry. by apply set_redis_same. }
  cbn [foldl]. rewrite (IH _ (drop_session_key cfg db x)).
  - unfold delete_session. rewrite Hr. by destruct st.
  - unfold delete_session. by rewrite Hr.
Qed.

Lemma drop_session_keys_zsets cfg (l : list string) (db : redis) :
  r_zsets (foldl (drop_session_key cfg) db l) = r_zsets db.
Proof.
  revert db. induction l as [|x l IH]; intros db; [done|].
  cbn [foldl]. by rewrite IH.
Qed.

Lemma drop_session_keys_absent cfg (l : list string) (db : redis) (key : string) :
  r_sess db !! key = None →
  r_sess (foldl (drop_session_key cfg) db l) !! key = None.
Proof.
  revert db. induction l as [|x l IH]; intros db H; [done|].
  cbn [foldl]. apply IH. simpl. apply lookup_delete_None. by right.
Qed.

Lemma drop_session_keys_member cfg (l : list string) (db : redis) (sid : string) :
  sid ∈ l →
  r_sess (foldl (drop_session_key cfg) db l) !! _rkey cfg "sess" sid = None.
Proof.
  revert db. induction l as [|x l IH]; intros db Hin.
  { by apply elem_of_nil in Hin. }
  cbn [foldl]. apply elem_of_cons in Hin as [->|Hin]; [|by apply IH].
  apply drop_session_keys_absent. simpl. apply lookup_delete_eq.
Qed.

Lemma drop_session_keys_other cfg (l : list string) (db : redis) (sid : string) :
  sid ∉ l →
  r_sess (foldl (drop_session_key cfg) db l) !! _rkey cfg "sess" sid
  = r_sess db !! _rkey cfg "sess" sid.
Proof.
  revert db. induction l as [|x l IH]; intros db Hin; [done|].
  apply not_elem_of_cons in Hin as [Hne Hin]. cbn [foldl].
  rewrite IH by done. simpl. by rewrite lookup_delete_ne by (by apply rkey_ne).
Qed.

Lemma enforce_loop_spec cfg (lst : list string) (ss : gmap string session) :
  0 < MAX_USER_SESSIONS cfg →
  let r := enforce_loop cfg lst ss in
  Z.of_nat (length r.1) <= MAX_USER_SESSIONS cfg
  ∧ (∀ m, m ∈ lst → m ∉ r.1 → r.2 !! m = None)
  ∧ (∀ m, ss !! m = None → r.2 !! m = None).
Proof.
  intros Hpos. revert ss. induction lst as [|x lst IH]; intros ss.
  { simpl. repeat split; [lia| |done]. intros m H. by apply elem_of_nil in H. }
  cbn [enforce_loop].
  destruct (Z.ltb_spec (MAX_USER_SESSIONS cfg) (Z.of_nat (length (x :: lst))))
    as [Hover|Hok].
  - destruct (IH (delete x ss)) as (H1 & H2 & H3). repeat split; [done| |].
    + intros m [->|Hin]%elem_of_cons Hm; [|by apply H2].
      apply H3, lookup_delete_eq.
    + intros m Hm. apply H3. apply lookup_delete_None. by right.
  - simpl. repeat split; [simpl in Hok; lia| |done]. intros m Hin Hn. done.
Qed.

(** X11: with a cap [MAX_USER_SESSIONS > 0], after [add_session_to_user] the
    index of the identity holds at most that many members, however many it
    held before, and every member pushed out by the call has lost its session
    record.  Both backends. *)
Theorem cap_holds_after_registration cfg (st : store) (email sub : option string)
    (session_id idx : string) (ts : Q) :
  0 < MAX_USER_SESSIONS cfg →
  _user_index_id email sub = Some idx → idx ≠ "" →
  let st' := add_session_to_user cfg email sub session_id ts st in
  Z.of_nat (length (index_members cfg st' idx)) <= MAX_USER_SESSIONS cfg
  ∧ ∀ m, m ∈ index_after_add cfg st idx session_id ts →
         m ∉ index_members cfg st' idx →
         ∀ now, get_session cfg now m st' = None.
Proof.
  intros Hpos Hidx Hne.
  unfold add_session_to_user. rewrite Hidx, (str_truthy_Some idx Hne).
  cbn [negb]. change (default "" (Some idx)) with idx.
  unfold index_after_add, index_members.
  destruct (_redis st) as [db|] eqn:Hr.
  - cbv zeta. rewrite !r_zsets_with_zsets.
    set (key := _rkey cfg "usess" idx).
    set (zs1 := zadd key session_id ts (r_zsets db)).
    set (z1 := zset_of key zs1).
    destruct (Z.ltb_spec 0 (MAX_USER_SESSIONS cfg)) as [_|?]; [|lia].
    unfold zcard. fold z1.
    destruct (Z.ltb_spec 0 (Z.of_nat (length z1) - MAX_USER_SESSIONS cfg))
      as [Hover|Hfit].
    + rewrite (zrange_prefix key _ zs1 Hover). fold z1.
      set (k := Z.to_nat (Z.of_nat (length z1) - MAX_USER_SESSIONS cfg)).
      destruct (take k (map fst z1)) as [|o old] eqn:Hold.
      { exfalso. apply (f_equal length) in Hold.
        rewrite length_take, length_map in Hold. simpl in Hold. lia. }
      rewrite <- Hold.
      rewrite (delete_sessions_redis cfg _
                 (set_redis (with_zsets (zadd key session_id ts) db) st)
                 (with_zsets (zadd key session_id ts) db) eq_refl).
      cbn [_redis set_redis]. rewrite r_zsets_with_zsets.
      rewrite drop_session_keys_zsets, r_zsets_with_zsets.
      fold zs1. rewrite zrem_zset_of, decide_True by done. fold z1.
      split.
      * rewrite length_map.
        pose proof (filter_prefix_members k z1). lia.
      * intros m Hm Hgone now. unfold get_session. cbn [_redis set_redis].
        unfold redis_get. cbn [r_sess with_zsets].
        rewrite drop_session_keys_member; [done|].
        destruct (decide (m ∈ take k (map fst z1))) as [|Hn]; [done|].
        exfalso. apply Hgone.
        apply list_elem_of_fmap in Hm as [p [-> Hp]].
        apply list_elem_of_fmap_2, list_elem_of_filter. by split.
    + cbn [_redis set_redis]. rewrite r_zsets_with_zsets. fold zs1 z1.
      split; [rewrite length_map; lia|]. intros m Hm Hn. done.
  - unfold _enforce_max_sessions_memory.
    destruct (Z.ltb_spec 0 (MAX_USER_SESSIONS cfg)) as [_|?]; [|lia].
    cbn [_user_sessions set_user_sessions _session_store].
    rewrite lookup_insert_eq.
    set (l := (default [] (_user_sessions st !! idx) ++ [session_id])%list).
    pose proof (enforce_loop_spec cfg l (_session_store st) Hpos) as Hspec.
    destruct (enforce_loop cfg l (_session_store st)) as [lst' ss'].
    destruct Hspec as (H1 & H2 & _). simpl in H1, H2.
    cbn [_redis set_user_sessions set_session_store _user_sessions].
    rewrite Hr, lookup_insert_eq. simpl. split; [done|].
    intros m Hm Hgone now. unfold get_session. simpl. rewrite Hr.
    by apply H2.
Qed.

(** X11 at an index of two members and a cap of one. *)
Lemma cap_holds_after_registration_witness :
  Z.of_nat (length (index_members (config_with_cap 1)
                      (add_session_to_user (config_with_cap 1) user_email
                         user_sub "sid3" 20 two_sessions_cap2)
                      "user@example.com")) <= 1.
Proof.
  refine (proj1 (cap_holds_after_registration (config_with_cap 1)
                   two_sessions_cap2 user_email user_sub "sid3"
                   "user@example.com" 20 _ _ _)).
  - reflexivity.
  - vm_compute. reflexivity.
  - discriminate.
Defined.

(** ** More on listing *)

Lemma zrange_suffix (key : string) (start : Z)
    (zs : gmap string (list (string * Q))) :
  0 <= start →
  zrange key start (-1) zs = drop (Z.to_nat start) (map fst (zset_of key zs)).
Proof.
  intros Hs. unfold zrange. set (l := map fst (zset_of key zs)).
  destruct (Z.ltb_spec start 0) as [?|_]; [lia|].
  replace (-1 <? 0) with true by done.
  destruct (Z.ltb_spec (Z.of_nat (length l) + -1) start) as [H|H].
  - symmetry. apply drop_ge. lia.
  - apply firstn_all2. rewrite length_drop. lia.
Qed.

Lemma fetch_idx_bounded cfg (zs : gmap string (list (string * Q))) (i : string) :
  0 < SESSION_LIST_RETURN_LIMIT cfg →
  Z.of_nat (length (fetch_idx cfg zs i)) <= SESSION_LIST_RETURN_LIMIT cfg.
Proof.
  intros Hl. unfold fetch_idx, zcard.
  destruct (Z.eqb_spec (Z.of_nat (length (zset_of (_rkey cfg "usess" i) zs))) 0);
    [simpl; lia|].
  rewrite zrange_suffix by lia.
  rewrite length_rev, length_drop, length_map. lia.
Qed.

Lemma scan_sessions_bounded cfg now st sids :
  (length (scan_sessions cfg now st sids).1 ≤ length sids)%nat.
Proof.
  rewrite <- (length_map si_session_id), scan_sessions_result.
  apply length_filter.
Qed.

Lemma list_user_sessions_length cfg (now : Q) (email sub : option string)
    (st : store) :
  0 < SESSION_LIST_RETURN_LIMIT cfg →
  Z.of_nat (length (list_user_sessions cfg now email sub st).1)
  <= SESSION_LIST_RETURN_LIMIT cfg.
Proof.
  intros Hl. unfold list_user_sessions.
  destruct (negb (str_truthy (_user_index_id email sub))); [simpl; lia|].
  set (idx := default "" (_user_index_id email sub)).
  destruct (_redis st) as [db|].
  - set (sids := match fetch_idx cfg (r_zsets db) idx with [] => _ | _ => _ end).
    assert (Z.of_nat (length sids) <= SESSION_LIST_RETURN_LIMIT cfg) as Hs.
    { unfold sids.
      pose proof (fetch_idx_bounded cfg (r_zsets db) idx Hl) as H1.
      pose proof (fetch_idx_bounded cfg (r_zsets db) (default "" sub) Hl) as H2.
      destruct (fetch_idx cfg (r_zsets db) idx); [|done].
      destruct (_ && _); [|done].
      by destruct (fetch_idx cfg (r_zsets db) (default "" sub)). }
    pose proof (scan_sessions_bounded cfg now st sids) as Hb.
    destruct (scan_sessions cfg now st sids) as [result stale]. simpl in Hb.
    destruct stale; simpl; lia.
  - cbn [fst].
    set (l := default [] (_user_sessions st !! idx)).
    pose proof (scan_sessions_bounded cfg now st
                  (rev (py_slice_from (- SESSION_LIST_RETURN_LIMIT cfg) l))) as Hb.
    rewrite length_rev in Hb. unfold py_slice_from in *.
    destruct (Z.ltb_spec (- SESSION_LIST_RETURN_LIMIT cfg) 0); [|lia].
    rewrite length_drop in Hb. lia.
Qed.

(** X13: with [SESSION_LIST_RETURN_LIMIT > 0], [list_user_sessions] never
    returns more entries than the limit, on either backend and on the legacy
    index as well. *)
Theorem list_user_sessions_bounded cfg (now : Q) (email sub : option string)
    (st : store) :
  0 < SESSION_LIST_RETURN_LIMIT cfg →
  Z.of_nat (length (list_user_sessions cfg now email sub st).1)
  <= SESSION_LIST_RETURN_LIMIT cfg.
Proof. apply list_user_sessions_length. Qed.

(** X13 at two live sessions and a limit of one. *)
Lemma list_user_sessions_bounded_witness :
  Z.of_nat (length (list_user_sessions (config_with_list_limit 1) 200
                      user_email user_sub two_sessions_cap2).1) <= 1.
Proof.
  apply (list_user_sessions_bounded (config_with_list_limit 1) 200 user_email
           user_sub two_sessions_cap2).
  reflexivity.
Defined.

Lemma scan_sessions_entries cfg now st sids :
  (scan_sessions cfg now st sids).1
  = omap (λ sid, session_entry now sid <$> resolves cfg now st sid) sids.
Proof.
  induction sids as [|sid sids IH]; [done|]. cbn [scan_sessions omap list_omap].
  destruct (scan_sessions cfg now st sids) as [result stale]. simpl in IH.
  destruct (resolves cfg now st sid); simpl; by rewrite IH.
Qed.

(** X14: the in-memory [list_user_sessions] is a pure read.  It returns, newest
    first, the entries of the last [SESSION_LIST_RETURN_LIMIT] ids of the
    list that resolve, and the store is unchanged: ids that no longer resolve
    are skipped but stay in the list. *)
Theorem list_user_sessions_memory cfg (now : Q) (email sub : option string)
    (idx : string) (st : store) :
  _redis st = None →
  _user_index_id email sub = Some idx → idx ≠ "" →
  let r := list_user_sessions cfg now email sub st in
  r.2 = st
  ∧ r.1 = omap (λ sid, session_entry now sid <$> resolves cfg now st sid)
            (rev (py_slice_from (- SESSION_LIST_RETURN_LIMIT cfg)
                    (index_members cfg st idx))).
Proof.
  intros Hr Hidx Hne. unfold list_user_sessions, index_members.
  rewrite Hidx, (str_truthy_Some idx Hne), Hr. cbn [negb].
  change (default "" (Some idx)) with idx. simpl.
  split; [done|]. apply scan_sessions_entries.
Qed.

(** X14 at two stored logins, one of them past its expiry: both are listed. *)
Lemma list_user_sessions_memory_witness :
  (list_user_sessions default_config 5000 None (Some "sub-1")
     stale_login_memory).1
  = [ session_entry 5000 "sidB" (sample_session 9000);
      session_entry 5000 "sidA" (sample_session 3700) ].
Proof.
  destruct (list_user_sessions_memory default_config 5000 None (Some "sub-1")
              "sub-1" stale_login_memory) as [_ Hres].
  - reflexivity.
  - reflexivity.
  - discriminate.
  - rewrite Hres. vm_compute. reflexivity.
Defined.

Lemma with_zsets_same (db : redis) : with_zsets (λ _, r_zsets db) db = db.
Proof. by destruct db. Qed.

(** X15: the legacy fallback of [list_user_sessions].  With the Redis backend,
    when the identity has no index under its normalised email but has one
    under its [sub], the entries come from the [sub] index, and the store is
    left as it was: ids of the legacy index that no longer resolve are
    removed from the (absent) email index, so they stay. *)
Theorem list_user_sessions_legacy_index cfg (now : Q) (email : option string)
    (sub idx : string) (st : store) (db : redis) :
  _redis st = Some db →
  _user_index_id email (Some sub) = Some idx → idx ≠ "" →
  sub ≠ "" → sub ≠ idx →
  r_zsets db !! _rkey cfg "usess" idx = None →
  let r := list_user_sessions cfg now email (Some sub) st in
  r.2 = st
  ∧ r.1 = omap (λ sid, session_entry now sid <$> resolves cfg now st sid)
            (fetch_idx cfg (r_zsets db) sub).
Proof.
  intros Hr Hidx Hne Hsub Hdiff Hnone. unfold list_user_sessions.
  rewrite Hidx, (str_truthy_Some idx Hne), (str_truthy_Some sub Hsub), Hr.
  cbn [negb andb]. change (default "" (Some idx)) with idx.
  change (default "" (Some sub)) with sub.
  assert (fetch_idx cfg (r_zsets db) idx = []) as ->.
  { unfold fetch_idx, zcard, zset_of. by rewrite Hnone. }
  apply String.eqb_neq in Hdiff. rewrite Hdiff. cbn [negb].
  assert (match fetch_idx cfg (r_zsets db) sub with
          | [] => [] | s :: l => s :: l end = fetch_idx cfg (r_zsets db) sub)
    as -> by (by destruct (fetch_idx cfg (r_zsets db) sub)).
  pose proof (scan_sessions_entries cfg now st (fetch_idx cfg (r_zsets db) sub))
    as Hres.
  destruct (scan_sessions cfg now st _) as [result stale]. simpl in Hres.
  destruct stale as [|s0 stale]; [done|]. cbn [fst snd]. split; [|done].
  assert (zrem (_rkey cfg "usess" idx) (s0 :: stale) (r_zsets db) = r_zsets db)
    as -> by (unfold zrem; by rewrite Hnone).
  unfold zcard, zset_of. rewrite Hnone. simpl.
  rewrite delete_id by done. rewrite with_zsets_same. by apply set_redis_same.
Qed.

(** X15 at an index kept under the sub, with one dead member. *)
Lemma list_user_sessions_legacy_index_witness :
  (list_user_sessions default_config 200 user_email user_sub
     (redis_store legacy_db)).2 = redis_store legacy_db.
Proof.
  refine (proj1 (list_user_sessions_legacy_index default_config 200 user_email
                   "sub-1" "user@example.com" (redis_store legacy_db) legacy_db
                   _ _ _ _ _ _)).
  - reflexivity.
  - vm_compute. reflexivity.
  - discriminate.
  - discriminate.
  - discriminate.
  - vm_compute. reflexivity.
Defined.

(** ** Counters of the repair job *)

Lemma check_user_key_balanced cfg dry now s db k :
  counters_balanced dry s →
  counters_balanced dry (check_user_key cfg dry now (s, db) k).1.
Proof.
  unfold counters_balanced. intros (H1 & H2 & H3 & H4). unfold check_user_key.
  destruct (zrange k 0 (-1) (r_zsets db)) as [|sid sids] eqn:Hz.
  { simpl. repeat split; try done. lia. }
  rewrite <- Hz. clear Hz.
  destruct (partition _ _) as [valid orphaned] eqn:Hp.
  apply partition_length in Hp. simpl.
  destruct dry; simpl; rewrite ?andb_false_r, ?andb_true_r; simpl.
  - repeat split; try lia; destruct (_ || _); lia.
  - destruct (length orphaned) as [|n] eqn:Ho, (length valid) as [|m] eqn:Hv;
      simpl; repeat split; lia.
Qed.

Lemma foldl_check_balanced cfg dry now keys s db :
  counters_balanced dry s →
  counters_balanced dry (foldl (check_user_key cfg dry now) (s, db) keys).1.
Proof.
  revert s db. induction keys as [|k keys IH]; intros s db H; [done|].
  cbn [foldl].
  pose proof (check_user_key_balanced cfg dry now s db k H) as H1.
  destruct (check_user_key cfg dry now (s, db) k) as [s1 db1]. by apply IH.
Qed.

Lemma fresh_counters_balanced dry :
  counters_balanced dry (stats (SessionCleanup_init dry)).
Proof. unfold counters_balanced. simpl. by destruct dry. Qed.

Lemma orphan_pass_balanced cfg self now st :
  counters_balanced (dry_run self) (stats self) →
  let r := cleanup_orphaned_user_sessions cfg self now st in
  dry_run r.1 = dry_run self
  ∧ counters_balanced (dry_run self) (stats r.1).
Proof.
  intros H. unfold cleanup_orphaned_user_sessions.
  destruct (_redis st) as [db|]; [|done].
  pose proof (foldl_check_balanced cfg (dry_run self) now
                (zset_keys (_rkey cfg "usess" "*") (r_zsets db)) (stats self) db H)
    as Hb.
  by destruct (foldl _ _ _) as [s' db'].
Qed.

(** X16: the counters of the repair job add up.  Starting from a fresh
    [SessionCleanup], after [cleanup_orphaned_user_sessions], and again after
    a following [cleanup_expired_sessions] (the order [main] runs them in),
    the sessions checked are the valid plus the orphaned ones, the orphans
    removed are all those found (none in a dry run), and the indexes cleaned
    are no more than those checked and no fewer than those deleted. *)
Theorem repair_counters_add_up cfg (dry : bool) (now : Q) (max_age_days : Z)
    (st : store) :
  let self := SessionCleanup_init dry in
  counters_balanced dry (stats (cleanup_orphaned_user_sessions cfg self now st).1)
  ∧ counters_balanced dry
      (stats (cleanup_expired_sessions cfg
                (cleanup_orphaned_user_sessions cfg self now st).1 now
                max_age_days
                (cleanup_orphaned_user_sessions cfg self now st).2).1).
Proof.
  simpl.
  destruct (orphan_pass_balanced cfg (SessionCleanup_init dry) now st
              (fresh_counters_balanced dry)) as [Hd Hb].
  simpl in Hd, Hb. split; [exact Hb|].
  destruct (cleanup_orphaned_user_sessions cfg (SessionCleanup_init dry) now st)
    as [self1 st1]. simpl in *.
  unfold cleanup_expired_sessions.
  destruct (_redis st1) as [db|]; [|done].
  destruct (map _ _); [done|].
  rewrite Hd. destruct dry; [done|].
  rewrite <- Hd in Hb.
  match goal with |- context [cleanup_orphaned_user_sessions cfg self1 now ?s] =>
    pose proof (orphan_pass_balanced cfg self1 now s Hb) as [_ Hb'] end.
  by rewrite Hd in Hb'.
Qed.

(** X17: what [get_consistency_status] reports after one pass of a fresh
    cleaner: good when no orphan was found; otherwise repaired after a real
    run and in need of repair after a dry run. *)
Theorem consistency_status_after_pass cfg (dry : bool) (now : Q) (st : store) :
  let r := cleanup_orphaned_user_sessions cfg (SessionCleanup_init dry) now st in
  get_consistency_status r.1
  = if Nat.eqb (orphaned_sessions_found (stats r.1)) 0 then "✅ 良好"
    else if dry then "⚠️ 需要修复" else "✅ 已修复".
Proof.
  simpl.
  destruct (orphan_pass_balanced cfg (SessionCleanup_init dry) now st
              (fresh_counters_balanced dry)) as [_ (_ & Hrem & _)].
  simpl in Hrem. unfold get_consistency_status. rewrite Hrem.
  destruct (orphaned_sessions_found _) as [|n]; [done|].
  destruct dry; simpl; [done|]. by rewrite Nat.leb_refl.
Qed.

(** ** What the repair job finds and leaves behind *)

Lemma prefix_append (a b : string) : String.prefix a (a ++ b) = true.
Proof.
  induction a as [|c a IH]; [by destruct b|].
  change (String c a ++ b) with (String c (a ++ b)). simpl.
  by destruct (ascii_dec c c).
Qed.

Lemma string_app_assoc (a b c : string) : (a ++ b) ++ c = a ++ (b ++ c).
Proof.
  induction a as [|x a IH]; [done|].
  change (String x ((a ++ b) ++ c) = String x (a ++ (b ++ c))). by rewrite IH.
Qed.

Lemma rkey_split cfg (kind ident : string) :
  _rkey cfg kind ident = _rkey cfg kind "" ++ ident.
Proof.
  unfold _rkey. by rewrite !string_app_assoc.
Qed.

Lemma rkey_has_prefix cfg (kind ident : string) :
  String.prefix (_rkey cfg kind "") (_rkey cfg kind ident) = true.
Proof. rewrite (rkey_split cfg kind ident). apply prefix_append. Qed.

Lemma zset_keys_NoDup (pre : string) (zs : gmap string (list (string * Q))) :
  NoDup (zset_keys pre zs).
Proof.
  unfold zset_keys. apply NoDup_ListNoDup, List.NoDup_filter, NoDup_ListNoDup.
  apply NoDup_fst_map_to_list.
Qed.

Lemma check_user_key_findings cfg dry dry' now s s' db db' k :
  findings s = findings s' →
  zset_of k (r_zsets db) = zset_of k (r_zsets db') →
  r_sess db = r_sess db' →
  findings (check_user_key cfg dry now (s, db) k).1
  = findings (check_user_key cfg dry' now (s', db') k).1.
Proof.
  unfold findings. intros [= H1 H2 H3 H4 H5] Hz Hs. unfold check_user_key.
  rewrite !zrange_all, Hz.
  assert (session_exists cfg now db = session_exists cfg now db') as ->.
  { unfold session_exists. by rewrite Hs. }
  destruct (map fst (zset_of k (r_zsets db'))) as [|sid sids].
  { simpl. by rewrite H1, H2, H3, H4, H5. }
  destruct (partition _ _) as [valid orphaned]. simpl.
  by rewrite H1, H2, H3, H4, H5.
Qed.

Lemma foldl_check_findings cfg now keys s s' db db' :
  NoDup keys →
  findings s = findings s' →
  (∀ k, k ∈ keys → zset_of k (r_zsets db) = zset_of k (r_zsets db')) →
  r_sess db = r_sess db' →
  findings (foldl (check_user_key cfg false now) (s, db) keys).1
  = findings (foldl (check_user_key cfg true now) (s', db') keys).1.
Proof.
  revert s s' db db'. induction keys as [|k keys IH];
    intros s s' db db' Hnd Hf Hz Hs; [done|].
  apply NoDup_cons in Hnd as [Hk Hnd]. cbn [foldl].
  pose proof (check_user_key_findings cfg false true now s s' db db' k Hf
                (Hz k ltac:(by left)) Hs) as Hf1.
  pose proof (check_user_key_sess cfg false now s db k) as Hs1.
  pose proof (λ k', check_user_key_zset cfg now s db k k') as Hz1.
  pose proof (check_user_key_dry cfg now s' db' k) as Hd.
  destruct (check_user_key cfg false now (s, db) k) as [s1 db1].
  destruct (check_user_key cfg true now (s', db') k) as [s1' db1'].
  simpl in *. subst db1'. apply IH; [done|done| |congruence].
  intros k' Hk'. rewrite Hz1, decide_False by (by intros ->).
  apply Hz. by right.
Qed.

(** X18: a dry run predicts the repair.  On the same store at the same time,
    the dry run and the real run of [cleanup_orphaned_user_sessions] report
    the same numbers of indexes checked and cleaned and of sessions checked,
    valid and orphaned; removing the orphans of one index never changes what
    is found in the next. *)
Theorem report_finds_what_repair_finds cfg (now : Q) (st : store) :
  findings (stats (cleanup_orphaned_user_sessions cfg
                     (SessionCleanup_init true) now st).1)
  = findings (stats (cleanup_orphaned_user_sessions cfg
                       (SessionCleanup_init false) now st).1).
Proof.
  unfold cleanup_orphaned_user_sessions.
  destruct (_redis st) as [db|]; [|done]. simpl.
  set (keys := zset_keys (_rkey cfg "usess" "*") (r_zsets db)).
  pose proof (foldl_check_findings cfg now keys
                (stats (SessionCleanup_init false))
                (stats (SessionCleanup_init true)) db db
                (zset_keys_NoDup _ _) eq_refl (λ _ _, eq_refl) eq_refl) as H.
  simpl in H.
  destruct (foldl (check_user_key cfg false now) _ keys) as [s1 db1].
  destruct (foldl (check_user_key cfg true now) _ keys) as [s2 db2].
  by simpl in *.
Qed.

(** ** The repair run twice *)

Lemma check_user_key_dry_found cfg now s db k :
  orphaned_sessions_found (check_user_key cfg true now (s, db) k).1
  = (length (List.filter (λ sid, negb (session_exists cfg now db sid))
               (map fst (zset_of k (r_zsets db))))
     + orphaned_sessions_found s)%nat.
Proof.
  unfold check_user_key. rewrite zrange_all, partition_as_filters.
  by destruct (map fst (zset_of k (r_zsets db))) as [|sid sids].
Qed.

Lemma foldl_check_dry_found cfg now keys s db :
  orphaned_sessions_found (foldl (check_user_key cfg true now) (s, db) keys).1
  = (length (flat_map
               (λ k, List.filter (λ sid, negb (session_exists cfg now db sid))
                       (map fst (zset_of k (r_zsets db)))) keys)
     + orphaned_sessions_found s)%nat.
Proof.
  revert s. induction keys as [|k keys IH]; intros s; [done|].
  cbn [foldl flat_map].
  pose proof (check_user_key_dry cfg now s db k) as Hd.
  pose proof (check_user_key_dry_found cfg now s db k) as Hf.
  destruct (check_user_key cfg true now (s, db) k) as [s1 db1].
  simpl in Hd, Hf. subst db1. rewrite IH, Hf, length_app. lia.
Qed.

(** The real pass counts every member, under the keys it goes through,
    whose session record does not exist. *)
Lemma orphan_pass_found cfg (now : Q) (st : store) :
  orphaned_sessions_found
    (stats (cleanup_orphaned_user_sessions cfg (SessionCleanup_init false)
              now st).1)
  = length (flat_map (orphans_at cfg now st) (user_session_keys cfg st)).
Proof.
  unfold cleanup_orphaned_user_sessions, user_session_keys, orphans_at,
    key_members, get_session.
  destruct st as [[db|] ss us sts cv]; [|done]. cbn [_redis dry_run stats].
  set (keys := zset_keys (_rkey cfg "usess" "*") (r_zsets db)).
  pose proof (foldl_check_findings cfg now keys
                (stats (SessionCleanup_init false))
                (stats (SessionCleanup_init false)) db db
                (zset_keys_NoDup _ _) eq_refl (λ _ _, eq_refl) eq_refl) as H.
  pose proof (foldl_check_dry_found cfg now keys
                (stats (SessionCleanup_init false)) db) as Hd.
  cbn [SessionCleanup_init stats dry_run] in *.
  destruct (foldl (check_user_key cfg false now) _ keys) as [s1 db1].
  destruct (foldl (check_user_key cfg true now) _ keys) as [s2 db2].
  cbn [fst snd stats] in *.
  assert (orphaned_sessions_found s1 = orphaned_sessions_found s2) as ->
    by (unfold findings in H; congruence).
  rewrite Hd. cbn [orphaned_sessions_found]. by rewrite Nat.add_0_r.
Qed.

(** Under each key it goes through, the real pass keeps the members whose
    session record exists; it touches no other key and no session record. *)
Lemma orphan_pass_keys cfg (now : Q) (st : store) (self : SessionCleanup) :
  dry_run self = false →
  let r := cleanup_orphaned_user_sessions cfg self now st in
  (∀ user_key,
     key_members r.2 user_key
     = if decide (user_key ∈ user_session_keys cfg st)
       then List.filter (λ sid, present (get_session cfg now sid st))
              (key_members st user_key)
       else key_members st user_key)
  ∧ (∀ t sid, get_session cfg t sid r.2 = get_session cfg t sid st).
Proof.
  intros Hdry r. subst r.
  unfold cleanup_orphaned_user_sessions, user_session_keys, key_members,
    get_session. rewrite Hdry.
  destruct st as [[db|] ss us sts cv]; cbn [_redis fst snd];
    [|split; [|done]; intros user_key; by destruct (decide (user_key ∈ []))].
  set (keys := zset_keys (_rkey cfg "usess" "*") (r_zsets db)).
  pose proof (foldl_check_sess cfg false now keys (stats self) db) as Hs.
  pose proof (λ k, foldl_check_zset cfg now keys (stats self) db k) as Hz.
  destruct (foldl _ _ keys) as [s' db']. cbn [fst snd _redis set_redis] in *.
  split.
  - intros user_key. rewrite Hz. case_decide; [|done].
    symmetry. apply (bool_filter_map fst (session_exists cfg now db)).
  - intros t sid. by rewrite Hs.
Qed.

(** A second pass, when no record ran out since the first, finds every
    member alive. *)
Lemma second_pass_finds_no_orphans cfg (st : store) (now1 now2 : Q) :
  no_expiry_between now1 now2 st = true →
  let run1 := cleanup_orphaned_user_sessions cfg (SessionCleanup_init false) now1 st in
  let run2 := cleanup_orphaned_user_sessions cfg (SessionCleanup_init false) now2 run1.2 in
  orphaned_sessions_found (stats run2.1) = 0%nat.
Proof.
  intros Hexp. unfold cleanup_orphaned_user_sessions, no_expiry_between in *.
  destruct (_redis st) as [db|] eqn:Hr; simpl; [|by rewrite Hr].
  set (keys1 := zset_keys (_rkey cfg "usess" "*") (r_zsets db)).
  pose proof (foldl_check_sess cfg false now1 keys1
                (stats (SessionCleanup_init false)) db) as Hsess.
  pose proof (λ key', foldl_check_zset cfg now1 keys1
                (stats (SessionCleanup_init false)) db key') as Hzset.
  simpl in Hsess, Hzset.
  destruct (foldl _ _ keys1) as [s1 db1]. simpl in *.
  set (keys2 := zset_keys (_rkey cfg "usess" "*") (r_zsets db1)).
  destruct (foldl_check_clean cfg now2 keys2
              {| user_sessions_checked := 0; user_sessions_cleaned := 0;
                 orphaned_sessions_found := 0; orphaned_sessions_removed := 0;
                 empty_user_sessions_removed := 0; total_sessions_checked := 0;
                 valid_sessions_found := 0 |} db1) as [_ Hfound].
  - intros k p Hk Hp. rewrite Hzset in Hp.
    unfold live_member, session_exists. rewrite Hsess.
    apply (redis_exists_later now1 now2); [done|].
    case_decide as Hin1.
    + by apply filter_In in Hp as [_ Hp].
    + exfalso. apply Hin1, list_elem_of_In, zset_keys_spec.
      apply zset_keys_spec in Hk as [Hpre _]. split; [done|].
      unfold zset_of in Hp. destruct (r_zsets db !! k); [done|].
      by apply in_nil in Hp.
  - destruct (foldl _ _ keys2) as [s2 db2]. simpl in *. done.
Qed.

(** C7: a mutating orphan pass followed by a second one, with no session
    record running out in between.  The first pass counts every member,
    under the keys it goes through, whose session record does not exist, and
    removes as many as it counts: under each of those keys exactly the
    members whose record exists are left, in their order, and nothing else in
    the store changes.  The second pass finds no orphan. *)
Theorem repair_twice_finds_no_orphans cfg (st : store) (now1 now2 : Q) :
  no_expiry_between now1 now2 st = true →
  let run1 := cleanup_orphaned_user_sessions cfg (SessionCleanup_init false) now1 st in
  let run2 := cleanup_orphaned_user_sessions cfg (SessionCleanup_init false) now2 run1.2 in
  orphaned_sessions_found (stats run1.1)
  = length (flat_map (orphans_at cfg now1 st) (user_session_keys cfg st))
  ∧ orphaned_sessions_removed (stats run1.1)
    = orphaned_sessions_found (stats run1.1)
  ∧ (∀ user_key, user_key ∈ user_session_keys cfg st →
       key_members run1.2 user_key
       = List.filter (λ sid, present (get_session cfg now1 sid st))
           (key_members st user_key))
  ∧ (∀ user_key, user_key ∉ user_session_keys cfg st →
       key_members run1.2 user_key = key_members st user_key)
  ∧ (∀ t sid, get_session cfg t sid run1.2 = get_session cfg t sid st)
  ∧ orphaned_sessions_found (stats run2.1) = 0%nat.
Proof.
  intros Hexp run1 run2.
  destruct (orphan_pass_keys cfg now1 st (SessionCleanup_init false) eq_refl)
    as [Hkeys Hsess].
  destruct (orphan_pass_balanced cfg (SessionCleanup_init false) now1 st
              (fresh_counters_balanced false)) as [_ (_ & Hrem & _)].
  split; [apply orphan_pass_found|]. split; [exact Hrem|].
  split; [|split; [|split]].
  - intros user_key Hin. unfold run1. by rewrite Hkeys, decide_True.
  - intros user_key Hin. unfold run1. by rewrite Hkeys, decide_False.
  - exact Hsess.
  - by apply second_pass_finds_no_orphans.
Qed.

(** C7 at the drifted index, passes at 200 and 300: the first finds and
    removes [sidOld], the second finds nothing. *)
Lemma repair_twice_finds_no_orphans_witness :
  orphaned_sessions_found
    (stats (cleanup_orphaned_user_sessions default_config
              (SessionCleanup_init false) 200 (redis_store drifted_db)).1)
  = 1%nat
  ∧ key_members
      (cleanup_orphaned_user_sessions default_config
         (SessionCleanup_init false) 200 (redis_store drifted_db)).2
      "appauth:usess:user@example.com" = ["sidNew"]
  ∧ orphaned_sessions_found
      (stats (cleanup_orphaned_user_sessions default_config
                (SessionCleanup_init false) 300
                (cleanup_orphaned_user_sessions default_config
                   (SessionCleanup_init false) 200 (redis_store drifted_db)).2).1)
    = 0%nat.
Proof.
  destruct (repair_twice_finds_no_orphans default_config
              (redis_store drifted_db) 200 300 eq_refl)
    as (Hfound & _ & Hkeys & _ & _ & Hsecond).
  split; [exact Hfound|]. split; [|exact Hsecond].
  apply (Hkeys "appauth:usess:user@example.com").
  apply (bool_decide_unpack _). vm_compute. exact I.
Defined.

(** ** What a pass leaves of the indexes *)

Lemma glob_free_app (a b : string) :
  glob_free (a ++ b) = glob_free a && glob_free b.
Proof.
  induction a as [|x a IH]; [done|].
  change (String x a ++ b) with (String x (a ++ b)).
  unfold glob_free in *. cbn [list_ascii_of_string forallb].
  by rewrite IH, andb_assoc.
Qed.

(** With no glob character in [REDIS_PREFIX], the pattern
    [_rkey(kind, '*')] takes the keys that start with [_rkey(kind, '')]. *)
Lemma keys_match_rkey cfg (kind key : string) :
  glob_free (REDIS_PREFIX cfg) = true → glob_free kind = true →
  keys_match (_rkey cfg kind "*") key = String.prefix (_rkey cfg kind "") key.
Proof.
  intros Hp Hk. rewrite (rkey_split cfg kind "*"). apply keys_match_literal.
  unfold _rkey. by rewrite !glob_free_app, Hp, Hk.
Qed.

Lemma orphan_pass_spec cfg (now : Q) (st : store) (db : redis)
    (self : SessionCleanup) :
  glob_free (REDIS_PREFIX cfg) = true →
  _redis st = Some db → dry_run self = false →
  let r := cleanup_orphaned_user_sessions cfg self now st in
  (∀ idx, index_members cfg r.2 idx
          = List.filter (session_exists cfg now db) (index_members cfg st idx))
  ∧ (∀ t sid, get_session cfg t sid r.2 = get_session cfg t sid st).
Proof.
  intros Hfree Hr Hdry. unfold cleanup_orphaned_user_sessions. rewrite Hr, Hdry.
  set (keys := zset_keys (_rkey cfg "usess" "*") (r_zsets db)).
  pose proof (foldl_check_sess cfg false now keys (stats self) db) as Hs.
  pose proof (λ k, foldl_check_zset cfg now keys (stats self) db k) as Hz.
  destruct (foldl _ _ keys) as [s' db']. simpl in Hs, Hz. cbn [snd].
  assert (∀ idx, zset_of (_rkey cfg "usess" idx) (r_zsets db')
                 = List.filter (live_member cfg now db)
                     (zset_of (_rkey cfg "usess" idx) (r_zsets db))) as Hidx.
  { intros idx. rewrite Hz. case_decide as Hin; [done|].
    unfold zset_of.
    destruct (r_zsets db !! _rkey cfg "usess" idx) as [z|] eqn:E; [|done].
    exfalso. apply Hin, list_elem_of_In, zset_keys_spec.
    split; [|by exists z].
    rewrite keys_match_rkey by done. apply rkey_has_prefix. }
  split.
  - intros idx. unfold index_members. cbn [_redis set_redis]. rewrite Hr, Hidx.
    symmetry. apply (bool_filter_map fst (session_exists cfg now db)).
  - intros t sid. unfold get_session. cbn [_redis set_redis]. by rewrite Hr, Hs.
Qed.

(** X19: what a real run of [cleanup_orphaned_user_sessions] leaves behind,
    when [REDIS_PREFIX] holds none of the glob characters [*], [?], [[] and
    backslash (so that the pattern handed to [KEYS] takes every index key).
    Every index holds exactly those of its former members whose session key
    exists, in the same order, and no session record is created, changed or
    removed. *)
Theorem orphan_pass_keeps_live_members cfg (now : Q) (st : store) (db : redis)
    (self : SessionCleanup) :
  glob_free (REDIS_PREFIX cfg) = true →
  _redis st = Some db → dry_run self = false →
  let r := cleanup_orphaned_user_sessions cfg self now st in
  (∀ idx, index_members cfg r.2 idx
          = List.filter (session_exists cfg now db) (index_members cfg st idx))
  ∧ (∀ t sid, get_session cfg t sid r.2 = get_session cfg t sid st).
Proof. apply orphan_pass_spec. Qed.

(** X19 at the drifted index. *)
Lemma orphan_pass_keeps_live_members_witness :
  index_members default_config
    (cleanup_orphaned_user_sessions default_config (SessionCleanup_init false)
       1000 (redis_store drifted_db)).2 "user@example.com"
  = List.filter (session_exists default_config 1000 drifted_db)
      (index_members default_config (redis_store drifted_db) "user@example.com").
Proof.
  refine (proj1 (orphan_pass_keeps_live_members default_config 1000
                   (redis_store drifted_db) drifted_db
                   (SessionCleanup_init false) _ _ _) "user@example.com");
    reflexivity.
Defined.

(** With glob characters in [REDIS_PREFIX] the pattern takes other keys: for
    the prefix [app[1]] the pass goes through no key of the application, and
    an orphan stays in its index. *)
Example orphan_pass_glob_prefix :
  let cfg := {| REDIS_PREFIX := "app[1]"; MAX_USER_SESSIONS := 0;
                SESSION_LIST_RETURN_LIMIT := 20;
                SESSION_SLIDING_ENABLED := true;
                SESSION_SLIDING_SECONDS := 3600;
                SESSION_ABSOLUTE_SECONDS := 0 |} in
  let st := redis_store
              {| r_sess := ∅;
                 r_zsets := {[ "app[1]:usess:user@example.com"
                               := [("sidOld", 1%Q)] ]};
                 r_state := ∅; r_text := ∅ |} in
  glob_free (REDIS_PREFIX cfg) = false
  ∧ user_session_keys cfg st = []
  ∧ index_members cfg
      (cleanup_orphaned_user_sessions cfg (SessionCleanup_init false) 200 st).2
      "user@example.com" = ["sidOld"].
Proof. vm_compute. repeat split; reflexivity. Qed.

(** ** Keys and ids *)

Lemma replace_drop_skip (pat a b : string) :
  replace_drop pat (String.length a) (a ++ b) = replace_drop pat 0 b.
Proof.
  induction a as [|x a IH]; [done|].
  change (String x a ++ b) with (String x (a ++ b)). simpl. apply IH.
Qed.

Lemma prefix_chars (p s : string) (c : ascii) :
  String.prefix p s = true →
  In c (list_ascii_of_string p) → In c (list_ascii_of_string s).
Proof.
  revert s. induction p as [|x p IH]; intros s Hp Hc; [done|].
  destruct s as [|y s]; [done|]. simpl in Hp.
  destruct (ascii_dec x y) as [->|]; [|done].
  destruct Hc as [->|Hc]; [by left|]. right. by apply IH.
Qed.

Lemma chars_app (a b : string) :
  list_ascii_of_string (a ++ b)
  = (list_ascii_of_string a ++ list_ascii_of_string b)%list.
Proof.
  induction a as [|x a IH]; [done|].
  change (String x a ++ b) with (String x (a ++ b)). simpl. by rewrite IH.
Qed.

Lemma replace_drop_absent (pat s : string) (c : ascii) :
  In c (list_ascii_of_string pat) → ¬ In c (list_ascii_of_string s) →
  replace_drop pat 0 s = s.
Proof.
  intros Hc. induction s as [|x s IH]; intros Hs; [done|].
  cbn [replace_drop].
  destruct (String.prefix pat (String x s)) eqn:Hp.
  { exfalso. by apply Hs, (prefix_chars pat). }
  simpl. rewrite IH; [done|]. intros H. apply Hs. by right.
Qed.

Lemma rkey_prefix_colon cfg (kind : string) :
  In ":"%char (list_ascii_of_string (_rkey cfg kind "")).
Proof.
  unfold _rkey. rewrite !chars_app. apply in_or_app. right.
  apply in_or_app. left. by left.
Qed.

(** X21: the repair job recovers an id from its key with
    [key.replace(prefix, "")].  For an identifier without a colon (session
    ids are URL-safe tokens) this gives the identifier back, whatever
    [REDIS_PREFIX] is. *)
Theorem key_prefix_strips_back cfg (kind ident : string) :
  ¬ In ":"%char (list_ascii_of_string ident) →
  str_remove (_rkey cfg kind "") (_rkey cfg kind ident) = ident.
Proof.
  intros Hid. unfold str_remove. rewrite (rkey_split cfg kind ident).
  pose proof (rkey_prefix_colon cfg kind) as Hc.
  destruct (_rkey cfg kind "") as [|x p] eqn:E; [done|].
  change (String x p ++ ident) with (String x (p ++ ident)).
  cbn [replace_drop].
  change (String x (p ++ ident)) with (String x p ++ ident).
  rewrite prefix_append. cbn [String.eqb andb negb String.length].
  replace (S (String.length p) - 1)%nat with (String.length p) by lia.
  rewrite replace_drop_skip.
  by apply (replace_drop_absent _ _ ":"%char).
Qed.

(** X21 at a session key. *)
Lemma key_prefix_strips_back_witness :
  str_remove (_rkey default_config "sess" "") (_rkey default_config "sess" "sidA")
  = "sidA".
Proof.
  apply (key_prefix_strips_back default_config "sess" "sidA").
  vm_compute. intuition discriminate.
Defined.

Lemma redis_keys_spec {A} (now : Q) (pattern key : string)
    (m : gmap string (A * Q)) :
  In key (redis_keys now pattern m)
  ↔ keys_match pattern key = true ∧ redis_exists now m key = true.
Proof.
  unfold redis_keys. rewrite filter_In, in_map_iff, andb_true_iff. split.
  - by intros [_ ?].
  - intros [Hp He]. split; [|done].
    unfold redis_exists, redis_get in He.
    destruct (m !! key) as [v|] eqn:E; [|done].
    exists (key, v). split; [done|].
    by apply list_elem_of_In, elem_of_map_to_list.
Qed.

Lemma list_case_nil {A B} (l : list A) (x y : B) :
  match l with [] => x | _ :: _ => y end = if decide (l = []) then x else y.
Proof. by destruct l. Qed.

(** X20: a real run of [cleanup_expired_sessions], when [REDIS_PREFIX] holds
    none of the glob characters [*], [?], [[] and backslash.  Provided every
    live session key is the key of the id that stripping the prefix extracts
    from it, a session whose creation time is before the cutoff is deleted
    and is left in no index, and every other session record is exactly as
    before. *)
Theorem age_sweep_removes_old_sessions cfg (now : Q) (max_age_days : Z)
    (st : store) (db : redis) (self : SessionCleanup) (sid : string) :
  glob_free (REDIS_PREFIX cfg) = true →
  _redis st = Some db → dry_run self = false →
  session_keys_canonical cfg now db = true →
  let r := cleanup_expired_sessions cfg self now max_age_days st in
  match get_session cfg now sid st with
  | Some data =>
      if outdated now max_age_days data
      then (∀ t, get_session cfg t sid r.2 = None)
           ∧ (∀ idx, sid ∉ index_members cfg r.2 idx)
      else ∀ t, get_session cfg t sid r.2 = get_session cfg t sid st
  | None => ∀ t, get_session cfg t sid r.2 = get_session cfg t sid st
  end.
Proof.
  intros Hfree Hr Hdry Hcan r. subst r.
  unfold cleanup_expired_sessions. rewrite Hr, Hdry. cbv zeta.
  set (P := _rkey cfg "sess" "").
  set (test := λ session_key : string,
         match redis_get now (r_sess db) session_key with
         | Some session_json =>
             Qlt_bool (default 0%Q (s_ts session_json))
               (now - inject_Z (max_age_days * 24 * 3600))%Q
         | None => false
         end).
  set (keysE := List.filter test
                  (redis_keys now (_rkey cfg "sess" "*") (r_sess db))).
  assert (∀ key, In key keysE → _rkey cfg "sess" (str_remove P key) = key) as F1.
  { intros key [Hin _]%filter_In. unfold session_keys_canonical in Hcan.
    rewrite forallb_forall in Hcan. by apply String.eqb_eq, Hcan. }
  assert (∀ s, s ∈ map (str_remove P) keysE ↔ In (_rkey cfg "sess" s) keysE) as F2.
  { intros s. rewrite list_elem_of_In, in_map_iff. split.
    - intros [key [<- Hin]]. by rewrite F1.
    - intros Hin. exists (_rkey cfg "sess" s). split; [|done].
      apply (rkey_same_kind cfg "sess"). by apply F1. }
  assert (∀ s, In (_rkey cfg "sess" s) keysE
               ↔ ∃ data, get_session cfg now s st = Some data
                         ∧ outdated now max_age_days data = true) as F3.
  { intros s. unfold keysE. rewrite filter_In, redis_keys_spec.
    unfold get_session, redis_exists, test, outdated. rewrite Hr.
    destruct (redis_get now (r_sess db) (_rkey cfg "sess" s)) as [data|].
    - split; [intros [_ H]; by exists data|].
      intros [d [[= <-] H]]. split; [|done]. split; [|done].
      rewrite keys_match_rkey by done. apply rkey_has_prefix.
    - split; [by intros [_ ?]|]. by intros [d [? _]]. }
  set (db1 := foldl (λ d session_id,
                       with_sess (delete (_rkey cfg "sess" session_id)) d)
                db (map (str_remove P) keysE)).
  assert (db1 = foldl (drop_session_key cfg) db (map (str_remove P) keysE))
    as Hdb1 by done.
  assert (∀ t, get_session cfg t sid (set_redis db1 st)
               = if decide (sid ∈ map (str_remove P) keysE) then None
                 else get_session cfg t sid st) as Hget.
  { intros t. unfold get_session. cbn [_redis set_redis]. rewrite Hr, Hdb1.
    unfold redis_get. case_decide as Hin.
    - by rewrite drop_session_keys_member.
    - by rewrite drop_session_keys_other. }
  assert (r_zsets db1 = r_zsets db) as Hzs.
  { rewrite Hdb1. apply drop_session_keys_zsets. }
  pose proof (proj1 (F3 sid)) as F3a. pose proof (proj2 (F3 sid)) as F3b.
  pose proof (proj1 (F2 sid)) as F2a. pose proof (proj2 (F2 sid)) as F2b.
  fold db1. rewrite list_case_nil.
  destruct (decide (map (str_remove P) keysE = [])) as [Hexp|Hexp].
  { cbn [snd].
    destruct (get_session cfg now sid st) as [data|]; [|done].
    destruct (outdated now max_age_days data) eqn:Ho; [|done].
    exfalso. apply (elem_of_nil sid). rewrite <- Hexp. apply F2b, F3b.
    by exists data. }
  clear Hexp.
  destruct (orphan_pass_spec cfg now (set_redis db1 st) db1 self Hfree eq_refl
              Hdry)
    as [Hidx Hsess].
  destruct (cleanup_orphaned_user_sessions cfg self now (set_redis db1 st))
    as [self' st']. cbn [snd] in *.
  destruct (get_session cfg now sid st) as [data|] eqn:Hg.
  - destruct (outdated now max_age_days data) eqn:Ho.
    + assert (sid ∈ map (str_remove P) keysE) as Hin.
      { apply F2b, F3b. by exists data. }
      split.
      * intros t. by rewrite Hsess, Hget, decide_True.
      * intros idx. rewrite Hidx. intros [_ Hlive]%list_elem_of_In%filter_In.
        unfold session_exists, redis_exists in Hlive.
        specialize (Hget now). unfold get_session in Hget at 1.
        cbn [_redis set_redis] in Hget. rewrite Hget, decide_True in Hlive; done.
    + intros t. rewrite Hsess, Hget, decide_False; [done|].
      intros Hin. apply F2a, F3a in Hin as [d [[= <-] Hd]]. congruence.
  - intros t. rewrite Hsess, Hget, decide_False; [done|].
    intros Hin. by apply F2a, F3a in Hin as [d [? _]].
Qed.

(** X20 at a login older than 30 days beside a recent one. *)
Lemma age_sweep_removes_old_sessions_witness :
  get_session default_config 5000200 "sidOld"
    (cleanup_expired_sessions default_config (SessionCleanup_init false)
       5000100 30 (redis_store aged_db)).2 = None
  ∧ "sidOld" ∉ index_members default_config
       (cleanup_expired_sessions default_config (SessionCleanup_init false)
          5000100 30 (redis_store aged_db)).2 "user@example.com".
Proof.
  pose proof (age_sweep_removes_old_sessions default_config 5000100 30
                (redis_store aged_db) aged_db (SessionCleanup_init false)
                "sidOld" eq_refl eq_refl eq_refl eq_refl
              : (∀ t, get_session default_config t "sidOld"
                        (cleanup_expired_sessions default_config
                           (SessionCleanup_init false) 5000100 30
                           (redis_store aged_db)).2 = None)
                ∧ (∀ idx, "sidOld" ∉ index_members default_config
                       (cleanup_expired_sessions default_config
                          (SessionCleanup_init false) 5000100 30
                          (redis_store aged_db)).2 idx)) as [H1 H2].
  exact (conj (H1 5000200%Q) (H2 "user@example.com")).
Defined.

(** ** Session routes *)

Lemma get_session_delete_session cfg (t : Q) (sid other : string) (st : store) :
  get_session cfg t other (delete_session cfg sid st)
  = if decide (other = sid) then None else get_session cfg t other st.
Proof.
  destruct (_redis st) as [db|] eqn:Hr.
  - unfold delete_session, get_session. rewrite Hr. simpl.
    unfold redis_get. case_decide as Hd.
    + subst. by rewrite lookup_delete_eq.
    + rewrite lookup_delete_ne; [done|]. by apply rkey_ne.
  - destruct (delete_session_memory_records cfg sid st Hr) as [Hr' Hs].
    unfold get_session. rewrite Hr', Hr, Hs. case_decide as Hd.
    + subst. by rewrite lookup_delete_eq.
    + by rewrite lookup_delete_ne.
Qed.

Lemma get_session_delete_sessions cfg (t : Q) (other : string)
    (l : list session_info) (st : store) :
  get_session cfg t other
    (foldl (λ s item, delete_session cfg (si_session_id item) s) st l)
  = if decide (other ∈ map si_session_id l) then None
    else get_session cfg t other st.
Proof.
  revert st. induction l as [|x l IH]; intros st.
  { cbn [foldl map].
    destruct (decide (other ∈ [])) as [H|H]; [by apply elem_of_nil in H|done]. }
  cbn [foldl map]. rewrite IH, get_session_delete_session.
  destruct (decide (other ∈ map si_session_id l)) as [Hin|Hin].
  - by rewrite decide_True by (by right).
  - destruct (decide (other = si_session_id x)) as [->|Hne].
    + by rewrite decide_True by (by left).
    + rewrite decide_False; [done|]. by intros [?|?]%elem_of_cons.
Qed.

Lemma list_user_sessions_records cfg (now t : Q) (email sub : option string)
    (other : string) (st : store) :
  get_session cfg t other (list_user_sessions cfg now email sub st).2
  = get_session cfg t other st.
Proof.
  unfold list_user_sessions.
  destruct (negb (str_truthy (_user_index_id email sub))); [done|].
  destruct (_redis st) as [db|] eqn:Hr; [|done].
  match goal with |- context [scan_sessions cfg now st ?s] =>
    destruct (scan_sessions cfg now st s) as [result stale] end.
  destruct stale; [done|]. unfold get_session. cbn [snd _redis set_redis].
  by rewrite Hr.
Qed.

Lemma list_user_sessions_listed cfg (now : Q) (email sub : option string)
    (sid : string) (st : store) :
  sid ∈ map si_session_id (list_user_sessions cfg now email sub st).1 →
  is_Some (resolves cfg now st sid).
Proof.
  unfold list_user_sessions.
  destruct (negb (str_truthy (_user_index_id email sub)));
    [by intros ?%elem_of_nil|].
  destruct (_redis st) as [db|] eqn:Hr.
  - match goal with |- context [scan_sessions cfg now st ?s] =>
      pose proof (scan_sessions_result cfg now st s) as Hres;
      destruct (scan_sessions cfg now st s) as [result stale] end.
    simpl in Hres.
    assert (sid ∈ map si_session_id result → is_Some (resolves cfg now st sid)) as H.
    { rewrite Hres. by intros [? _]%list_elem_of_filter. }
    by destruct stale.
  - cbn [fst]. rewrite scan_sessions_result. by intros [? _]%list_elem_of_filter.
Qed.

Lemma str_truthy_default (o : option string) :
  str_truthy o = true → o = Some (default "" o) ∧ default "" o ≠ "".
Proof. destruct o as [[|c s]|]; try done. Qed.

(** X22: [POST /api/auth/logout_session] only removes a session of the
    caller's own subject.  When it answers that a session was deleted, that
    session was the requested target, it resolved, and its [sub] equals the
    [sub] of the caller's session; the target no longer resolves and every
    other session is as before.  With any other answer the store is
    unchanged. *)
Theorem logout_session_same_owner cfg (now : Q) (sid target : option string)
    (st : store) :
  let r := session_routes.logout_session cfg now sid target st in
  match r.1 with
  | LsDeleted t current =>
      target = Some t
      ∧ (∃ cur tdata, get_session cfg now (default "" sid) st = Some cur
                      ∧ get_session cfg now t st = Some tdata
                      ∧ s_sub tdata = s_sub cur)
      ∧ (∀ t' other, get_session cfg t' other r.2
                     = if decide (other = t) then None
                       else get_session cfg t' other st)
  | _ => r.2 = st
  end.
Proof.
  unfold session_routes.logout_session.
  destruct (str_truthy sid); [|done]. cbn [negb].
  destruct (get_session cfg now (default "" sid) st) as [cur|] eqn:Hc; [|done].
  destruct (dict_truthy cur); [|done]. cbn [negb].
  destruct (str_truthy target) eqn:Ht; [|done]. cbn [negb].
  destruct (get_session cfg now (default "" target) st) as [tdata|] eqn:Htd; [|done].
  destruct (dict_truthy tdata); [|done]. cbn [negb orb].
  destruct (bool_decide (s_sub tdata = s_sub cur)) eqn:Hs; [|done].
  apply bool_decide_eq_true in Hs. cbn [negb fst snd].
  split; [by apply str_truthy_default|]. split; [by exists cur, tdata|].
  intros t' other. apply get_session_delete_session.
Qed.

(** X23: [POST /api/auth/logout_all] deletes the sessions that
    [list_user_sessions] returns for the caller, and nothing else.  The number
    it reports is the length of that list, hence at most
    [SESSION_LIST_RETURN_LIMIT] when the limit is positive; a session that is
    not listed (older than the listing window, or not indexed) still resolves
    afterwards.  A request without a valid session changes nothing. *)
Theorem logout_all_clears_listed cfg (now : Q) (sid : option string) (st : store) :
  let r := session_routes.logout_all cfg now sid st in
  match r.1 with
  | None => r.2 = st
  | Some cleared =>
      ∃ cur, get_session cfg now (default "" sid) st = Some cur ∧
        let listed :=
          map si_session_id
            (list_user_sessions cfg now (s_email cur) (s_sub cur) st).1 in
        cleared = length listed
        ∧ (0 < SESSION_LIST_RETURN_LIMIT cfg →
           Z.of_nat cleared <= SESSION_LIST_RETURN_LIMIT cfg)
        ∧ ∀ t other, get_session cfg t other r.2
                     = if decide (other ∈ listed) then None
                       else get_session cfg t other st
  end.
Proof.
  unfold session_routes.logout_all.
  destruct (str_truthy sid); [|done]. cbn [negb].
  destruct (get_session cfg now (default "" sid) st) as [cur|] eqn:Hc; [|done].
  destruct (dict_truthy cur); [|done]. cbn [negb].
  pose proof (list_user_sessions_length cfg now (s_email cur) (s_sub cur) st) as Hb.
  pose proof (λ t other, list_user_sessions_records cfg now t (s_email cur)
                           (s_sub cur) other st) as Hrec.
  destruct (list_user_sessions cfg now (s_email cur) (s_sub cur) st)
    as [sessions st1] eqn:Hl. cbn [fst snd] in *.
  exists cur. split; [done|]. cbv zeta. rewrite Hl, length_map. cbn [fst].
  split; [done|]. split; [done|].
  intros t other. by rewrite get_session_delete_sessions, Hrec.
Qed.

Lemma refresh_keeps_record cfg (now : Q) (sid : string) (data data' : session)
    (st st' : store) (new_exp : option Z) :
  get_session cfg now sid st = Some data →
  refresh_session_if_needed cfg now sid data st = Some (new_exp, data', st') →
  get_session cfg now sid st' = Some data'
  ∧ (∀ e, new_exp = Some e → s_exp data' = Some e)
  ∧ (new_exp = None → data' = data ∧ st' = st).
Proof.
  intros Hg. unfold refresh_session_if_needed.
  destruct (negb (SESSION_SLIDING_ENABLED cfg)); [by intros [= <- <- <-]|].
  destruct (Qle_bool _ now); [by intros [= <- <- <-]|].
  destruct (_ && _); [by intros [= <- <- <-]|].
  set (c := if 0 <? SESSION_ABSOLUTE_SECONDS cfg then _ else _).
  destruct (save_session cfg now sid (set_exp data c) c st) as [st1|] eqn:Hs;
    [|done].
  intros [= <- <- <-]. split; [|split; [|done]].
  - unfold save_session in Hs. unfold get_session.
    destruct (_redis st) as [db|] eqn:Hr.
    + injection Hs as <-. cbn [_redis set_redis]. simpl.
      apply redis_get_setex_alive.
      assert (0 <= (if c =? 0 then SESSION_TTL_DEFAULT else Z.max 60 (c - py_int now)))
        as Hpos.
      { destruct (c =? 0); [done|lia]. }
      rewrite Zle_Qle in Hpos.
      change (inject_Z 0) with 0%Q in Hpos. lra.
    + destruct (str_truthy (s_sub (set_exp data c))).
      * destruct (0 <? MAX_USER_SESSIONS cfg) eqn:Hm; [done|].
        injection Hs as <-. unfold _enforce_max_sessions_memory. rewrite Hm.
        cbn [_redis set_user_sessions set_session_store _session_store].
        by rewrite Hr, lookup_insert_eq.
      * injection Hs as <-.
        cbn [_redis set_session_store _session_store].
        by rewrite Hr, lookup_insert_eq.
  - by intros e [= <-].
Qed.

(** X24: [GET /api/auth/session] refuses a record that has run out, also where
    [get_session] still returns it (the in-memory store, or a Redis key within
    its minimum life of 60 s).  For a stored record whose expiry is nonzero
    and before [now] the answer is unauthenticated, the record is deleted and
    no other session is touched. *)
Theorem session_info_rejects_expired cfg (secure : bool) (domains : list string)
    {faces face : Type} (recent : option string → faces)
    (all : option string → face) (now : Q) (sid : string)
    (faces_arg include_arg host : option string) (st : store) (data : session) :
  sid ≠ "" →
  get_session cfg now sid st = Some data →
  exp_passed now (s_exp data) = true →
  ∃ st', session_routes.session_info cfg secure domains recent all now
           (Some sid) faces_arg include_arg host st
         = Some (Unauthenticated, st')
         ∧ (∀ t, get_session cfg t sid st' = None)
         ∧ (∀ t other, other ≠ sid →
              get_session cfg t other st' = get_session cfg t other st).
Proof.
  intros Hne Hg Hexp. exists (delete_session cfg sid st).
  unfold session_routes.session_info.
  assert (str_truthy (Some sid) = true) as -> by (by destruct sid).
  change (default "" (Some sid)) with sid. rewrite Hg, Hexp. cbn [negb].
  assert (dict_truthy data = true) as ->.
  { unfold exp_passed in Hexp. unfold dict_truthy.
    destruct (s_exp data); [|done]. cbn [present]. by rewrite ?orb_true_r. }
  split; [done|]. split.
  - intros t. by rewrite get_session_delete_session, decide_True.
  - intros t other Ho. by rewrite get_session_delete_session, decide_False.
Qed.

(** X25: when [GET /api/auth/session] answers authenticated, the cookie named
    a stored record whose expiry had not passed, the [user] of the answer is
    the record the store holds for that id after the call, and a cookie that
    is set carries that id with [max_age = max(0, exp - int(now))] for the
    expiry [exp] of the returned record. *)
Theorem session_info_authenticated cfg (secure : bool) (domains : list string)
    {faces face : Type} (recent : option string → faces)
    (all : option string → face) (now : Q)
    (sid faces_arg include_arg host : option string) (st st' : store)
    (body : session_info_body faces face)
    (set_cookie : option (string * cookie_kwargs)) :
  session_routes.session_info cfg secure domains recent all now sid faces_arg
    include_arg host st
  = Some (Authenticated body set_cookie, st') →
  ∃ s data, sid = Some s
    ∧ get_session cfg now s st = Some data
    ∧ exp_passed now (s_exp data) = false
    ∧ get_session cfg now s st' = Some (sb_user body)
    ∧ match set_cookie with
      | Some (value, kw) =>
          value = s
          ∧ ∃ e, s_exp (sb_user body) = Some e
                 ∧ ck_max_age kw = Z.max 0 (e - py_int now)
      | None => True
      end.
Proof.
  unfold session_routes.session_info.
  destruct (str_truthy sid) eqn:Hsid; [|done]. cbn [negb].
  apply str_truthy_default in Hsid as [Hsid _].
  destruct (get_session cfg now (default "" sid) st) as [data|] eqn:Hg; [|done].
  destruct (dict_truthy data); [|done]. cbn [negb].
  destruct (exp_passed now (s_exp data)) eqn:Hexp; [done|].
  destruct (refresh_session_if_needed cfg now (default "" sid) data st)
    as [[[new_exp data'] st1]|] eqn:Hrf; [|done].
  destruct (refresh_keeps_record _ _ _ _ _ _ _ _ Hg Hrf) as (Hg' & Hnew & _).
  intros [= <- <- <-]. exists (default "" sid), data. cbn [sb_user].
  repeat (split; [done|]).
  destruct new_exp as [e|]; [|done].
  destruct (e =? 0); [done|]. split; [done|]. exists e. by split; [apply Hnew|].
Qed.

(** X26: after [POST /api/auth/logout] the session is never listed again.
    [delete_session] leaves the id in the Redis index and in the in-memory
    email index, but [list_user_sessions], for any identity, returns no entry
    for it. *)
Theorem logged_out_session_not_listed cfg (now : Q) (sid : string)
    (email sub : option string) (st : store) :
  sid ≠ "" →
  sid ∉ map si_session_id
          (list_user_sessions cfg now email sub
             (session_routes.logout cfg (Some sid) st)).1.
Proof.
  intros Hne Hin. apply list_user_sessions_listed in Hin as [sess Hres].
  unfold session_routes.logout in Hres.
  assert (str_truthy (Some sid) = true) as Ht by (by destruct sid).
  rewrite Ht in Hres. change (default "" (Some sid)) with sid in Hres.
  unfold resolves in Hres.
  by rewrite get_session_delete_session, decide_True in Hres.
Qed.

(** X27: with an absolute lifetime configured, a refresh never moves the
    expiry past it.  Whenever [refresh_session_if_needed] returns a new
    expiry, that expiry is at most [int(ts + SESSION_ABSOLUTE_SECONDS)] for
    the creation time [ts] of the record ([now] when it has none), at most
    [int(now + SESSION_SLIDING_SECONDS)], and it is the expiry written in the
    caller's dict. *)
Theorem refresh_respects_absolute_lifetime cfg (now : Q) (sid : string)
    (data data' : session) (st st' : store) (e : Z) :
  0 < SESSION_ABSOLUTE_SECONDS cfg →
  refresh_session_if_needed cfg now sid data st = Some (Some e, data', st') →
  e <= py_int (default now (s_ts data) + inject_Z (SESSION_ABSOLUTE_SECONDS cfg))
  ∧ e <= py_int (now + inject_Z (SESSION_SLIDING_SECONDS cfg))
  ∧ s_exp data' = Some e.
Proof.
  intros Habs. unfold refresh_session_if_needed.
  destruct (negb (SESSION_SLIDING_ENABLED cfg)); [done|].
  destruct (Qle_bool _ now); [done|].
  destruct (Z.ltb_spec 0 (SESSION_ABSOLUTE_SECONDS cfg)) as [_|]; [|lia].
  destruct (_ && _); [done|].
  match goal with |- context [save_session cfg now sid ?d ?c st] =>
    destruct (save_session cfg now sid d c st) as [st1|]; [|done] end.
  intros [= <- <- <-]. split; [|split; [|done]].
  - destruct (Z.ltb_spec
               (py_int (default now (s_ts data)
                        + inject_Z (SESSION_ABSOLUTE_SECONDS cfg)))
               (py_int (now + inject_Z (SESSION_SLIDING_SECONDS cfg)))); lia.
  - destruct (Z.ltb_spec
               (py_int (default now (s_ts data)
                        + inject_Z (SESSION_ABSOLUTE_SECONDS cfg)))
               (py_int (now + inject_Z (SESSION_SLIDING_SECONDS cfg)))); lia.
Qed.

(** X24 at an in-memory login that ran out at 3700, asked at 5000. *)
Lemma session_info_rejects_expired_witness :
  ∃ st', session_routes.session_info default_config false [] no_faces no_faces
           5000 (Some "sidA") None None None one_login_memory
         = Some (Unauthenticated, st')
         ∧ get_session default_config 6000 "sidA" st' = None.
Proof.
  destruct (session_info_rejects_expired default_config false [] no_faces
              no_faces 5000 "sidA" None None None one_login_memory
              (sample_session 3700)) as (st' & Heq & Hgone & _);
    [done|reflexivity|reflexivity|].
  exists st'. split; [exact Heq|exact (Hgone 6000%Q)].
Defined.

(** X25 at a Redis login with 3400 s to live. *)
Lemma session_info_authenticated_witness :
  ∃ body set_cookie st',
    session_routes.session_info default_config false [] no_faces no_faces
      200 (Some "sid1") None None None two_sessions_cap2
    = Some (Authenticated body set_cookie, st')
    ∧ get_session default_config 200 "sid1" st' = Some (sb_user body).
Proof.
  destruct (session_routes.session_info default_config false [] no_faces
              no_faces 200 (Some "sid1") None None None two_sessions_cap2)
    as [[[|body set_cookie] st']|] eqn:E;
    try (vm_compute in E; discriminate).
  exists body, set_cookie, st'. split; [reflexivity|].
  destruct (session_info_authenticated default_config false [] no_faces
              no_faces 200 (Some "sid1") None None None two_sessions_cap2 st'
              body set_cookie E) as (s & data & Hs & _ & _ & Hg & _).
  injection Hs as <-. exact Hg.
Defined.

(** X26 at an in-memory login whose email index keeps the id. *)
Lemma logged_out_session_not_listed_witness :
  "sidA" ∉ map si_session_id
             (list_user_sessions default_config 200 user_email user_sub
                (session_routes.logout default_config (Some "sidA")
                   one_login_memory)).1.
Proof.
  by apply (logged_out_session_not_listed default_config 200 "sidA").
Defined.

(** X27 at an absolute lifetime of 3000 s: the expiry moves back from 3600 to 3100. *)
Lemma refresh_respects_absolute_lifetime_witness :
  ∃ e data' st',
    refresh_session_if_needed (config_with_absolute 3000) 2000 "sid1"
      (sample_session 3600) two_sessions_cap2 = Some (Some e, data', st')
    ∧ e <= 3100.
Proof.
  destruct (refresh_session_if_needed (config_with_absolute 3000) 2000 "sid1"
              (sample_session 3600) two_sessions_cap2)
    as [[[[e|] data'] st']|] eqn:E; try (vm_compute in E; discriminate).
  exists e, data', st'. split; [reflexivity|].
  exact (proj1 (refresh_respects_absolute_lifetime (config_with_absolute 3000)
                  2000 "sid1" (sample_session 3600) data' two_sessions_cap2 st'
                  e eq_refl E)).
Defined.

(** ** Cookie domain *)

Lemma sort_by_len_desc_head (l : list string) :
  match sort_by_len_desc l with
  | [] => l = []
  | x :: _ => x ∈ l ∧ ∀ y, y ∈ l → (String.length y ≤ String.length x)%nat
  end.
Proof.
  induction l as [|d l IH]; [done|].
  unfold sort_by_len_desc in *. cbn [foldr].
  destruct (foldr insert_by_len [] l) as [|x s].
  { subst l. simpl. split; [by left|].
    intros y Hy. apply list_elem_of_singleton in Hy. by subst. }
  destruct IH as [Hx Hmax]. cbn [insert_by_len].
  destruct (Nat.leb_spec (String.length x) (String.length d)) as [Hle|Hlt].
  - split; [by left|]. intros y [->|Hy]%elem_of_cons; [done|].
    specialize (Hmax y Hy). lia.
  - split; [by right|]. intros y [->|Hy]%elem_of_cons; [lia|by apply Hmax].
Qed.

(** X28: with two or more cookie domains configured and a non-empty host,
    [select_cookie_domain] returns [''] when no domain matches the host;
    otherwise it returns a configured domain that matches the host (equal to
    it or a parent of it, ignoring case) and no matching domain is longer. *)
Theorem select_cookie_domain_longest_match (domains : list string) (host : string) :
  (2 ≤ length domains)%nat → host ≠ "" →
  let r := select_cookie_domain domains (Some host) in
  ((∀ d, d ∈ domains → host_matches (lower host) d = false) → r = "")
  ∧ (∀ d, d ∈ domains → host_matches (lower host) d = true →
       r ∈ domains ∧ host_matches (lower host) r = true
       ∧ (String.length d ≤ String.length r)%nat).
Proof.
  intros Hlen Hhost. unfold select_cookie_domain.
  destruct domains as [|d1 [|d2 ds]]; [simpl in Hlen; lia..|].
  set (domains := d1 :: d2 :: ds).
  assert (str_truthy (Some host) = true) as -> by (by destruct host).
  cbn [negb]. change (default "" (Some host)) with host.
  pose proof (sort_by_len_desc_head
                (List.filter (host_matches (lower host)) domains)) as Hhd.
  destruct (sort_by_len_desc (List.filter (host_matches (lower host)) domains))
    as [|x s]; cbv zeta.
  - split; [done|]. intros d Hd Hm. exfalso.
    apply (elem_of_nil d). rewrite <- Hhd. apply list_elem_of_In, filter_In.
    split; [by apply list_elem_of_In|done].
  - destruct Hhd as [Hx Hmax].
    apply list_elem_of_In, filter_In in Hx as [Hx Hxm].
    split.
    + intros Hnone. apply list_elem_of_In in Hx. rewrite Hnone in Hxm; done.
    + intros d Hd Hm. split; [by apply list_elem_of_In|]. split; [done|].
      apply Hmax, list_elem_of_In, filter_In. split; [by apply list_elem_of_In|done].
Qed.

(** X28 at a host below both configured domains. *)
Lemma select_cookie_domain_longest_match_witness :
  select_cookie_domain ["example.com"; "app.example.com"]
    (Some "API.app.example.com") ∈ ["example.com"; "app.example.com"]
  ∧ (String.length "example.com"
     ≤ String.length (select_cookie_domain ["example.com"; "app.example.com"]
                        (Some "API.app.example.com")))%nat.
Proof.
  destruct (proj2 (select_cookie_domain_longest_match
                     ["example.com"; "app.example.com"] "API.app.example.com"
                     ltac:(simpl; lia) ltac:(done))
              "example.com" ltac:(by left) eq_refl) as (H1 & _ & H3).
  exact (conj H1 H3).
Defined.
